(** * Step-synchronised visualisation and playback engine

    A shallow embedding of the visualiser component
    ([src/components/AlgorithmVisualizer.tsx]), the playback controller
    ([StepByStepDisplay]) and the narration helpers
    ([src/utils/AudioUtils.ts]), with the properties the specification
    states about them and further properties that the code itself shows.

    JavaScript numbers are modelled by rationals ([Q]), step indices by
    integers ([Z]), payloads that arrive as parsed JSON by the value type
    [JsValue], SVG attributes by finite maps from attribute names.

    The rationals compute exactly where binary64 rounds, and they have no
    infinity: no property below is about the value a scale computes from
    the payload's numbers, only about which expression an attribute
    holds, about counts, colours and positions that do not depend on the
    payload's values. *)

From Stdlib Require Import ZArith QArith String Ascii List Bool Lia Lqa
  HexString.
From stdpp Require Import base option list strings pretty gmap.

Set Warnings "-register-all".
Close Scope Q_scope.
Local Open Scope string_scope.
Local Open Scope list_scope.

(** ** JavaScript values and exceptions *)

Module JS.

Inductive JsError :=
| TypeError (msg : string)
| Error (msg : string).

Inductive Result (A : Type) :=
| Ok (a : A)
| Throw (e : JsError).
Arguments Ok {A} a.
Arguments Throw {A} e.

Definition bind {A B} (r : Result A) (k : A -> Result B) : Result B :=
  match r with
  | Ok a => k a
  | Throw e => Throw e
  end.

Definition throws {A} (r : Result A) : bool :=
  match r with Ok _ => false | Throw _ => true end.

(** A parsed JSON document, plus [undefined] for absent properties.
    Object properties are kept in [Object.keys] order. *)
Inductive JsValue :=
| JUndefined
| JNull
| JBool (b : bool)
| JNum (q : Q)
| JStr (s : string)
| JArr (items : list JsValue)
| JObj (props : list (string * JsValue)).

(** [ToBoolean]; [NaN] has no representative among the rationals. *)
Definition truthy (v : JsValue) : bool :=
  match v with
  | JUndefined | JNull => false
  | JBool b => b
  | JNum q => negb (Qeq_bool q 0)
  | JStr s => negb (String.eqb s "")
  | JArr _ | JObj _ => true
  end.

(** [typeof v === 'object'] *)
Definition typeof_object (v : JsValue) : bool :=
  match v with
  | JNull | JArr _ | JObj _ => true
  | _ => false
  end.

(** [Array.isArray(v)] *)
Definition isArray (v : JsValue) : bool :=
  match v with JArr _ => true | _ => false end.

Fixpoint assoc (k : string) (props : list (string * JsValue)) : option JsValue :=
  match props with
  | [] => None
  | (k', v) :: rest => if String.eqb k k' then Some v else assoc k rest
  end.

(** [Object.keys(o)] *)
Definition keys (props : list (string * JsValue)) : list string :=
  map fst props.

(** [k in v] for a value that is already known to be a non-null object. *)
Definition has_property (k : string) (v : JsValue) : bool :=
  match v with
  | JObj props => existsb (String.eqb k) (keys props)
  | _ => false
  end.

(** [o[k]] on an object value: an absent property reads as [undefined]. *)
Definition get (k : string) (props : list (string * JsValue)) : JsValue :=
  match assoc k props with
  | Some v => v
  | None => JUndefined
  end.

(** [a === b].  Arrays and objects compare by reference; two values of a
    parsed JSON tree are never the same reference. *)
Definition strict_eq (a b : JsValue) : bool :=
  match a, b with
  | JUndefined, JUndefined => true
  | JNull, JNull => true
  | JBool x, JBool y => Bool.eqb x y
  | JNum x, JNum y => Qeq_bool x y
  | JStr x, JStr y => String.eqb x y
  | _, _ => false
  end.

(** [names.includes(v)] for an array of strings [names]. *)
Definition includes (names : list string) (v : JsValue) : bool :=
  existsb (fun n => strict_eq (JStr n) v) names.

End JS.
Import JS.

#[global] Instance Result_ret : MRet Result := @Ok.
#[global] Instance Result_bind : MBind Result :=
  fun A B k r => JS.bind r k.

(** ** Shared helpers *)

Notation "s |> f" := (f s) (at level 45, left associativity, only parsing).

(** [margin] and the fixed canvas of the drawing effect *)
Record Margin := {
  top : Q;
  right : Q;
  bottom : Q;
  left : Q
}.

Definition canvas_width : Q := 600.
Definition canvas_height : Q := 400.
Definition canvas_margin : Margin :=
  {| top := 20; right := 20; bottom := 40; left := 40 |}.

(** [n || d] for a number that may be [undefined] *)
Definition num_or (n : option Q) (d : Q) : Q :=
  match n with
  | Some v => if Qeq_bool v 0 then d else v
  | None => d
  end.

Definition Qnat (n : nat) : Q := inject_Z (Z.of_nat n).

Definition upper_ascii (c : ascii) : ascii :=
  let n := nat_of_ascii c in
  if (97 <=? n)%nat && (n <=? 122)%nat then ascii_of_nat (n - 32) else c.

Fixpoint toUpperCase (s : string) : string :=
  match s with
  | EmptyString => EmptyString
  | String c rest => String (upper_ascii c) (toUpperCase rest)
  end.

(** [n.toString(16)] *)
Definition toString16 (n : nat) : string :=
  match N.of_nat n with
  | N0 => "0"
  | Npos p => HexString.Raw.of_pos p ""
  end.

(** ** The visualiser component: type dispatch and header *)

Module Visualizer.

(** [VisualizationData]: both fields as they arrive from [JSON.parse]. *)
Record VisualizationData := {
  vd_type : JsValue;
  vd_data : JsValue
}.

Inductive Renderer :=
| ArrayView
| GraphView
| TreeView
| LinkedListView.

Definition type_is (data : VisualizationData) (tag : string) : bool :=
  strict_eq (vd_type data) (JStr tag).

(** The type dispatch of the drawing effect.  [None]: the canvas is
    cleared and nothing is drawn. *)
Definition classify (data : VisualizationData) : option Renderer :=
  if type_is data "array" then Some ArrayView
  else if type_is data "graph" then Some GraphView
  else if type_is data "tree" then Some TreeView
  else if type_is data "linkedlist" then Some LinkedListView
  else
    if truthy (vd_data data)
       && typeof_object (vd_data data)
       && negb (isArray (vd_data data))
       && has_property "nodes" (vd_data data)
    then Some LinkedListView
    else if isArray (vd_data data) then Some ArrayView
    else None.

Definition recognised (data : VisualizationData) : bool :=
  type_is data "array" || type_is data "graph"
  || type_is data "tree" || type_is data "linkedlist".

(** *** The returned JSX *)

(** [s.charAt(0).toUpperCase() + s.slice(1)], for a tag that starts with
    an ASCII character: [upper_ascii] is [toUpperCase] on code units
    below 128 and leaves the others as they are, where JavaScript follows
    the Unicode tables.  No property below reads the title of such a
    tag. *)
Definition capitalise (s : string) : string :=
  match s with
  | EmptyString => EmptyString
  | String c rest => String (upper_ascii c) rest
  end.

(** [data.type.charAt(0).toUpperCase() + data.type.slice(1)] *)
Definition header_title (ty : JsValue) : Result string :=
  match ty with
  | JStr s => Ok (capitalise s +:+ " Visualization")
  | JUndefined =>
      Throw (TypeError "Cannot read properties of undefined (reading 'charAt')")
  | JNull =>
      Throw (TypeError "Cannot read properties of null (reading 'charAt')")
  | _ => Throw (TypeError "data.type.charAt is not a function")
  end.

(** [data.data.length]: the length of an array or a string, an object's
    own [length] property, [undefined] on a number or a boolean. *)
Definition data_length (d : JsValue) : Result JsValue :=
  match d with
  | JUndefined =>
      Throw (TypeError "Cannot read properties of undefined (reading 'length')")
  | JNull =>
      Throw (TypeError "Cannot read properties of null (reading 'length')")
  | JArr items => Ok (JNum (inject_Z (Z.of_nat (List.length items))))
  | JStr s => Ok (JNum (inject_Z (Z.of_nat (String.length s))))
  | JObj props => Ok (get "length" props)
  | JBool _ | JNum _ => Ok JUndefined
  end.

(** [data.data[currentStep]], once [data.data] is neither [undefined]
    nor [null]. *)
Definition data_at (d : JsValue) (currentStep : Z) : JsValue :=
  match d with
  | JArr items =>
      if (currentStep <? 0)%Z then JUndefined
      else default JUndefined (items !! Z.to_nat currentStep)
  | JStr s =>
      if (currentStep <? 0)%Z then JUndefined
      else match String.get (Z.to_nat currentStep) s with
           | Some c => JStr (String c EmptyString)
           | None => JUndefined
           end
  | JObj props => get (pretty currentStep) props
  | _ => JUndefined
  end.

(** What React accepts as a child: plain objects are refused, arrays are
    rendered item by item. *)
Fixpoint valid_child (v : JsValue) : bool :=
  match v with
  | JObj _ => false
  | JArr items => forallb valid_child items
  | _ => true
  end.

(** [{v}] as a child of an element *)
Definition child (v : JsValue) : Result JsValue :=
  if valid_child v then Ok v
  else Throw (Error "Objects are not valid as a React child").

(** [{data.data[currentStep] || 'N/A'}] *)
Definition current_element (d : JsValue) (currentStep : Z) : Result JsValue :=
  let v := data_at d currentStep in
  let shown := if truthy v then v else JStr "N/A" in
  child shown.

Record Footer := {
  ft_steps_total : JsValue;
  ft_type : JsValue;
  ft_elements : JsValue;
  ft_current : JsValue
}.

Record View := {
  vw_title : string;
  vw_footer : Footer
}.

(** The JSX the component returns: the header and the footer's property
    reads, in evaluation order, and then the children as React renders
    them. *)
Definition returned_jsx (data : VisualizationData) (currentStep : Z)
  : Result View :=
  title ← header_title (vd_type data);
  total ← data_length (vd_data data);
  elements ← data_length (vd_data data);
  total ← child total;
  elements ← child elements;
  current ← current_element (vd_data data) currentStep;
  Ok {| vw_title := title;
        vw_footer := {| ft_steps_total := total;
                        ft_type := vd_type data;
                        ft_elements := elements;
                        ft_current := current |} |}.

(** One mount of the component: the function body returns its JSX, and
    only then does the drawing effect run. *)
Definition AlgorithmVisualizer (data : VisualizationData) (currentStep : Z)
  : Result (View * option Renderer) :=
  v ← returned_jsx data currentStep;
  Ok (v, classify data).

End Visualizer.

(** ** A model of the d3 selections the renderers build

    d3 is a library the component imports: its operations are modelled
    here from their documented behaviour (d3-selection: a callback given
    to [attr] or [text] receives the datum and the index of the element
    within its group; d3-transition; d3-scale). *)

Module D3.

Inductive AttrVal :=
| AStr (s : string)
| ANum (q : Q)
| AJs (v : JsValue)
| ATranslate (x y : Q).

(** A scheduled transition: its duration and the attribute values it
    ends on. *)
Record Transition := {
  tr_duration : Z;
  tr_attrs : gmap string AttrVal
}.

Record Elem := {
  tag : string;
  attrs : gmap string AttrVal;
  text : option AttrVal;
  transitions : list Transition
}.

Definition created (t : string) : Elem :=
  {| tag := t; attrs := ∅; text := None; transitions := [] |}.

Definition set_attr (name : string) (v : AttrVal) (e : Elem) : Elem :=
  {| tag := tag e; attrs := <[name := v]> (attrs e);
     text := text e; transitions := transitions e |}.

Definition set_text (v : AttrVal) (e : Elem) : Elem :=
  {| tag := tag e; attrs := attrs e;
     text := Some v; transitions := transitions e |}.

(** A selection with one group: the elements with their bound data; the
    position in the list is the index [i] that callbacks receive. *)
Abbreviation Selection D := (list (D * Elem)).

(** [parent.selectAll(sel).data(ds).enter().append(t)] when nothing
    matches [sel] yet: one new element per datum. *)
Definition enter_append {D} (ds : list D) (t : string) : Selection D :=
  (fun d => (d, created t)) <$> ds.

(** [s.append(t)]: one new child per selected element, which inherits the
    datum and keeps the index of its parent. *)
Definition append {D} (t : string) (s : Selection D) : Selection D :=
  (fun de => (de.1, created t)) <$> s.

(** [s.attr(name, (d, i) => ...)] *)
Definition attr {D} (name : string) (f : D -> nat -> AttrVal)
    (s : Selection D) : Selection D :=
  imap (fun i de => (de.1, set_attr name (f de.1 i) de.2)) s.

(** [s.attr(name, constant)]; a [style(name, constant)] is kept among the
    attributes under the name [style:name]. *)
Definition attr_c {D} (name : string) (v : AttrVal)
    (s : Selection D) : Selection D :=
  attr name (fun _ _ => v) s.

(** [s.text((d, i) => ...)] *)
Definition txt {D} (f : D -> nat -> AttrVal) (s : Selection D) : Selection D :=
  imap (fun i de => (de.1, set_text (f de.1 i) de.2)) s.

Definition with_transitions (f : list Transition -> list Transition)
    (e : Elem) : Elem :=
  {| tag := tag e; attrs := attrs e; text := text e;
     transitions := f (transitions e) |}.

(** [s.transition().duration(ms)]: a new, empty transition on every
    element. *)
Definition transition {D} (ms : Z) (s : Selection D) : Selection D :=
  (fun de =>
     (de.1,
      with_transitions
        (fun ts => ts ++ [{| tr_duration := ms; tr_attrs := ∅ |}]) de.2))
  <$> s.

Definition retarget (name : string) (v : AttrVal) (ts : list Transition)
  : list Transition :=
  match reverse ts with
  | [] => []
  | t :: before =>
      reverse before
      ++ [{| tr_duration := tr_duration t;
             tr_attrs := <[name := v]> (tr_attrs t) |}]
  end.

(** [t.attr(name, (d, i) => ...)] on the transition started last. *)
Definition tattr {D} (name : string) (f : D -> nat -> AttrVal)
    (s : Selection D) : Selection D :=
  imap (fun i de =>
          (de.1, with_transitions (retarget name (f de.1 i)) de.2)) s.

(** The element once all its transitions have run, in order. *)
Definition settled (e : Elem) : Elem :=
  {| tag := tag e;
     attrs := fold_left (fun a t => tr_attrs t ∪ a) (transitions e) (attrs e);
     text := text e; transitions := [] |}.

Definition elems {D} (s : Selection D) : list Elem := snd <$> s.

Definition has_class (c : string) (e : Elem) : bool :=
  match attrs e !! "class" with
  | Some (AStr c') => String.eqb c c'
  | _ => false
  end.

(** [selectAll("." ++ c)] over a drawn scene. *)
Definition select_class (c : string) (scene : list Elem) : list Elem :=
  List.filter (has_class c) scene.

(** [svg.append("g")]: the single drawing group, without datum. *)
Definition group : Selection unit := [(tt, created "g")].

(** The selection over [ds] whose [i]-th element, bound to [d], is
    [F d i]: the shape every chain of the operations above reduces to. *)
Definition build {D} (ds : list D) (F : D -> nat -> Elem) : Selection D :=
  imap (fun i d => (d, F d i)) ds.

(** *** d3-scale, over the rationals *)

(** [d3.scaleBand().domain(n names).range([r0, r1]).padding(p)] with
    [r0 <= r1]: the step between bands, the offset of the first band and
    the width of a band. *)
Record BandScale := {
  band_n : nat;
  band_start : Q;
  band_step : Q;
  bandwidth : Q
}.

Definition Qmax (a b : Q) : Q := if Qle_bool a b then b else a.

Definition scaleBand (n : nat) (r0 r1 p : Q) : BandScale :=
  let count := inject_Z (Z.of_nat n) in
  let step := ((r1 - r0) / Qmax 1 (count - p + p * 2))%Q in
  {| band_n := n;
     band_start := (r0 + (r1 - r0 - step * (count - p)) * (1 # 2))%Q;
     band_step := step;
     bandwidth := (step * (1 - p))%Q |}.

(** [xScale(i.toString())]: [undefined] outside the domain. *)
Definition band (sc : BandScale) (i : nat) : option Q :=
  if (i <? band_n sc)%nat
  then Some (band_start sc + band_step sc * inject_Z (Z.of_nat i))%Q
  else None.

(** [d3.max(xs)]: [undefined] on the empty array. *)
Definition max (xs : list Q) : option Q :=
  match xs with
  | [] => None
  | x :: rest => Some (fold_left Qmax rest x)
  end.

(** [d3.scaleLinear().domain([d0, d1]).range([r0, r1])] with [d0 <> d1],
    as an expression over the rationals: exact, where the code rounds. *)
Definition scaleLinear (d0 d1 r0 r1 : Q) (v : Q) : Q :=
  (r0 + (v - d0) / (d1 - d0) * (r1 - r0))%Q.

End D3.

(** ** The array renderer *)

Module ArrayRender.
Import D3.

(** One entry of [elements] *)
Record Element := {
  value : Q;
  index : nat;
  x : Q;
  y : Q;
  width : Q;
  height : Q
}.

Definition mouseover (e : Elem) : Elem :=
  e |> set_attr "opacity" (ANum (8 # 10)) |> set_attr "stroke-width" (ANum 3).

Definition mouseout (step : Z) (d : Element) (e : Elem) : Elem :=
  e |> set_attr "opacity" (ANum 1)
    |> set_attr "stroke-width"
         (ANum (if (Z.of_nat (index d) =? step)%Z then 4 else 2)).

Definition elements_of (array : list Q) (innerWidth innerHeight : Q)
  : list Element :=
  let xScale := scaleBand (List.length array) 0 innerWidth (1 # 10) in
  let yScale := scaleLinear 0 (num_or (D3.max array) 1) innerHeight 0 in
  imap (fun index value =>
          {| value := value;
             index := index;
             x := num_or (band xScale index) 0;
             y := yScale value;
             width := bandwidth xScale;
             height := (innerHeight - yScale value)%Q |}) array.

(** The bars as appended, with their transition scheduled. *)
Definition bars_of (elements : list Element) (innerHeight : Q) (step : Z)
    (animationSpeed : Z) : Selection Element :=
  enter_append elements "rect"
    |> attr_c "class" (AStr "bar")
    |> attr "x" (fun d _ => ANum (x d))
    |> attr "width" (fun d _ => ANum (width d))
    |> attr_c "y" (ANum innerHeight)
    |> attr_c "height" (ANum 0)
    |> attr "fill" (fun _ i =>
         if (Z.of_nat i =? step)%Z then AStr "var(--current-color)"
         else if (Z.of_nat i <? step)%Z then AStr "var(--checked-color)"
         else AStr "var(--unchecked-color)")
    |> attr "stroke" (fun _ i =>
         if (Z.of_nat i =? step)%Z then AStr "var(--ai-color)"
         else AStr "var(--stroke-color)")
    |> attr "stroke-width" (fun _ i =>
         if (Z.of_nat i =? step)%Z then ANum 4 else ANum 2)
    |> attr_c "rx" (ANum 5)
    |> attr_c "ry" (ANum 5)
    |> transition animationSpeed
    |> tattr "y" (fun d _ => ANum (y d))
    |> tattr "height" (fun d _ => ANum (height d))
    |> tattr "fill" (fun _ i =>
         if (Z.of_nat i =? step)%Z then AStr "var(--current-color)"
         else if (Z.of_nat i <? step)%Z then AStr "var(--checked-color)"
         else AStr "var(--unchecked-color)")
    |> tattr "stroke" (fun _ i =>
         if (Z.of_nat i =? step)%Z then AStr "var(--ai-color)"
         else AStr "var(--stroke-color)")
    |> tattr "stroke-width" (fun _ i =>
         if (Z.of_nat i =? step)%Z then ANum 4 else ANum 2).

Definition valueLabels_of (elements : list Element) (innerHeight : Q)
    (animationSpeed : Z) : Selection Element :=
  enter_append elements "text"
    |> attr_c "class" (AStr "value-label")
    |> attr "x" (fun d _ => ANum (x d + width d / 2)%Q)
    |> attr_c "y" (ANum (innerHeight + 20)%Q)
    |> attr_c "text-anchor" (AStr "middle")
    |> attr_c "font-size" (AStr "12px")
    |> attr_c "fill" (AStr "var(--text-color)")
    |> txt (fun d _ => ANum (value d))
    |> transition animationSpeed
    |> tattr "y" (fun _ _ => ANum (innerHeight + 20)%Q).

Definition indexLabels_of (elements : list Element) (innerHeight : Q)
    (animationSpeed : Z) : Selection Element :=
  enter_append elements "text"
    |> attr_c "class" (AStr "index-label")
    |> attr "x" (fun d _ => ANum (x d + width d / 2)%Q)
    |> attr_c "y" (ANum (innerHeight + 35)%Q)
    |> attr_c "text-anchor" (AStr "middle")
    |> attr_c "font-size" (AStr "10px")
    |> attr_c "fill" (AStr "var(--text-color)")
    |> txt (fun d _ => ANum (Qnat (index d)))
    |> transition animationSpeed
    |> tattr "y" (fun _ _ => ANum (innerHeight + 35)%Q).

(** The scene in creation order: the group, the bars, both rows of
    labels and the two axis groups (the ticks that [d3.axisBottom] and
    [d3.axisLeft] generate inside them are left out). *)
Definition renderArrayVisualization (array : list Q) (width height : Q)
    (margin : Margin) (step : Z) (animationSpeed : Z) : list Elem :=
  let innerWidth := (width - left margin - right margin)%Q in
  let innerHeight := (height - top margin - bottom margin)%Q in
  let g := group |> attr_c "transform" (ATranslate (left margin) (top margin)) in
  let elements := elements_of array innerWidth innerHeight in
  let bars := bars_of elements innerHeight step animationSpeed in
  let valueLabels := valueLabels_of elements innerHeight animationSpeed in
  let indexLabels := indexLabels_of elements innerHeight animationSpeed in
  let axisBottom :=
    append "g" g
      |> attr_c "class" (AStr "axis")
      |> attr_c "transform" (ATranslate 0 innerHeight) in
  let axisLeft := append "g" g |> attr_c "class" (AStr "axis") in
  elems g ++ elems bars ++ elems valueLabels ++ elems indexLabels
    ++ elems axisBottom ++ elems axisLeft.

Definition bars (scene : list Elem) : list Elem := select_class "bar" scene.

End ArrayRender.

(** ** The linked-list renderer *)

Module ListRender.
Import D3.

Record ListNode := {
  id : string;
  value : Q
}.

Record Connection := {
  from : string;
  to : string
}.

(** [listData]; a field that the payload may leave out is an [option]
    ([None] is [undefined]). *)
Record ListData := {
  nodes : option (list ListNode);
  connections : option (list Connection);
  head : option string;
  tail : option string;
  meta_algorithm : option string
}.

(** One entry of [nodePositions]: [{...node, x, y}] *)
Record Positioned := {
  p_id : string;
  p_value : Q;
  p_x : Q;
  p_y : Q
}.

(** [if (s)] on a string that may be [undefined] *)
Definition truthy_str (s : option string) : bool :=
  match s with
  | Some v => negb (String.eqb v "")
  | None => false
  end.

(** [a === b] for a string [a] and a string or [undefined] [b] *)
Definition str_eq (a : string) (b : option string) : bool :=
  match b with
  | Some v => String.eqb a v
  | None => false
  end.

Definition isCircular (connections : list Connection)
    (head tail : option string) : bool :=
  existsb (fun conn => str_eq (from conn) tail && str_eq (to conn) head)
          connections.

Definition nodePositions_of (nodes : list ListNode)
    (innerWidth innerHeight : Q) : list Positioned :=
  let nodeSpacing := (innerWidth / (Qnat (List.length nodes) + 1))%Q in
  imap (fun index node =>
          {| p_id := id node;
             p_value := value node;
             p_x := ((Qnat index + 1) * nodeSpacing)%Q;
             p_y := (innerHeight / 2)%Q |}) nodes.

Definition find_node (ps : list Positioned) (name : string)
  : option Positioned :=
  List.find (fun n => String.eqb (p_id n) name) ps.

Definition marker (g : Selection unit) (name colour : string) : list Elem :=
  let defs := append "defs" g in
  let m :=
    append "marker" defs
      |> attr_c "id" (AStr name)
      |> attr_c "viewBox" (AStr "0 -5 10 10")
      |> attr_c "refX" (ANum 8)
      |> attr_c "refY" (ANum 0)
      |> attr_c "markerWidth" (ANum 6)
      |> attr_c "markerHeight" (ANum 6)
      |> attr_c "orient" (AStr "auto") in
  let path :=
    append "path" m
      |> attr_c "d" (AStr "M0,-5L10,0L0,5")
      |> attr_c "fill" (AStr colour) in
  elems defs ++ elems m ++ elems path.

(** The node groups and, per group, the box, the two compartments and
    the four texts. *)
Definition node_elems (g : Selection unit) (nodePositions : list Positioned)
    (step : Z) : list Elem :=
  let nodeGroups :=
    enter_append nodePositions "g"
      |> attr_c "class" (AStr "linkedlist-node")
      |> attr "transform" (fun d _ => ATranslate (p_x d) (p_y d)) in
  let node_box :=
    append "rect" nodeGroups
      |> attr_c "class" (AStr "node-box")
      |> attr_c "x" (ANum (-35))
      |> attr_c "y" (ANum (-25))
      |> attr_c "width" (ANum 70)
      |> attr_c "height" (ANum 50)
      |> attr_c "rx" (ANum 8)
      |> attr_c "ry" (ANum 8)
      |> attr "fill" (fun _ i =>
           if (Z.of_nat i =? step)%Z then AStr "#f59e0b"
           else if (Z.of_nat i <? step)%Z then AStr "#10b981"
           else AStr "#3b82f6")
      |> attr "stroke" (fun _ i =>
           if (Z.of_nat i =? step)%Z then AStr "#f59e0b" else AStr "#1e40af")
      |> attr "stroke-width" (fun _ i =>
           if (Z.of_nat i =? step)%Z then ANum 4 else ANum 2)
      |> attr_c "opacity" (ANum (9 # 10)) in
  let data_box :=
    append "rect" nodeGroups
      |> attr_c "class" (AStr "data-box")
      |> attr_c "x" (ANum (-30))
      |> attr_c "y" (ANum (-20))
      |> attr_c "width" (ANum 40)
      |> attr_c "height" (ANum 30)
      |> attr_c "rx" (ANum 4)
      |> attr_c "ry" (ANum 4)
      |> attr_c "fill" (AStr "white")
      |> attr_c "stroke" (AStr "#666")
      |> attr_c "stroke-width" (ANum 1) in
  let pointer_box :=
    append "rect" nodeGroups
      |> attr_c "class" (AStr "pointer-box")
      |> attr_c "x" (ANum 15)
      |> attr_c "y" (ANum (-20))
      |> attr_c "width" (ANum 30)
      |> attr_c "height" (ANum 30)
      |> attr_c "rx" (ANum 4)
      |> attr_c "ry" (ANum 4)
      |> attr_c "fill" (AStr "#f8f9fa")
      |> attr_c "stroke" (AStr "#666")
      |> attr_c "stroke-width" (ANum 1) in
  let data_label :=
    append "text" nodeGroups
      |> attr_c "class" (AStr "data-label")
      |> attr_c "x" (ANum (-10))
      |> attr_c "y" (ANum (-8))
      |> attr_c "text-anchor" (AStr "middle")
      |> attr_c "fill" (AStr "#666")
      |> attr_c "font-size" (AStr "8px")
      |> attr_c "font-weight" (AStr "bold")
      |> txt (fun _ _ => AStr "Data") in
  let node_value :=
    append "text" nodeGroups
      |> attr_c "class" (AStr "node-value")
      |> attr_c "x" (ANum (-10))
      |> attr_c "y" (ANum 5)
      |> attr_c "text-anchor" (AStr "middle")
      |> attr_c "fill" (AStr "#333")
      |> attr_c "font-size" (AStr "14px")
      |> attr_c "font-weight" (AStr "bold")
      |> txt (fun d _ => ANum (p_value d)) in
  let next_label :=
    append "text" nodeGroups
      |> attr_c "class" (AStr "next-label")
      |> attr_c "x" (ANum 30)
      |> attr_c "y" (ANum (-8))
      |> attr_c "text-anchor" (AStr "middle")
      |> attr_c "fill" (AStr "#666")
      |> attr_c "font-size" (AStr "8px")
      |> attr_c "font-weight" (AStr "bold")
      |> txt (fun _ _ => AStr "Next") in
  let node_id :=
    append "text" nodeGroups
      |> attr_c "class" (AStr "node-id")
      |> attr_c "x" (ANum 30)
      |> attr_c "y" (ANum 5)
      |> attr_c "text-anchor" (AStr "middle")
      |> attr_c "fill" (AStr "#333")
      |> attr_c "font-size" (AStr "10px")
      |> txt (fun d _ => AStr (p_id d)) in
  elems nodeGroups ++ elems node_box ++ elems data_box ++ elems pointer_box
    ++ elems data_label ++ elems node_value ++ elems next_label
    ++ elems node_id.

(** The body of [connections.forEach] *)
Definition arrow_elems (g : Selection unit) (nodePositions : list Positioned)
    (conn : Connection) : list Elem :=
  match find_node nodePositions (from conn),
        find_node nodePositions (to conn) with
  | Some fromNode, Some toNode =>
      let line :=
        append "line" g
          |> attr_c "class" (AStr "linkedlist-arrow")
          |> attr_c "x1" (ANum (p_x fromNode + 30)%Q)
          |> attr_c "y1" (ANum (p_y fromNode))
          |> attr_c "x2" (ANum (p_x toNode - 35)%Q)
          |> attr_c "y2" (ANum (p_y toNode))
          |> attr_c "stroke" (AStr "#666")
          |> attr_c "stroke-width" (ANum 2)
          |> attr_c "marker-end" (AStr "url(#arrowhead)") in
      elems line ++ marker g "arrowhead" "#666"
  | _, _ => []
  end.

Definition head_elems (g : Selection unit) (nodePositions : list Positioned)
    (head : option string) : list Elem :=
  if truthy_str head then
    match find_node nodePositions (default "" head) with
    | Some headNode =>
        let label :=
          append "text" g
            |> attr_c "class" (AStr "head-pointer")
            |> attr_c "x" (ANum (p_x headNode))
            |> attr_c "y" (ANum (p_y headNode - 40)%Q)
            |> attr_c "text-anchor" (AStr "middle")
            |> attr_c "fill" (AStr "#ef4444")
            |> attr_c "font-size" (AStr "12px")
            |> attr_c "font-weight" (AStr "bold")
            |> txt (fun _ _ => AStr "HEAD") in
        let line :=
          append "line" g
            |> attr_c "class" (AStr "head-arrow")
            |> attr_c "x1" (ANum (p_x headNode))
            |> attr_c "y1" (ANum (p_y headNode - 30)%Q)
            |> attr_c "x2" (ANum (p_x headNode))
            |> attr_c "y2" (ANum (p_y headNode - 20)%Q)
            |> attr_c "stroke" (AStr "#ef4444")
            |> attr_c "stroke-width" (ANum 2)
            |> attr_c "marker-end" (AStr "url(#head-arrow)") in
        elems label ++ elems line ++ marker g "head-arrow" "#ef4444"
    | None => []
    end
  else [].

Definition tail_elems (g : Selection unit) (nodePositions : list Positioned)
    (tail : option string) : list Elem :=
  if truthy_str tail then
    match find_node nodePositions (default "" tail) with
    | Some tailNode =>
        append "text" g
          |> attr_c "class" (AStr "tail-pointer")
          |> attr_c "x" (ANum (p_x tailNode))
          |> attr_c "y" (ANum (p_y tailNode + 50)%Q)
          |> attr_c "text-anchor" (AStr "middle")
          |> attr_c "fill" (AStr "#8b5cf6")
          |> attr_c "font-size" (AStr "12px")
          |> attr_c "font-weight" (AStr "bold")
          |> txt (fun _ _ => AStr "TAIL")
          |> elems
    | None => []
    end
  else [].

Definition arrayBoxWidth : Q := 50.
Definition arrayBoxHeight : Q := 30.
Definition arraySpacing : Q := 60.

(** The body of the first [nodePositions.forEach]: the cell of the array
    strip for [node], the [index]-th node. *)
Definition array_cell (g : Selection unit) (arrayStartY : Q) (step : Z)
    (index : nat) (node : Positioned) : list Elem :=
  let arrayX := ((Qnat index + 1) * arraySpacing - 25)%Q in
  let box :=
    append "rect" g
      |> attr_c "class" (AStr "array-box")
      |> attr_c "x" (ANum arrayX)
      |> attr_c "y" (ANum arrayStartY)
      |> attr_c "width" (ANum arrayBoxWidth)
      |> attr_c "height" (ANum arrayBoxHeight)
      |> attr_c "rx" (ANum 4)
      |> attr_c "ry" (ANum 4)
      |> attr "fill" (fun _ i =>
           if (Z.of_nat i =? step)%Z then AStr "#f59e0b"
           else if (Z.of_nat i <? step)%Z then AStr "#10b981"
           else AStr "#3b82f6")
      |> attr "stroke" (fun _ i =>
           if (Z.of_nat i =? step)%Z then AStr "#f59e0b" else AStr "#1e40af")
      |> attr "stroke-width" (fun _ i =>
           if (Z.of_nat i =? step)%Z then ANum 3 else ANum 2) in
  let array_index :=
    append "text" g
      |> attr_c "class" (AStr "array-index")
      |> attr_c "x" (ANum (arrayX + arrayBoxWidth / 2)%Q)
      |> attr_c "y" (ANum (arrayStartY - 5)%Q)
      |> attr_c "text-anchor" (AStr "middle")
      |> attr_c "font-size" (AStr "10px")
      |> attr_c "fill" (AStr "#666")
      |> txt (fun _ _ => AStr ("[" +:+ pretty index +:+ "]")) in
  let array_value :=
    append "text" g
      |> attr_c "class" (AStr "array-value")
      |> attr_c "x" (ANum (arrayX + arrayBoxWidth / 2)%Q)
      |> attr_c "y" (ANum (arrayStartY + arrayBoxHeight / 2 + 3)%Q)
      |> attr_c "text-anchor" (AStr "middle")
      |> attr_c "font-size" (AStr "12px")
      |> attr_c "font-weight" (AStr "bold")
      |> attr_c "fill" (AStr "white")
      |> txt (fun _ _ => ANum (p_value node)) in
  let memory_address :=
    append "text" g
      |> attr_c "class" (AStr "memory-address")
      |> attr_c "x" (ANum (arrayX + arrayBoxWidth / 2)%Q)
      |> attr_c "y" (ANum (arrayStartY + arrayBoxHeight + 15)%Q)
      |> attr_c "text-anchor" (AStr "middle")
      |> attr_c "font-size" (AStr "8px")
      |> attr_c "fill" (AStr "#666")
      |> txt (fun _ _ =>
           AStr ("0x" +:+ toUpperCase (toString16 (1000 + index * 8)))) in
  elems box ++ elems array_index ++ elems array_value ++ elems memory_address.

(** The body of the second [nodePositions.forEach] *)
Definition connection_line (g : Selection unit) (innerHeight arrayStartY : Q)
    (index : nat) (node : Positioned) : list Elem :=
  let linkedListY := (innerHeight / 2)%Q in
  let arrayY := (arrayStartY + arrayBoxHeight / 2)%Q in
  append "line" g
    |> attr_c "class" (AStr "connection-line")
    |> attr_c "x1" (ANum (p_x node))
    |> attr_c "y1" (ANum (linkedListY + 25)%Q)
    |> attr_c "x2" (ANum ((Qnat index + 1) * arraySpacing)%Q)
    |> attr_c "y2" (ANum arrayY)
    |> attr_c "stroke" (AStr "#ccc")
    |> attr_c "stroke-width" (ANum 1)
    |> attr_c "stroke-dasharray" (AStr "3,3")
    |> elems.

Definition circular_indicator (g : Selection unit) (innerWidth : Q)
  : list Elem :=
  append "text" g
    |> attr_c "class" (AStr "circular-indicator")
    |> attr_c "x" (ANum (innerWidth - 10)%Q)
    |> attr_c "y" (ANum 20)
    |> attr_c "text-anchor" (AStr "end")
    |> attr_c "font-size" (AStr "12px")
    |> attr_c "fill" (AStr "#f59e0b")
    |> attr_c "font-weight" (AStr "bold")
    |> txt (fun _ _ => AStr "🔄 Circular")
    |> elems.

(** The scene in creation order.  [listData] is [None] when the
    argument is falsy. *)
Definition renderLinkedListVisualization (listData : option ListData)
    (width height : Q) (margin : Margin) (step : Z) : list Elem :=
  let innerWidth := (width - left margin - right margin)%Q in
  let innerHeight := (height - top margin - bottom margin)%Q in
  match listData with
  | None => []
  | Some listData =>
  match nodes listData with
  | None => []
  | Some nodes =>
      let connections := default [] (connections listData) in
      let head := head listData in
      let tail := tail listData in
      let isCircular := isCircular connections head tail in
      let g :=
        group |> attr_c "transform" (ATranslate (left margin) (top margin)) in
      let nodePositions := nodePositions_of nodes innerWidth innerHeight in
      let arrayStartY := (innerHeight / 2 + 80)%Q in
      let array_title :=
        append "text" g
          |> attr_c "class" (AStr "array-title")
          |> attr_c "x" (ANum (innerWidth / 2)%Q)
          |> attr_c "y" (ANum (arrayStartY - 20)%Q)
          |> attr_c "text-anchor" (AStr "middle")
          |> attr_c "font-size" (AStr "14px")
          |> attr_c "font-weight" (AStr "bold")
          |> attr_c "fill" (AStr "#374151")
          |> txt (fun _ _ => AStr "Array Representation") in
      let step_info :=
        append "text" g
          |> attr_c "class" (AStr "step-info")
          |> attr_c "x" (ANum 10)
          |> attr_c "y" (ANum 20)
          |> attr_c "font-size" (AStr "12px")
          |> attr_c "fill" (AStr "var(--text-color)")
          |> txt (fun _ _ =>
               AStr ("Step " +:+ pretty (step + 1)%Z +:+ " | "
                     +:+ (if truthy_str (meta_algorithm listData)
                          then default "" (meta_algorithm listData)
                          else "Linked List")
                     +:+ " | Nodes: " +:+ pretty (List.length nodes))) in
      elems g
        ++ node_elems g nodePositions step
        ++ concat (arrow_elems g nodePositions <$> connections)
        ++ head_elems g nodePositions head
        ++ tail_elems g nodePositions tail
        ++ elems array_title
        ++ concat (imap (array_cell g arrayStartY step) nodePositions)
        ++ concat (imap (connection_line g innerHeight arrayStartY) nodePositions)
        ++ elems step_info
        ++ (if isCircular then circular_indicator g innerWidth else [])
  end
  end.

Definition node_boxes (scene : list Elem) : list Elem :=
  select_class "node-box" scene.

Definition array_boxes (scene : list Elem) : list Elem :=
  select_class "array-box" scene.

Definition circular_indicators (scene : list Elem) : list Elem :=
  select_class "circular-indicator" scene.

(** The three classes the properties select. *)
Definition watched : list string :=
  ["circular-indicator"; "array-box"; "node-box"].

End ListRender.

(** ** The graph renderer *)

Module GraphRender.
Import D3.

(** A pin field ([fx], [fy]) of a simulation node: never assigned,
    cleared, or holding a coordinate. *)
Inductive Pin :=
| PinUndefined
| PinNull
| PinAt (q : Q).

(** d3-force tests [node.fx == null] *)
Definition unpinned (p : Pin) : bool :=
  match p with
  | PinAt _ => false
  | _ => true
  end.

(** A node object: created as [{ id }], placed on the circle, then
    shared between the simulation and the circle it is bound to. *)
Record GraphNode := {
  id : JsValue;
  x : Q;
  y : Q;
  fx : Pin;
  fy : Pin;
  visited : JsValue;
  current : JsValue
}.

(** An edge as pushed: [{ source, target }] *)
Record Edge := {
  source : JsValue;
  target : JsValue
}.

(** An end of a link once [d3.forceLink] has been initialised: the node
    object (by its index in [nodes]), or the raw value where d3 performs
    no lookup. *)
Inductive End_ :=
| NodeRef (i : nat)
| Raw (v : JsValue).

Record Link := {
  l_source : End_;
  l_target : End_
}.

(** The edges of the sequential form: [i] from [0] to [length - 2] *)
Fixpoint sequential_edges (graphData : list JsValue) : list Edge :=
  match graphData with
  | a :: ((b :: _) as rest) =>
      {| source := a; target := b |} :: sequential_edges rest
  | _ => []
  end.

(** The body of [nodeNames.forEach]: the edges that start at [nodeName] *)
Definition edges_from (props : list (string * JsValue))
    (nodeNames : list string) (nodeName : string) : Result (list Edge) :=
  let neighbors :=
    if truthy (get nodeName props) then get nodeName props else JArr [] in
  match neighbors with
  | JArr items =>
      Ok ((fun neighborName =>
             {| source := JStr nodeName; target := neighborName |})
          <$> List.filter (includes nodeNames) items)
  | _ => Throw (TypeError "neighbors.forEach is not a function")
  end.

Fixpoint collect (rs : list (Result (list Edge))) : Result (list Edge) :=
  match rs with
  | [] => Ok []
  | r :: rest =>
      es ← r;
      more ← collect rest;
      Ok (es ++ more)
  end.

(** The ids of [nodes] and the [edges], after the parsing block. *)
Definition parse (graphData : JsValue)
  : Result (list JsValue * list Edge) :=
  match graphData with
  | JArr items => Ok (items, sequential_edges items)
  | JObj props =>
      let nodeNames := keys props in
      edges ← collect (edges_from props nodeNames <$> nodeNames);
      Ok (JStr <$> nodeNames, edges)
  | _ => Ok ([], [])
  end.

(** [nodeById.get(v)]: the last node whose id is [v] *)
Fixpoint node_by_id (ids : list JsValue) (v : JsValue) (i : nat)
  : option nat :=
  match ids with
  | [] => None
  | d :: rest =>
      match node_by_id rest v (S i) with
      | Some j => Some j
      | None => if strict_eq d v then Some i else None
      end
  end.

(** The lookup [d3.forceLink] does, when it is initialised, on an end
    that is not yet an object; it throws on an id that no node has.  An
    end of type [object], [null] among them, is left as it is. *)
Definition resolve (ids : list JsValue) (v : JsValue) : Result End_ :=
  if typeof_object v then Ok (Raw v)
  else match node_by_id ids v 0 with
       | Some i => Ok (NodeRef i)
       | None => Throw (Error "node not found")
       end.

(** [count[link.source.index]]: reading [index] off an end; [null] has
    no properties. *)
Definition index_of (e : End_) : Result unit :=
  match e with
  | Raw JNull =>
      Throw (TypeError "Cannot read properties of null (reading 'index')")
  | _ => Ok tt
  end.

Fixpoint initialize_links (ids : list JsValue) (edges : list Edge)
  : Result (list Link) :=
  match edges with
  | [] => Ok []
  | e :: rest =>
      s ← resolve ids (source e);
      t ← resolve ids (target e);
      _ ← index_of s;
      _ ← index_of t;
      more ← initialize_links ids rest;
      Ok ({| l_source := s; l_target := t |} :: more)
  end.

(** The scalar state of the [d3.forceSimulation]; the forces and the
    positions they produce tick by tick are d3's and are not modelled. *)
Record Simulation := {
  alpha : Q;
  alphaTarget : Q;
  alphaDecay : Q;
  velocityDecay : Q;
  running : bool
}.

(** What one call leaves behind: the shared node objects, the edges as
    pushed (the data bound to [lines], in order), the links they become
    in the simulation, the simulation and the drawn elements.  The zoom
    behaviour, the tooltips and the coordinates that the tick listener
    copies from the nodes to the elements are left out. *)
Record Graph := {
  nodes : list GraphNode;
  edges : list Edge;
  links : list Link;
  simulation : Simulation;
  lines : list Elem;
  circles : list Elem;
  labels : list Elem;
  step_text : list Elem
}.

Definition nothing : Graph :=
  {| nodes := []; edges := []; links := [];
     simulation := {| alpha := 0; alphaTarget := 0; alphaDecay := 0;
                      velocityDecay := 0; running := false |};
     lines := []; circles := []; labels := []; step_text := [] |}.

Section Circle.
(** [Math.cos], [Math.sin] and [Math.PI] *)
Variables cos sin : Q -> Q.
Variable PI : Q.

Definition place (innerWidth innerHeight : Q) (ids : list JsValue)
  : list GraphNode :=
  imap (fun i d =>
          let angle := (2 * PI * Qnat i / Qnat (List.length ids))%Q in
          {| id := d;
             x := (innerWidth / 2 + 120 * cos angle)%Q;
             y := (innerHeight / 2 + 120 * sin angle)%Q;
             fx := PinUndefined; fy := PinUndefined;
             visited := JUndefined; current := JUndefined |}) ids.

Definition renderGraphVisualization (graphData : JsValue)
    (width height : Q) (margin : Margin) (step : Z) : Result Graph :=
  let innerWidth := (width - left margin - right margin)%Q in
  let innerHeight := (height - top margin - bottom margin)%Q in
  parsed ← parse graphData;
  let ids := parsed.1 in
  let edges := parsed.2 in
  if (List.length ids =? 0)%nat then Ok nothing
  else
    let container :=
      group |> attr_c "class" (AStr "graph-container-group") in
    let nodes := place innerWidth innerHeight ids in
    links ← initialize_links ids edges;
    let line :=
      enter_append edges "line"
        |> attr_c "stroke-width" (ANum 2)
        |> attr_c "stroke" (AStr "#999") in
    let node :=
      enter_append nodes "circle"
        |> attr_c "r" (ANum 20)
        |> attr "fill" (fun d _ =>
             if (step =? 0)%Z then AStr "#3b82f6"
             else if truthy (visited d) then AStr "#10b981"
             else if truthy (current d) then AStr "#f59e0b"
             else AStr "#6b7280")
        |> attr "stroke" (fun d _ =>
             if truthy (current d) then AStr "#f59e0b" else AStr "#fff")
        |> attr "stroke-width" (fun d _ =>
             if truthy (current d) then ANum 6 else ANum 3) in
    let label :=
      enter_append nodes "text"
        |> txt (fun d _ => AJs (id d))
        |> attr_c "text-anchor" (AStr "middle")
        |> attr_c "dy" (ANum 5)
        |> attr_c "fill" (AStr "#fff")
        |> attr_c "style:font-weight" (AStr "bold") in
    let info :=
      append "text" container
        |> attr_c "x" (ANum 10)
        |> attr_c "y" (ANum 20)
        |> attr_c "font-size" (AStr "12px")
        |> attr_c "fill" (AStr "var(--text-color)")
        |> txt (fun _ _ =>
             AStr ("Step " +:+ pretty (step + 1)%Z
                   +:+ " | Nodes: " +:+ pretty (List.length nodes)
                   +:+ " | Edges: " +:+ pretty (List.length edges))) in
    Ok {| nodes := nodes;
          edges := edges;
          links := links;
          simulation := {| alpha := 1; alphaTarget := 0;
                           alphaDecay := 9 # 10; velocityDecay := 2 # 10;
                           running := true |};
          lines := elems line;
          circles := elems node;
          labels := elems label;
          step_text := elems info |}.
End Circle.

(** *** Pointer handlers on a circle; [i] is the node bound to it *)

Definition with_node (f : GraphNode -> GraphNode) (i : nat) (g : Graph)
  : Graph :=
  {| nodes := alter f i (nodes g); edges := edges g; links := links g;
     simulation := simulation g; lines := lines g; circles := circles g;
     labels := labels g; step_text := step_text g |}.

Definition with_circle (f : Elem -> Elem) (i : nat) (g : Graph) : Graph :=
  {| nodes := nodes g; edges := edges g; links := links g;
     simulation := simulation g; lines := lines g;
     circles := alter f i (circles g);
     labels := labels g; step_text := step_text g |}.

Definition with_simulation (f : Simulation -> Simulation) (g : Graph)
  : Graph :=
  {| nodes := nodes g; edges := edges g; links := links g;
     simulation := f (simulation g); lines := lines g;
     circles := circles g; labels := labels g; step_text := step_text g |}.

Definition set_pins (px py : GraphNode -> Pin) (d : GraphNode) : GraphNode :=
  {| id := id d; x := x d; y := y d; fx := px d; fy := py d;
     visited := visited d; current := current d |}.

Definition pulse (e : Elem) : Elem :=
  with_transitions
    (fun _ =>
       [ {| tr_duration := 500;
            tr_attrs := {[ "transform" := ATranslate 0 (-20) ]} |};
         {| tr_duration := 500;
            tr_attrs := {[ "transform" := ATranslate 0 0 ]} |} ]) e.

(** The click listener, up to the start of the two transitions. *)
Definition click (defaultPrevented : bool) (i : nat) (g : Graph) : Graph :=
  if defaultPrevented then g
  else
    g |> with_node (set_pins (fun d => PinAt (x d)) (fun d => PinAt (y d))) i
      |> with_circle pulse i.

(** The ["end"] listener of the second transition. *)
Definition pulse_end (i : nat) (g : Graph) : Graph :=
  g |> with_circle settled i
    |> with_node (set_pins (fun _ => PinNull) (fun _ => PinNull)) i.

(** A click whose pulse runs to its end. *)
Definition click_completed (defaultPrevented : bool) (i : nat) (g : Graph)
  : Graph :=
  if defaultPrevented then g else pulse_end i (click false i g).

Definition restart (target : Q) (s : Simulation) : Simulation :=
  {| alpha := alpha s; alphaTarget := target; alphaDecay := alphaDecay s;
     velocityDecay := velocityDecay s; running := true |}.

Definition retarget_alpha (target : Q) (s : Simulation) : Simulation :=
  {| alpha := alpha s; alphaTarget := target; alphaDecay := alphaDecay s;
     velocityDecay := velocityDecay s; running := running s |}.

(** The three drag listeners; [active] is [event.active]. *)
Definition drag_start (active : bool) (i : nat) (g : Graph) : Graph :=
  (if active then g else with_simulation (restart (3 # 10)) g)
    |> with_node (set_pins (fun d => PinAt (x d)) (fun d => PinAt (y d))) i.

Definition drag (ex ey : Q) (i : nat) (g : Graph) : Graph :=
  with_node (set_pins (fun _ => PinAt ex) (fun _ => PinAt ey)) i g.

Definition drag_end (active : bool) (i : nat) (g : Graph) : Graph :=
  (if active then g else with_simulation (retarget_alpha 0) g)
    |> with_node (set_pins (fun _ => PinNull) (fun _ => PinNull)) i.

Definition pinned (d : GraphNode) : bool :=
  negb (unpinned (fx d)) || negb (unpinned (fy d)).

(** The edges that leave [name] when every value of the adjacency
    object is an array. *)
Definition kept (props : list (string * JsValue)) (name : string)
  : list Edge :=
  match assoc name props with
  | Some (JArr items) =>
      (fun nb => {| source := JStr name; target := nb |})
      <$> List.filter (includes (keys props)) items
  | _ => []
  end.

End GraphRender.

(** ** Narration: [window.speechSynthesis] and [AudioUtils]

    The synthesiser is the browser's: it is modelled as the queue of
    utterances that the Web Speech API describes. *)

Module Speech.

Record Voice := {
  lang : string;
  name : string
}.

Record Utterance := {
  u_text : string;
  u_rate : Q;
  u_pitch : Q;
  u_volume : Q;
  u_voice : option Voice
}.

Inductive Call :=
| Cancel
| Speak (u : Utterance).

(** The synthesiser: its voices, the queue of utterances (the first one
    is being spoken) and the calls it has received, oldest first. *)
Record Synth := {
  voices : list Voice;
  queue : list Utterance;
  calls : list Call
}.

(** [speechSynthesis.cancel()]: every utterance leaves the queue. *)
Definition cancel (s : Synth) : Synth :=
  {| voices := voices s; queue := []; calls := calls s ++ [Cancel] |}.

(** [speechSynthesis.speak(u)]: [u] joins the end of the queue. *)
Definition enqueue (u : Utterance) (s : Synth) : Synth :=
  {| voices := voices s; queue := queue s ++ [u];
     calls := calls s ++ [Speak u] |}.

(** [name.includes(part)] *)
Definition includes (part name : string) : bool :=
  match String.index 0 part name with
  | Some _ => true
  | None => false
  end.

Definition preferredVoice (vs : list Voice) : option Voice :=
  match List.find (fun v => String.prefix "en" (lang v)
                            && includes "Google" (name v)) vs with
  | Some v => Some v
  | None =>
      match List.find (fun v => String.prefix "en" (lang v)) vs with
      | Some v => Some v
      | None => List.head vs
      end
  end.

Definition speak_rate (text : string) (rate : Q) (s : Synth) : Synth :=
  let s := cancel s in
  let utterance :=
    {| u_text := text; u_rate := rate; u_pitch := 1; u_volume := 1;
       u_voice := preferredVoice (voices s) |} in
  enqueue utterance s.

(** [speak(text)], with the default rate *)
Definition speak (text : string) (s : Synth) : Synth := speak_rate text 1 s.

Definition stopSpeaking (s : Synth) : Synth := cancel s.

Definition isSpeaking (s : Synth) : bool :=
  match queue s with [] => false | _ => true end.

(** Every [Speak] in a run of calls comes directly after a [Cancel];
    [after_cancel] tells whether the call before the run was one. *)
Fixpoint guarded (after_cancel : bool) (cs : list Call) : bool :=
  match cs with
  | [] => true
  | Cancel :: rest => guarded true rest
  | Speak _ :: rest => after_cancel && guarded false rest
  end.

Definition cancel_before_speak (cs : list Call) : bool := guarded false cs.

End Speech.

(** ** The playback controller *)

Module Playback.
Import Speech.

Record AlgorithmStep := {
  step : Z;
  description : string;
  code : string;
  explanation : string
}.

(** A live interval: its id, its delay, and the [currentStep] that the
    [handleNext] it calls has closed over. *)
Record Interval := {
  iv_id : nat;
  iv_delay : Z;
  iv_closure : Z
}.

(** The controller together with what it acts on: the step index held
    by the hosting page, the browser's intervals and the synthesiser. *)
Record World := {
  currentStep : Z;
  isPlaying : bool;
  playbackSpeed : Z;
  intervalRef : option nat;
  intervals : list Interval;
  next_id : nat;
  effect_deps : option (bool * Z * Z);
  synth : Synth
}.

Definition deps (w : World) : bool * Z * Z :=
  (isPlaying w, currentStep w, playbackSpeed w).

Definition onStepChange (n : Z) (w : World) : World :=
  {| currentStep := n; isPlaying := isPlaying w;
     playbackSpeed := playbackSpeed w; intervalRef := intervalRef w;
     intervals := intervals w; next_id := next_id w;
     effect_deps := effect_deps w; synth := synth w |}.

Definition setIsPlaying (b : bool) (w : World) : World :=
  {| currentStep := currentStep w; isPlaying := b;
     playbackSpeed := playbackSpeed w; intervalRef := intervalRef w;
     intervals := intervals w; next_id := next_id w;
     effect_deps := effect_deps w; synth := synth w |}.

Definition setPlaybackSpeed (ms : Z) (w : World) : World :=
  {| currentStep := currentStep w; isPlaying := isPlaying w;
     playbackSpeed := ms; intervalRef := intervalRef w;
     intervals := intervals w; next_id := next_id w;
     effect_deps := effect_deps w; synth := synth w |}.

Definition with_synth (f : Synth -> Synth) (w : World) : World :=
  {| currentStep := currentStep w; isPlaying := isPlaying w;
     playbackSpeed := playbackSpeed w; intervalRef := intervalRef w;
     intervals := intervals w; next_id := next_id w;
     effect_deps := effect_deps w; synth := f (synth w) |}.

(** [clearInterval(id)] *)
Definition clearInterval (id : nat) (w : World) : World :=
  {| currentStep := currentStep w; isPlaying := isPlaying w;
     playbackSpeed := playbackSpeed w; intervalRef := intervalRef w;
     intervals := List.filter (fun t => negb (iv_id t =? id)%nat) (intervals w);
     next_id := next_id w;
     effect_deps := effect_deps w; synth := synth w |}.

(** [intervalRef.current = setInterval(() => handleNext(), delay)] *)
Definition setInterval (delay : Z) (w : World) : World :=
  {| currentStep := currentStep w; isPlaying := isPlaying w;
     playbackSpeed := playbackSpeed w;
     intervalRef := Some (next_id w);
     intervals := intervals w
                  ++ [{| iv_id := next_id w; iv_delay := delay;
                         iv_closure := currentStep w |}];
     next_id := S (next_id w);
     effect_deps := effect_deps w; synth := synth w |}.

(** [if (intervalRef.current) clearInterval(intervalRef.current)];
    interval ids are positive, [0] would be falsy. *)
Definition clear_ref (w : World) : World :=
  match intervalRef w with
  | Some id => if (id =? 0)%nat then w else clearInterval id w
  | None => w
  end.

Section Steps.
Variable steps : list AlgorithmStep.

(** [steps.length - 1] *)
Definition last : Z := Z.of_nat (List.length steps) - 1.

(** [steps[n]] *)
Definition step_at (n : Z) : option AlgorithmStep :=
  if (n <? 0)%Z then None else steps !! Z.to_nat n.

Definition narrate (n : Z) (w : World) : World :=
  match step_at n with
  | Some s => with_synth (speak (description s)) w
  | None => w
  end.

Definition handlePlay (w : World) : World :=
  (if (currentStep w >=? last)%Z then onStepChange 0 w else w)
    |> setIsPlaying true.

Definition handlePause (w : World) : World :=
  w |> setIsPlaying false |> clear_ref |> with_synth stopSpeaking.

(** [handleNext] as created by the render that saw [seen] as
    [currentStep]. *)
Definition handleNext_of (seen : Z) (w : World) : World :=
  if (seen <? last)%Z then
    let newStep := (seen + 1)%Z in
    w |> onStepChange newStep |> narrate newStep
  else w.

Definition handleNext (w : World) : World :=
  handleNext_of (currentStep w) w.

Definition handlePrevious (w : World) : World :=
  if (currentStep w >? 0)%Z then
    let newStep := (currentStep w - 1)%Z in
    w |> onStepChange newStep |> narrate newStep
  else w.

Definition handleReset (w : World) : World :=
  w |> handlePause |> onStepChange 0 |> narrate 0.

(** The playback effect: its body and the cleanup it returns. *)
Definition effect (w : World) : World :=
  if isPlaying w && (currentStep w <? last)%Z then
    setInterval (playbackSpeed w) w
  else if (currentStep w >=? last)%Z then setIsPlaying false w
  else w.

Definition cleanup (w : World) : World := clear_ref w.

Definition ran (d : bool * Z * Z) (w : World) : World :=
  {| currentStep := currentStep w; isPlaying := isPlaying w;
     playbackSpeed := playbackSpeed w; intervalRef := intervalRef w;
     intervals := intervals w; next_id := next_id w;
     effect_deps := Some d; synth := synth w |}.

(** One render and commit: the effect runs on mount and whenever
    [isPlaying], [currentStep] or [playbackSpeed] differ from the
    values of its previous run, after that run's cleanup. *)
Definition commit (w : World) : World :=
  match effect_deps w with
  | None => effect (ran (deps w) w)
  | Some d =>
      if decide (d = deps w) then w
      else effect (ran (deps w) (cleanup w))
  end.

(** Renders follow one another while state keeps changing. *)
Fixpoint rerender (fuel : nat) (w : World) : World :=
  match fuel with
  | O => w
  | S n =>
      if decide (effect_deps w = Some (deps w)) then w
      else rerender n (commit w)
  end.

Definition settle (w : World) : World := rerender 3 w.

Definition settled (w : World) : Prop := effect_deps w = Some (deps w).

Definition initial (voices : list Voice) : World :=
  {| currentStep := 0; isPlaying := false; playbackSpeed := 1000;
     intervalRef := None; intervals := []; next_id := 1;
     effect_deps := None;
     synth := {| voices := voices; queue := []; calls := [] |} |}.

Definition mounted (voices : list Voice) : World :=
  settle (initial voices).

(** *** What the user and the browser can do *)

(** The play/pause button *)
Definition play (w : World) : World :=
  settle (if isPlaying w then handlePause w else handlePlay w).

(** The next button, disabled on the last step *)
Definition next (w : World) : World :=
  if decide (currentStep w = last) then w else settle (handleNext w).

(** The previous button, disabled on the first step *)
Definition previous (w : World) : World :=
  if decide (currentStep w = 0%Z) then w else settle (handlePrevious w).

Definition reset (w : World) : World := settle (handleReset w).

(** A button of the step list *)
Definition select (index : nat) (w : World) : World :=
  if decide (index < List.length steps)%nat
  then settle (onStepChange (Z.of_nat index) w)
  else w.

(** The speed slider, disabled while playing *)
Definition speed (ms : Z) (w : World) : World :=
  if isPlaying w then w else settle (setPlaybackSpeed ms w).

(** The oldest live interval fires. *)
Definition tick (w : World) : World :=
  match intervals w with
  | [] => w
  | t :: _ => settle (handleNext_of (iv_closure t) w)
  end.

(** The component goes away: both cleanups run. *)
Definition unmount (w : World) : World :=
  w |> cleanup |> clear_ref |> with_synth stopSpeaking.

Inductive Event :=
| Play
| Next
| Previous
| Reset
| Select (index : nat)
| Speed (ms : Z)
| Tick.

Definition fire (w : World) (ev : Event) : World :=
  match ev with
  | Play => play w
  | Next => next w
  | Previous => previous w
  | Reset => reset w
  | Select index => select index w
  | Speed ms => speed ms w
  | Tick => tick w
  end.

(** The world after a sequence of events, oldest first. *)
Definition run (evs : list Event) (w : World) : World :=
  fold_left fire evs w.

End Steps.

End Playback.

(** ** The payloads of the specification's scenarios *)

Module Samples.
Import ListRender.

Definition n1 : ListNode := {| id := "n1"; value := 1 |}.
Definition n2 : ListNode := {| id := "n2"; value := 2 |}.
Definition n3 : ListNode := {| id := "n3"; value := 3 |}.

(** [n1 -> n2 -> n3], head [n1], tail [n3] *)
Definition open_list : ListData :=
  {| nodes := Some [n1; n2; n3];
     connections := Some [ {| from := "n1"; to := "n2" |};
                           {| from := "n2"; to := "n3" |} ];
     head := Some "n1";
     tail := Some "n3";
     meta_algorithm := None |}.

(** The same list with [n3 -> n1] added *)
Definition closed_list : ListData :=
  {| nodes := Some [n1; n2; n3];
     connections := Some [ {| from := "n1"; to := "n2" |};
                           {| from := "n2"; to := "n3" |};
                           {| from := "n3"; to := "n1" |} ];
     head := Some "n1";
     tail := Some "n3";
     meta_algorithm := None |}.

(** [[4,2,3,2,1]] *)
Definition five_numbers : JsValue :=
  JArr [JNum 4; JNum 2; JNum 3; JNum 2; JNum 1].

(** [{A: ["B", "Z"], B: ["A"]}]: [Z] is not a declared node. *)
Definition dangling_graph : list (string * JsValue) :=
  [ ("A", JArr [JStr "B"; JStr "Z"]); ("B", JArr [JStr "A"]) ].

End Samples.

(** ** Shapes of the controller's world, for the playback properties *)

Module PlaybackShapes.
Import Speech Playback.

(** What leaves the cleanup of the playback effect: no live interval
    besides the one [intervalRef] names. *)
Definition owned (w : World) : Prop :=
  intervals (clear_ref w) = [] /\ (0 < next_id w)%nat.

(** Settled and not playing on step [c], without interval. *)
Definition idle_at (c : Z) (w : World) : Prop :=
  currentStep w = c /\ isPlaying w = false /\ intervals w = []
  /\ settled w /\ (0 < next_id w)%nat.

(** Settled and playing on step [c], with its one interval. *)
Definition running_at (steps : list AlgorithmStep) (c : Z) (w : World)
  : Prop :=
  currentStep w = c /\ isPlaying w = true /\ (c < last steps)%Z
  /\ settled w /\ (0 < next_id w)%nat
  /\ exists id, id <> 0%nat /\ intervalRef w = Some id
       /\ intervals w = [{| iv_id := id; iv_delay := playbackSpeed w;
                            iv_closure := c |}].

(** No interval has been started since mount. *)
Definition never_started (w : World) : Prop :=
  idle_at 0 w /\ next_id w = 1%nat /\ intervalRef w = None.

(** The world on which the effect body runs in a pending render. *)
Definition cleaned (w : World) : World := ran (deps w) (cleanup w).

(** Calls so far are cancel-before-speak, at most one utterance is
    queued. *)
Definition exclusive (sy : Synth) : Prop :=
  cancel_before_speak (calls sy) = true /\ (List.length (queue sy) <= 1)%nat.

(** What one handler adds to the calls of the synthesiser. *)
Definition issues (h : World -> World) : Prop :=
  forall w, exists issued,
    calls (synth (h w)) = calls (synth w) ++ issued
    /\ cancel_before_speak issued = true
    /\ forall u, Speak u ∈ issued -> queue (synth (h w)) = [u].

End PlaybackShapes.

(** ** The controller's invariant *)

Module PlaybackInvariant.
Import Speech Playback PlaybackShapes.

(** What every world reached from mount looks like: the effect has run
    on the current state, the step is within bounds, and there is an
    interval exactly when the controller plays, created by the current
    render. *)
Definition consistent (steps : list AlgorithmStep) (w : World) : Prop :=
  (idle_at (currentStep w) w \/ running_at steps (currentStep w) w)
  /\ (0 <= currentStep w <= Z.max 0 (last steps))%Z.

End PlaybackInvariant.

(** ** A run of three steps, for the controller's scenarios *)

Module PlaybackSamples.
Import Playback.

Definition three_steps : list AlgorithmStep :=
  [ {| step := 1; description := "Compare"; code := "if a[0] > a[1]";
       explanation := "The first two are compared." |};
    {| step := 2; description := "Swap"; code := "swap(a, 0, 1)";
       explanation := "They are out of order." |};
    {| step := 3; description := "Done"; code := "return a";
       explanation := "The array is sorted." |} ].

End PlaybackSamples.

(** ** The pointer elements of the linked-list view *)

Module ListShapes.
Import D3 ListRender.

(** The classes of the arrows and of the head and tail markers. *)
Definition pointer_classes : list string :=
  ["linkedlist-arrow"; "head-pointer"; "tail-pointer"].

(** [name] is the id of one of [nodes]. *)
Definition declared (nodes : list ListNode) (name : string) : bool :=
  existsb (fun n => String.eqb (id n) name) nodes.

(** The connections that [connections.forEach] draws: both ends are
    found among the nodes. *)
Definition drawn (nodes : list ListNode) (connections : list Connection)
  : list Connection :=
  List.filter (fun c => declared nodes (from c) && declared nodes (to c))
              connections.

End ListShapes.

(** ** The tree renderer *)

Module TreeRender.
Import D3.






End TreeRender.

(** ** A drag gesture on a circle of the graph *)

Module GraphGesture.
Import GraphRender.

(** [alphaMin], d3's default *)
Definition alphaMin : Q := 1 # 1000.

(** What a tick does to one node once the forces have run: [p] is where
    they would leave it, and a coordinate that is pinned is put on its pin
    instead. *)
Definition tick_node (p : Q * Q) (d : GraphNode) : GraphNode :=
  {| id := id d;
     x := match fx d with PinAt q => q | _ => p.1 end;
     y := match fy d with PinAt q => q | _ => p.2 end;
     fx := fx d; fy := fy d;
     visited := visited d; current := current d |}.

(** [alpha += (alphaTarget - alpha) * alphaDecay], and the timer stops
    once [alpha] is below [alphaMin]. *)
Definition cool (s : Simulation) : Simulation :=
  let a := (alpha s + (alphaTarget s - alpha s) * alphaDecay s)%Q in
  {| alpha := a; alphaTarget := alphaTarget s; alphaDecay := alphaDecay s;
     velocityDecay := velocityDecay s;
     running := Qle_bool alphaMin a |}.

(** One tick of a running simulation.  The forces are d3's: [free j] is
    the position they give node [j], any position at all. *)
Definition tick (free : nat -> Q * Q) (g : Graph) : Graph :=
  if running (simulation g) then
    {| nodes := imap (fun j d => tick_node (free j) d) (nodes g);
       edges := edges g; links := links g;
       simulation := cool (simulation g);
       lines := lines g; circles := circles g; labels := labels g;
       step_text := step_text g |}
  else g.

(** What happens between the start and the end of a drag: the pointer
    moves, the simulation ticks. *)
Inductive Occurrence :=
| Pointer (ex ey : Q)
| Tick (free : nat -> Q * Q).

Definition occur (i : nat) (g : Graph) (o : Occurrence) : Graph :=
  match o with
  | Pointer ex ey => drag ex ey i g
  | Tick free => tick free g
  end.

(** The gesture up to its end, on node [i], while no other gesture is
    active. *)
Definition dragging (i : nat) (os : list Occurrence) (g : Graph) : Graph :=
  fold_left (occur i) os (drag_start false i g).

(** Where the pointer was last, [p] before it has moved. *)
Definition pointer (os : list Occurrence) (p : Q * Q) : Q * Q :=
  fold_left (fun p o => match o with
                        | Pointer ex ey => (ex, ey)
                        | Tick _ => p
                        end) os p.

(** What holds at every moment of a gesture on node [i] that found the
    graph as [g], with the pointer last at [p]: the target of the
    simulation is 0.3, node [i] is pinned at [p], and every other node has
    the pins it had. *)
Definition held (i : nat) (g : Graph) (p : Q * Q) (g1 : Graph) : Prop :=
  alphaTarget (simulation g1) = (3 # 10)%Q
  /\ forall j d, nodes g !! j = Some d ->
       exists d1, nodes g1 !! j = Some d1 /\ id d1 = id d
         /\ if decide (j = i)
            then fx d1 = PinAt p.1 /\ fy d1 = PinAt p.2
            else fx d1 = fx d /\ fy d1 = fy d.

(** Two nodes at rest, for the scenario of the gesture *)
Definition pair_at_rest : Graph :=
  {| nodes := [ {| id := JStr "A"; x := 100; y := 50;
                   fx := PinUndefined; fy := PinUndefined;
                   visited := JUndefined; current := JUndefined |};
                {| id := JStr "B"; x := 200; y := 150;
                   fx := PinUndefined; fy := PinUndefined;
                   visited := JUndefined; current := JUndefined |} ];
     edges := [ {| source := JStr "A"; target := JStr "B" |} ];
     links := [ {| l_source := NodeRef 0; l_target := NodeRef 1 |} ];
     simulation := {| alpha := 0; alphaTarget := 0; alphaDecay := 9 # 10;
                      velocityDecay := 2 # 10; running := false |};
     lines := []; circles := []; labels := []; step_text := [] |}.

End GraphGesture.

(** * Properties *)

(** ** Selections in normal form *)

Section SelectionFacts.
Import D3.
Context {D : Type}.
Implicit Types (ds : list D) (F : D -> nat -> Elem).

Lemma build_lookup ds F i :
  build ds F !! i = (fun d => (d, F d i)) <$> ds !! i.
Proof. unfold build. by rewrite list_lookup_imap. Qed.

Lemma build_ext ds F (s : Selection D) :
  (forall i, s !! i = (fun d => (d, F d i)) <$> ds !! i) -> s = build ds F.
Proof.
  intros H. apply list_eq. intros i. by rewrite H, build_lookup.
Qed.

Lemma enter_append_build ds t :
  enter_append ds t = build ds (fun _ _ => created t).
Proof.
  apply build_ext. intros i. unfold enter_append.
  by rewrite list_lookup_fmap.
Qed.

Lemma group_build : group = build [tt] (fun _ _ => created "g").
Proof. reflexivity. Qed.

Lemma attr_build name f ds F :
  attr name f (build ds F)
  = build ds (fun d i => set_attr name (f d i) (F d i)).
Proof.
  apply build_ext. intros i. unfold attr.
  rewrite list_lookup_imap, build_lookup. by destruct (ds !! i).
Qed.

Lemma attr_c_build name v ds F :
  attr_c name v (build ds F) = build ds (fun d i => set_attr name v (F d i)).
Proof. apply attr_build. Qed.

Lemma txt_build f ds F :
  txt f (build ds F) = build ds (fun d i => set_text (f d i) (F d i)).
Proof.
  apply build_ext. intros i. unfold txt.
  rewrite list_lookup_imap, build_lookup. by destruct (ds !! i).
Qed.

Lemma append_build t ds F :
  append t (build ds F) = build ds (fun _ _ => created t).
Proof.
  apply build_ext. intros i. unfold append.
  rewrite list_lookup_fmap, build_lookup. by destruct (ds !! i).
Qed.

Lemma transition_build ms ds F :
  transition ms (build ds F)
  = build ds (fun d i =>
      with_transitions
        (fun ts => ts ++ [{| tr_duration := ms; tr_attrs := ∅ |}]) (F d i)).
Proof.
  apply build_ext. intros i. unfold transition.
  rewrite list_lookup_fmap, build_lookup. by destruct (ds !! i).
Qed.

Lemma tattr_build name f ds F :
  tattr name f (build ds F)
  = build ds (fun d i => with_transitions (retarget name (f d i)) (F d i)).
Proof.
  apply build_ext. intros i. unfold tattr.
  rewrite list_lookup_imap, build_lookup. by destruct (ds !! i).
Qed.

Lemma elems_build ds F : elems (build ds F) = imap (fun i d => F d i) ds.
Proof.
  apply list_eq. intros i. unfold elems.
  rewrite list_lookup_fmap, build_lookup, list_lookup_imap.
  by destruct (ds !! i).
Qed.

Lemma filter_imap_all (p : Elem -> bool) (G : nat -> D -> Elem) ds :
  (forall i d, p (G i d) = true) -> List.filter p (imap G ds) = imap G ds.
Proof.
  intros H. revert G H. induction ds as [|d ds IH]; intros G H; [done|].
  cbn. rewrite H. f_equal. apply IH. intros i d'. apply H.
Qed.

Lemma filter_imap_none (p : Elem -> bool) (G : nat -> D -> Elem) ds :
  (forall i d, p (G i d) = false) -> List.filter p (imap G ds) = [].
Proof.
  intros H. revert G H. induction ds as [|d ds IH]; intros G H; [done|].
  cbn. rewrite H. apply IH. intros i d'. apply H.
Qed.

End SelectionFacts.

Lemma filter_concat_none {A} (p : A -> bool) (ls : list (list A)) :
  Forall (fun l => List.filter p l = []) ls -> List.filter p (concat ls) = [].
Proof.
  induction 1 as [|l ls Hl _ IH]; [done|].
  cbn. by rewrite List.filter_app, Hl, IH.
Qed.

Ltac d3_normalise :=
  repeat first
    [ rewrite enter_append_build | rewrite group_build
    | rewrite attr_c_build | rewrite attr_build | rewrite txt_build
    | rewrite append_build | rewrite transition_build | rewrite tattr_build
    | rewrite elems_build ].

(** Decide, chain by chain, whether a class selects all or none of it. *)
Ltac d3_select :=
  unfold D3.select_class;
  rewrite ?List.filter_app;
  repeat first
    [ rewrite filter_imap_none by (intros; vm_compute; reflexivity)
    | rewrite filter_imap_all by (intros; vm_compute; reflexivity) ];
  rewrite ?app_nil_l, ?app_nil_r.


(** ** The array view *)

Section ArrayFacts.
Import D3 ArrayRender.

Lemma elements_of_length array iw ih :
  List.length (elements_of array iw ih) = List.length array.
Proof. unfold elements_of. apply length_imap. Qed.

(** The class [bar] selects exactly the chain built by [bars_of]. *)
Lemma bars_of_scene array w h m s speed :
  bars (renderArrayVisualization array w h m s speed)
  = elems (bars_of (elements_of array (w - left m - right m)%Q
                                      (h - top m - bottom m)%Q)
                   (h - top m - bottom m)%Q s speed).
Proof.
  unfold renderArrayVisualization, bars, bars_of, valueLabels_of,
    indexLabels_of.
  cbv zeta. d3_normalise. d3_select. reflexivity.
Qed.

(** Fill and border width of every bar, as appended and once its
    transition has run. *)
Lemma bars_of_attrs elements ih s speed :
  exists F : nat -> Element -> Elem,
    elems (bars_of elements ih s speed) = imap F elements
    /\ forall i d,
        let fill :=
          if (Z.of_nat i =? s)%Z then AStr "var(--current-color)"
          else if (Z.of_nat i <? s)%Z then AStr "var(--checked-color)"
          else AStr "var(--unchecked-color)" in
        let border := if (Z.of_nat i =? s)%Z then ANum 4 else ANum 2 in
        attrs (F i d) !! "fill" = Some fill
        /\ attrs (F i d) !! "stroke-width" = Some border
        /\ attrs (settled (F i d)) !! "fill" = Some fill
        /\ attrs (settled (F i d)) !! "stroke-width" = Some border.
Proof.
  unfold bars_of. d3_normalise.
  eexists. split; [reflexivity|].
  intros i d. vm_compute. repeat split; reflexivity.
Qed.

End ArrayFacts.

(** C1. Rendering an array of length [n] draws exactly [n] bars, and for
    every step index [s] (so in particular for [0 <= s < n]) bar [i] is
    filled with the current colour iff [i = s], with the checked colour
    iff [i < s] and with the pending colour iff [i > s]; the current bar
    alone has border width 4, the others 2.  This holds for the bars as
    appended and again once their transition has ended. *)
Theorem C1_array_bars_coloured_by_step
    (array : list Q) (w h : Q) (m : Margin) (s speed : Z) :
  let shown :=
    ArrayRender.bars (ArrayRender.renderArrayVisualization array w h m s speed) in
  List.length shown = List.length array
  /\ forall i, (i < List.length array)%nat ->
       exists e, shown !! i = Some e
         /\ forall e', e' = e \/ e' = D3.settled e ->
              (D3.attrs e' !! "fill" = Some (D3.AStr "var(--current-color)")
                 <-> Z.of_nat i = s)
              /\ (D3.attrs e' !! "fill" = Some (D3.AStr "var(--checked-color)")
                    <-> (Z.of_nat i < s)%Z)
              /\ (D3.attrs e' !! "fill" = Some (D3.AStr "var(--unchecked-color)")
                    <-> (s < Z.of_nat i)%Z)
              /\ D3.attrs e' !! "stroke-width"
                 = Some (D3.ANum (if decide (Z.of_nat i = s) then 4 else 2)).
Proof.
  cbv zeta. rewrite bars_of_scene.
  destruct (bars_of_attrs
              (ArrayRender.elements_of array (w - left m - right m)%Q
                                             (h - top m - bottom m)%Q)
              (h - top m - bottom m)%Q s speed) as (F & -> & HF).
  split.
  - by rewrite length_imap, elements_of_length.
  - intros i Hi.
    destruct (lookup_lt_is_Some_2
                (ArrayRender.elements_of array (w - left m - right m)%Q
                                               (h - top m - bottom m)%Q) i)
      as [d Hd].
    { by rewrite elements_of_length. }
    exists (F i d). split.
    { by rewrite list_lookup_imap, Hd. }
    destruct (HF i d) as (Hf & Hb & Hf' & Hb').
    assert (forall a : D3.AttrVal,
      a = (if (Z.of_nat i =? s)%Z then D3.AStr "var(--current-color)"
           else if (Z.of_nat i <? s)%Z then D3.AStr "var(--checked-color)"
           else D3.AStr "var(--unchecked-color)") ->
      (Some a = Some (D3.AStr "var(--current-color)") <-> Z.of_nat i = s)
      /\ (Some a = Some (D3.AStr "var(--checked-color)") <-> (Z.of_nat i < s)%Z)
      /\ (Some a = Some (D3.AStr "var(--unchecked-color)") <-> (s < Z.of_nat i)%Z))
      as Hcol.
    { intros a ->.
      destruct (Z.eqb_spec (Z.of_nat i) s), (Z.ltb_spec (Z.of_nat i) s);
        repeat split; intros; try lia; try discriminate; try reflexivity. }
    assert ((if (Z.of_nat i =? s)%Z then D3.ANum 4 else D3.ANum 2)
            = D3.ANum (if decide (Z.of_nat i = s) then 4 else 2)) as Hw.
    { destruct (Z.eqb_spec (Z.of_nat i) s); case_decide; done. }
    intros e' [-> | ->].
    + rewrite Hf, Hb, Hw. destruct (Hcol _ eq_refl) as (? & ? & ?). done.
    + rewrite Hf', Hb', Hw. destruct (Hcol _ eq_refl) as (? & ? & ?). done.
Qed.

(** ** The linked-list view *)

Section ListFacts.
Import D3 ListRender.

Lemma select_class_app c (a b : list Elem) :
  select_class c (a ++ b) = select_class c a ++ select_class c b.
Proof. apply List.filter_app. Qed.

Lemma select_class_concat_none c (ls : list (list Elem)) :
  Forall (fun l => select_class c l = []) ls ->
  select_class c (concat ls) = [].
Proof. apply filter_concat_none. Qed.

Lemma select_class_concat_imap {A} c (f : nat -> A -> list Elem)
    (b : nat -> A -> Elem) (l : list A) :
  (forall i a, select_class c (f i a) = [b i a]) ->
  select_class c (concat (imap f l)) = imap b l.
Proof.
  revert f b. induction l as [|a l IH]; intros f b H; [done|].
  change (concat (imap f (a :: l)))
    with (f 0%nat a ++ concat (imap (f ∘ S) l)).
  rewrite select_class_app, H.
  change (imap b (a :: l)) with (b 0%nat a :: imap (b ∘ S) l).
  cbn [app]. f_equal. apply IH. intros i a'. apply H.
Qed.

Lemma Forall_imap_intro {A B} (P : B -> Prop) (f : nat -> A -> B) (l : list A) :
  (forall i a, P (f i a)) -> Forall P (imap f l).
Proof.
  revert f. induction l as [|a l IH]; intros f H; cbn; constructor.
  - apply H.
  - apply IH. intros i a'. apply H.
Qed.

Ltac each_watched H :=
  unfold watched in H;
  repeat (apply elem_of_cons in H as [-> | H]);
  [ .. | by apply elem_of_nil in H ].

Ltac no_match := d3_normalise; d3_select; reflexivity.

Variable F0 : unit -> nat -> Elem.
Local Abbreviation g := (build [tt] F0).

Lemma select_marker c name colour :
  c ∈ watched -> select_class c (marker g name colour) = [].
Proof. intros H. unfold marker. each_watched H; no_match. Qed.

Lemma select_arrow_elems c ps conn :
  c ∈ watched -> select_class c (arrow_elems g ps conn) = [].
Proof.
  intros H. unfold arrow_elems.
  destruct (find_node ps (from conn)), (find_node ps (to conn)); try done.
  rewrite select_class_app, select_marker by done.
  each_watched H; no_match.
Qed.

Lemma select_head_elems c ps hd :
  c ∈ watched -> select_class c (head_elems g ps hd) = [].
Proof.
  intros H. unfold head_elems.
  destruct (truthy_str hd); [|done].
  destruct (find_node ps (default "" hd)); [|done].
  rewrite !select_class_app, select_marker by done.
  each_watched H; no_match.
Qed.

Lemma select_tail_elems c ps tl :
  c ∈ watched -> select_class c (tail_elems g ps tl) = [].
Proof.
  intros H. unfold tail_elems.
  destruct (truthy_str tl); [|done].
  destruct (find_node ps (default "" tl)); [|done].
  each_watched H; no_match.
Qed.

Lemma select_connection_line c ih y index node :
  c ∈ watched -> select_class c (connection_line g ih y index node) = [].
Proof. intros H. unfold connection_line. each_watched H; no_match. Qed.

Lemma select_node_elems_other c ps s :
  c ∈ ["circular-indicator"; "array-box"] ->
  select_class c (node_elems g ps s) = [].
Proof.
  intros H. unfold node_elems.
  repeat (apply elem_of_cons in H as [-> | H]);
    [ no_match | no_match | by apply elem_of_nil in H ].
Qed.

Lemma select_array_cell_other c y s index node :
  c ∈ ["circular-indicator"; "node-box"] ->
  select_class c (array_cell g y s index node) = [].
Proof.
  intros H. unfold array_cell.
  repeat (apply elem_of_cons in H as [-> | H]);
    [ no_match | no_match | by apply elem_of_nil in H ].
Qed.

Lemma select_circular_indicator iw :
  select_class "circular-indicator" (circular_indicator g iw)
  = circular_indicator g iw.
Proof. unfold circular_indicator. no_match. Qed.

Lemma select_circular_indicator_other c iw :
  c ∈ ["array-box"; "node-box"] ->
  select_class c (circular_indicator g iw) = [].
Proof.
  intros H. unfold circular_indicator.
  repeat (apply elem_of_cons in H as [-> | H]);
    [ no_match | no_match | by apply elem_of_nil in H ].
Qed.

Lemma length_circular_indicator iw :
  List.length (circular_indicator g iw) = 1%nat.
Proof. unfold circular_indicator. d3_normalise. reflexivity. Qed.

End ListFacts.

Section ListSceneFacts.
Import D3 ListRender.

Ltac in_list := repeat constructor.

Ltac split_scene :=
  unfold renderLinkedListVisualization;
  cbn [nodes connections head tail meta_algorithm];
  cbv zeta;
  rewrite group_build, attr_c_build;
  rewrite !select_class_app.

Ltac drop_helpers :=
  rewrite ?select_head_elems by in_list;
  rewrite ?select_tail_elems by in_list;
  rewrite ?select_node_elems_other by in_list;
  rewrite ?(select_class_concat_none _ (_ <$> _))
    by (apply Forall_fmap, Forall_true; intros ?;
        apply select_arrow_elems; in_list);
  rewrite ?(select_class_concat_none _ (imap (connection_line _ _ _) _))
    by (apply Forall_imap_intro; intros ? ?;
        apply select_connection_line; in_list);
  rewrite ?(select_class_concat_none _ (imap (array_cell _ _ _) _))
    by (apply Forall_imap_intro; intros ? ?;
        apply select_array_cell_other; in_list).

(** The indicator is the only element of its class, and it is drawn
    exactly when the flag is set. *)
Lemma circular_indicators_of_scene ns conns hd tl meta w h m s :
  List.length
    (circular_indicators
       (renderLinkedListVisualization
          (Some {| nodes := Some ns; connections := conns; head := hd;
                   tail := tl; meta_algorithm := meta |}) w h m s))
  = if isCircular (default [] conns) hd tl then 1%nat else 0%nat.
Proof.
  unfold circular_indicators. split_scene. drop_helpers.
  destruct (isCircular (default [] conns) hd tl).
  - rewrite select_circular_indicator, !length_app,
      length_circular_indicator.
    d3_normalise. d3_select. reflexivity.
  - d3_normalise. d3_select. reflexivity.
Qed.

Lemma isCircular_spec (declared : list Connection) (hd tl : option string) :
  isCircular declared hd tl = true
  <-> exists c, c ∈ declared /\ tl = Some (from c) /\ hd = Some (to c).
Proof.
  unfold isCircular. rewrite existsb_exists. split.
  - intros (c & Hin & Hc). apply andb_prop in Hc as [Ht Hh].
    exists c. rewrite list_elem_of_In. split; [done|].
    unfold str_eq in Ht, Hh. destruct tl, hd; try discriminate.
    apply String.eqb_eq in Ht, Hh. by subst.
  - intros (c & Hin & -> & ->). exists c.
    rewrite <- list_elem_of_In. split; [done|].
    unfold str_eq. by rewrite !String.eqb_refl.
Qed.

(** What the strip's cell receives as [i]: every cell is appended to the
    single group on its own, so its fill is decided by [0] against the
    step, whatever the position of the node. *)
Lemma array_cell_box F0 y s :
  exists B : nat -> Positioned -> Elem,
    (forall index node,
        select_class "array-box" (array_cell (build [tt] F0) y s index node)
        = [B index node])
    /\ forall index node,
        attrs (B index node) !! "fill"
        = Some (if (0 =? s)%Z then AStr "#f59e0b"
                else if (0 <? s)%Z then AStr "#10b981"
                else AStr "#3b82f6").
Proof.
  unfold array_cell. d3_normalise.
  eexists (fun index node => _). split.
  - intros index node. d3_select. cbn [imap app]. reflexivity.
  - intros index node. vm_compute. reflexivity.
Qed.

Lemma array_boxes_of_scene ns conns hd tl meta w h m s :
  exists B : nat -> Positioned -> Elem,
    array_boxes
      (renderLinkedListVisualization
         (Some {| nodes := Some ns; connections := conns; head := hd;
                  tail := tl; meta_algorithm := meta |}) w h m s)
    = imap B (nodePositions_of ns (w - left m - right m)%Q
                                  (h - top m - bottom m)%Q)
    /\ forall index node,
        attrs (B index node) !! "fill"
        = Some (if (0 =? s)%Z then AStr "#f59e0b"
                else if (0 <? s)%Z then AStr "#10b981"
                else AStr "#3b82f6").
Proof.
  unfold array_boxes. split_scene. drop_helpers.
  match goal with
  | |- context [array_cell (build [tt] ?F) ?y s] =>
      destruct (array_cell_box F y s) as (B & HB & Hfill)
  end.
  exists B. split; [|done].
  rewrite (select_class_concat_imap _ _ B) by done.
  destruct (isCircular (default [] conns) hd tl).
  - rewrite select_circular_indicator_other by in_list.
    d3_normalise. d3_select. reflexivity.
  - d3_normalise. d3_select. reflexivity.
Qed.

End ListSceneFacts.

Section ListClaims.
Import D3 ListRender.

(** The boxes of the list nodes themselves are coloured by position. *)
Lemma node_boxes_of_scene ns conns hd tl meta w h m s :
  exists B : nat -> Positioned -> Elem,
    node_boxes
      (renderLinkedListVisualization
         (Some {| nodes := Some ns; connections := conns; head := hd;
                  tail := tl; meta_algorithm := meta |}) w h m s)
    = imap B (nodePositions_of ns (w - left m - right m)%Q
                                  (h - top m - bottom m)%Q)
    /\ forall i node,
        attrs (B i node) !! "fill"
        = Some (if (Z.of_nat i =? s)%Z then AStr "#f59e0b"
                else if (Z.of_nat i <? s)%Z then AStr "#10b981"
                else AStr "#3b82f6").
Proof.
  unfold node_boxes, renderLinkedListVisualization.
  cbn [nodes connections head tail meta_algorithm]. cbv zeta.
  rewrite group_build, attr_c_build.
  rewrite !select_class_app.
  rewrite ?select_head_elems by repeat constructor.
  rewrite ?select_tail_elems by repeat constructor.
  rewrite ?(select_class_concat_none _ (_ <$> _))
    by (apply Forall_fmap, Forall_true; intros ?;
        apply select_arrow_elems; repeat constructor).
  rewrite ?(select_class_concat_none _ (imap (connection_line _ _ _) _))
    by (apply Forall_imap_intro; intros ? ?;
        apply select_connection_line; repeat constructor).
  rewrite ?(select_class_concat_none _ (imap (array_cell _ _ _) _))
    by (apply Forall_imap_intro; intros ? ?;
        apply select_array_cell_other; repeat constructor).
  assert (select_class "node-box"
            (if isCircular (default [] conns) hd tl
             then circular_indicator
                    (build [()] (fun _ _ =>
                       set_attr "transform" (ATranslate (left m) (top m))
                                (created "g")))
                    (w - left m - right m)%Q
             else []) = []) as ->.
  { destruct (isCircular _ _ _); [|done].
    apply select_circular_indicator_other. repeat constructor. }
  unfold node_elems. d3_normalise. d3_select.
  eexists. split; [reflexivity|].
  intros i node. vm_compute. reflexivity.
Qed.

End ListClaims.

(** C6. For a linked-list payload (one that declares its nodes), the
    circular flag is set iff some declared connection goes from the tail
    to the head, and the scene holds one circularity indicator when the
    flag is set and none otherwise.  In the scenario [n1, n2, n3] with
    head [n1] and tail [n3], the connection [n3 -> n1] sets the flag and
    its absence clears it. *)
Theorem C6_circular_flag_and_indicator
    (ns : list ListRender.ListNode)
    (conns : option (list ListRender.Connection))
    (hd tl meta : option string) (w h : Q) (m : Margin) (s : Z) :
  let listData :=
    {| ListRender.nodes := Some ns; ListRender.connections := conns;
       ListRender.head := hd; ListRender.tail := tl;
       ListRender.meta_algorithm := meta |} in
  let declared := default [] conns in
  let flag := ListRender.isCircular declared hd tl in
  (flag = true
   <-> exists c, c ∈ declared
         /\ tl = Some (ListRender.from c) /\ hd = Some (ListRender.to c))
  /\ List.length
       (ListRender.circular_indicators
          (ListRender.renderLinkedListVisualization (Some listData) w h m s))
     = (if flag then 1%nat else 0%nat)
  /\ ListRender.isCircular
       (default [] (ListRender.connections Samples.closed_list))
       (ListRender.head Samples.closed_list)
       (ListRender.tail Samples.closed_list) = true
  /\ ListRender.isCircular
       (default [] (ListRender.connections Samples.open_list))
       (ListRender.head Samples.open_list)
       (ListRender.tail Samples.open_list) = false.
Proof.
  cbv zeta. split; [apply isCircular_spec|].
  split; [apply circular_indicators_of_scene|].
  split; reflexivity.
Qed.

(** C7 (the code departs from it). With three nodes at step 1 the list
    nodes are filled processed, current, pending by position, while all
    three cells of the array strip receive the processed fill: each cell
    is appended on its own, so its colour callback always sees index 0. *)
Theorem C7_array_strip_cells_ignore_position :
  let scene :=
    ListRender.renderLinkedListVisualization
      (Some Samples.closed_list) canvas_width canvas_height canvas_margin 1 in
  (fun e => D3.attrs e !! "fill") <$> ListRender.node_boxes scene
  = [ Some (D3.AStr "#10b981"); Some (D3.AStr "#f59e0b");
      Some (D3.AStr "#3b82f6") ]
  /\ (fun e => D3.attrs e !! "fill") <$> ListRender.array_boxes scene
     = [ Some (D3.AStr "#10b981"); Some (D3.AStr "#10b981");
         Some (D3.AStr "#10b981") ].
Proof. cbv zeta. split; vm_compute; reflexivity. Qed.

(** ** The graph view *)

Section GraphFacts.
Import GraphRender.

Lemma assoc_Some_elem k props v :
  assoc k props = Some v -> (k, v) ∈ props.
Proof.
  induction props as [|[k' v'] props IH]; cbn; [done|].
  destruct (String.eqb_spec k k') as [->|].
  - intros [= ->]. constructor.
  - intros H. constructor. by apply IH.
Qed.

Lemma assoc_of_key k props :
  k ∈ keys props -> exists v, assoc k props = Some v.
Proof.
  induction props as [|[k' v'] props IH]; cbn.
  - intros H. by apply elem_of_nil in H.
  - intros H. destruct (String.eqb_spec k k') as [->|Hne]; [eauto|].
    apply elem_of_cons in H as [H|H]; [done|]. by apply IH.
Qed.

Lemma strict_eq_JStr n v : strict_eq (JStr n) v = true <-> v = JStr n.
Proof.
  destruct v; cbn; try (split; [discriminate|congruence]).
  rewrite String.eqb_eq. split; congruence.
Qed.

Lemma includes_spec names v :
  includes names v = true <-> exists k, v = JStr k /\ k ∈ names.
Proof.
  unfold includes. rewrite existsb_exists. split.
  - intros (k & Hin & Heq). exists k.
    by rewrite <- strict_eq_JStr, list_elem_of_In.
  - intros (k & -> & Hin). exists k.
    by rewrite strict_eq_JStr, <- list_elem_of_In.
Qed.

Lemma edges_from_ok props name :
  Forall (fun kv => isArray kv.2 = true) props ->
  name ∈ keys props ->
  edges_from props (keys props) name = Ok (kept props name).
Proof.
  intros Hall Hin. destruct (assoc_of_key _ _ Hin) as [v Hv].
  pose proof (assoc_Some_elem _ _ _ Hv) as Hel.
  rewrite Forall_forall in Hall. specialize (Hall _ Hel). cbn in Hall.
  destruct v; try discriminate.
  unfold edges_from, kept, get. by rewrite Hv.
Qed.

Lemma collect_ok (f : string -> Result (list Edge))
    (k : string -> list Edge) (names : list string) :
  (forall n, n ∈ names -> f n = Ok (k n)) ->
  collect (f <$> names) = Ok (concat (k <$> names)).
Proof.
  induction names as [|n names IH]; intros H; [done|].
  cbn. rewrite (H n) by constructor. cbn.
  rewrite IH by (intros n' Hn'; apply H; by constructor). done.
Qed.

Lemma parse_adjacency props :
  Forall (fun kv => isArray kv.2 = true) props ->
  parse (JObj props)
  = Ok (JStr <$> keys props, concat (kept props <$> keys props)).
Proof.
  intros Hall. unfold parse.
  rewrite (collect_ok _ (kept props)); [done|].
  intros n Hn. by apply edges_from_ok.
Qed.

Lemma elem_of_kept_edges props a b :
  {| source := a; target := b |} ∈ concat (kept props <$> keys props)
  <-> exists name items k,
        a = JStr name /\ name ∈ keys props
        /\ assoc name props = Some (JArr items)
        /\ b ∈ items /\ b = JStr k /\ k ∈ keys props.
Proof.
  rewrite list_elem_of_In, in_concat. split.
  - intros (l & Hl & He). apply in_map_iff in Hl as (name & <- & Hname).
    unfold kept in He.
    destruct (assoc name props) as [[| | | | |items|]|] eqn:Hassoc;
      try done.
    apply in_map_iff in He as (nb & [= <- <-] & Hnb).
    apply filter_In in Hnb as [Hnb Hinc].
    apply includes_spec in Hinc as (k & -> & Hk).
    exists name, items, k.
    apply list_elem_of_In in Hk. rewrite !list_elem_of_In. done.
  - intros (name & items & k & -> & Hname & Hassoc & Hb & -> & Hk).
    exists (kept props name). split.
    + apply in_map_iff. exists name. by rewrite <- list_elem_of_In.
    + unfold kept. rewrite Hassoc. apply in_map_iff.
      exists (JStr k). split; [done|]. apply filter_In.
      rewrite <- list_elem_of_In. split; [done|].
      apply includes_spec. eauto.
Qed.

Lemma node_by_id_sound ids v i j :
  node_by_id ids v i = Some j ->
  exists d, ids !! (j - i)%nat = Some d
            /\ strict_eq d v = true /\ (i <= j)%nat.
Proof.
  revert i. induction ids as [|d ids IH]; intros i; cbn; [done|].
  destruct (node_by_id ids v (S i)) as [j'|] eqn:Hrest.
  - intros [= ->]. destruct (IH _ Hrest) as (d' & Hd' & Heq & Hle).
    exists d'. replace (j - i)%nat with (S (j - S i)) by lia.
    cbn. split; [done|]. split; [done|lia].
  - destruct (strict_eq d v) eqn:Heq; [|done].
    intros [= ->]. exists d. rewrite Nat.sub_diag. by cbn.
Qed.

Lemma node_by_id_complete ids v i :
  (exists d, d ∈ ids /\ strict_eq d v = true) ->
  exists j, node_by_id ids v i = Some j.
Proof.
  revert i. induction ids as [|d ids IH]; intros i (d' & Hin & Heq).
  - by apply elem_of_nil in Hin.
  - cbn. destruct (node_by_id ids v (S i)) as [j|] eqn:Hrest; [eauto|].
    apply elem_of_cons in Hin as [->|Hin].
    + rewrite Heq. eauto.
    + destruct (IH (S i)) as [j Hj]; [eauto|]. congruence.
Qed.

Lemma resolve_declared names k :
  k ∈ names ->
  exists i, resolve (JStr <$> names) (JStr k) = Ok (NodeRef i)
            /\ (JStr <$> names) !! i = Some (JStr k).
Proof.
  intros Hk. unfold resolve. cbn [typeof_object].
  destruct (node_by_id_complete (JStr <$> names) (JStr k) 0) as [j Hj].
  { exists (JStr k). split.
    - apply list_elem_of_fmap. eauto.
    - apply strict_eq_JStr. done. }
  rewrite Hj. exists j. split; [done|].
  destruct (node_by_id_sound _ _ _ _ Hj) as (d & Hd & Heq & _).
  rewrite Nat.sub_0_r in Hd. rewrite Hd. f_equal.
  apply list_elem_of_lookup_2 in Hd.
  apply list_elem_of_fmap in Hd as (n & -> & _).
  apply strict_eq_JStr in Heq. congruence.
Qed.

(** Every edge between declared names becomes a link between the two
    node objects. *)
Lemma initialize_links_declared names (es : list Edge) :
  Forall (fun e => exists a b, e = {| source := JStr a; target := JStr b |}
                               /\ a ∈ names /\ b ∈ names) es ->
  exists ls,
    initialize_links (JStr <$> names) es = Ok ls
    /\ Forall2 (fun e l =>
                  exists i j, l = {| l_source := NodeRef i;
                                     l_target := NodeRef j |}
                    /\ (JStr <$> names) !! i = Some (source e)
                    /\ (JStr <$> names) !! j = Some (target e)) es ls.
Proof.
  induction 1 as [|e es (a & b & -> & Ha & Hb) _ (ls & Hls & Hall)].
  - exists []. by split.
  - destruct (resolve_declared _ _ Ha) as (i & Hi & Hli).
    destruct (resolve_declared _ _ Hb) as (j & Hj & Hlj).
    exists ({| l_source := NodeRef i; l_target := NodeRef j |} :: ls).
    cbn [initialize_links source target].
    rewrite Hi. cbn [mbind Result_bind JS.bind].
    rewrite Hj. cbn [mbind Result_bind JS.bind index_of].
    rewrite Hls. cbn [mbind Result_bind JS.bind]. split; [done|].
    constructor; [|done]. exists i, j. by cbn.
Qed.

Lemma kept_edges_declared props :
  Forall (fun e => exists a b, e = {| source := JStr a; target := JStr b |}
                               /\ a ∈ keys props /\ b ∈ keys props)
         (concat (kept props <$> keys props)).
Proof.
  apply Forall_forall. intros [a b] He.
  apply elem_of_kept_edges in He
    as (name & items & k & -> & Hname & _ & _ & -> & Hk).
  eauto.
Qed.

Lemma place_ids cos sin PI iw ih ids :
  id <$> place cos sin PI iw ih ids = ids.
Proof.
  unfold place. apply list_eq. intros i.
  rewrite list_lookup_fmap, list_lookup_imap. by destruct (ids !! i).
Qed.

End GraphFacts.

(** C5. For an adjacency-form graph payload (an object whose values are
    arrays) rendering raises no error, and an edge [(a, b)] is drawn iff
    [a] is a declared node, [b] is listed among [a]'s neighbours and [b]
    is itself the name of a declared node; one line is drawn per such
    edge and both ends of every link are node objects of the layout.
    Neighbours that name no declared node are dropped. *)
Theorem C5_adjacency_edges_between_declared_nodes
    (cos sin : Q -> Q) (PI : Q) (props : list (string * JsValue))
    (w h : Q) (m : Margin) (s : Z) :
  Forall (fun kv => isArray kv.2 = true) props ->
  exists g,
    GraphRender.renderGraphVisualization cos sin PI (JObj props) w h m s = Ok g
    /\ (forall a b,
          {| GraphRender.source := a; GraphRender.target := b |}
            ∈ GraphRender.edges g
          <-> exists name items k,
                a = JStr name /\ name ∈ keys props
                /\ assoc name props = Some (JArr items)
                /\ b ∈ items /\ b = JStr k /\ k ∈ keys props)
    /\ List.length (GraphRender.lines g) = List.length (GraphRender.edges g)
    /\ Forall2
         (fun e l =>
            exists i j,
              l = {| GraphRender.l_source := GraphRender.NodeRef i;
                     GraphRender.l_target := GraphRender.NodeRef j |}
              /\ GraphRender.id <$> GraphRender.nodes g !! i
                 = Some (GraphRender.source e)
              /\ GraphRender.id <$> GraphRender.nodes g !! j
                 = Some (GraphRender.target e))
         (GraphRender.edges g) (GraphRender.links g).
Proof.
  intros Hall. unfold GraphRender.renderGraphVisualization.
  rewrite (parse_adjacency _ Hall). cbn [mbind Result_bind JS.bind fst snd].
  pose proof (kept_edges_declared props) as Hdecl.
  pose proof (elem_of_kept_edges props) as Hiff.
  destruct (Nat.eqb_spec (List.length (JStr <$> keys props)) 0) as [Hlen|_].
  - rewrite length_fmap in Hlen. apply nil_length_inv in Hlen.
    assert (concat (GraphRender.kept props <$> keys props) = []) as Hnil
      by by rewrite Hlen.
    rewrite Hnil in Hiff.
    eexists. split; [reflexivity|]. cbn. split; [exact Hiff|by split].
  - destruct (initialize_links_declared _ _ Hdecl) as (ls & Hls & Hlinks).
    rewrite Hls. cbn [mbind Result_bind JS.bind].
    eexists. split; [reflexivity|].
    cbn [GraphRender.edges GraphRender.lines GraphRender.links
         GraphRender.nodes].
    split; [exact Hiff|]. split.
    + unfold D3.elems. rewrite length_fmap. unfold D3.attr_c, D3.attr.
      rewrite !length_imap. unfold D3.enter_append. by rewrite length_fmap.
    + eapply Forall2_impl; [exact Hlinks|].
      intros e l (i & j & -> & Hi & Hj). exists i, j.
      rewrite <- !list_lookup_fmap, place_ids. done.
Qed.

(** ** The type dispatch and the header *)

Lemma strict_eq_tag v tag : strict_eq v (JStr tag) = true <-> v = JStr tag.
Proof.
  destruct v; cbn; try (split; [discriminate|congruence]).
  rewrite String.eqb_eq. split; congruence.
Qed.

(** A tag is unrecognised exactly when it is none of the four strings. *)
Lemma recognised_false data :
  Visualizer.recognised data = false
  <-> Visualizer.vd_type data
      ∉ JStr <$> ["array"; "graph"; "tree"; "linkedlist"].
Proof.
  unfold Visualizer.recognised, Visualizer.type_is.
  rewrite !orb_false_iff. cbn [fmap list_fmap].
  rewrite !not_elem_of_cons, <- !not_true_iff_false, !strict_eq_tag.
  pose proof (not_elem_of_nil (Visualizer.vd_type data)). tauto.
Qed.

(** The fallback of the dispatch. When the type tag is none of the four
    known ones, a non-array object with a [nodes] key is drawn as a linked
    list, an array as an array, and an object without [nodes] is not
    drawn. *)
Lemma classify_fallback (data : Visualizer.VisualizationData) :
  Visualizer.recognised data = false ->
  (forall props,
     Visualizer.vd_data data = JObj props -> "nodes" ∈ keys props ->
     Visualizer.classify data = Some Visualizer.LinkedListView)
  /\ (forall items,
        Visualizer.vd_data data = JArr items ->
        Visualizer.classify data = Some Visualizer.ArrayView)
  /\ (forall props,
        Visualizer.vd_data data = JObj props -> "nodes" ∉ keys props ->
        Visualizer.classify data = None).
Proof.
  intros Hrec. unfold Visualizer.recognised in Hrec.
  apply orb_false_iff in Hrec as [Hrec Hll].
  apply orb_false_iff in Hrec as [Hrec Htree].
  apply orb_false_iff in Hrec as [Harr Hgraph].
  unfold Visualizer.classify. rewrite Harr, Hgraph, Htree, Hll.
  assert (forall props,
    has_property "nodes" (JObj props) = true <-> "nodes" ∈ keys props) as Hin.
  { intros props. cbn [has_property]. rewrite existsb_exists. split.
    - intros (k & Hk & Heq). apply String.eqb_eq in Heq as <-.
      by apply list_elem_of_In.
    - intros Hk. exists "nodes". by rewrite <- list_elem_of_In. }
  split; [|split].
  - intros props -> Hk. apply Hin in Hk. by rewrite Hk.
  - by intros items ->.
  - intros props -> Hk.
    destruct (has_property "nodes" (JObj props)) eqn:Hp.
    + by apply Hin in Hp.
    + by rewrite andb_false_r.
Qed.

(** A tag that is not a string makes the component throw in its header,
    whatever the payload and the step. *)
Lemma header_needs_a_string (data : Visualizer.VisualizationData) (c : Z) :
  (forall s, Visualizer.vd_type data <> JStr s) ->
  exists msg, Visualizer.AlgorithmVisualizer data c = Throw (TypeError msg).
Proof.
  intros Hty. unfold Visualizer.AlgorithmVisualizer, Visualizer.returned_jsx.
  destruct (Visualizer.vd_type data) as [| | | |s| |] eqn:Ht; cbn;
    try (eexists; reflexivity).
  by destruct (Hty s).
Qed.

(** C3 (the code departs from it). The dispatch of the drawing effect
    does fall back on the shape, and a payload whose tag is a string
    outside the four known ones is drawn that way whenever the component
    renders: as a linked list when it is an object with a [nodes] key, as
    an array when it is an array.  With the tag unset, as in both
    scenarios of the claim, no run gets that far: the component throws a
    [TypeError] in its header at every step, before the effect and its
    fallback run, so neither scenario is classified or drawn. *)
Theorem C3_unset_tag_throws_before_the_fallback :
  (forall ns cs c,
     let data :=
       {| Visualizer.vd_type := JUndefined;
          Visualizer.vd_data :=
            JObj [("nodes", JArr ns); ("connections", JArr cs)] |} in
     Visualizer.classify data = Some Visualizer.LinkedListView
     /\ Visualizer.AlgorithmVisualizer data c
        = Throw (TypeError
                   "Cannot read properties of undefined (reading 'charAt')"))
  /\ (forall c,
        let data :=
          {| Visualizer.vd_type := JUndefined;
             Visualizer.vd_data := Samples.five_numbers |} in
        Visualizer.classify data = Some Visualizer.ArrayView
        /\ Visualizer.AlgorithmVisualizer data c
           = Throw (TypeError
                      "Cannot read properties of undefined (reading 'charAt')"))
  /\ (forall data c,
        (forall s, Visualizer.vd_type data <> JStr s) ->
        throws (Visualizer.AlgorithmVisualizer data c) = true)
  /\ (forall data c v r,
        Visualizer.recognised data = false ->
        Visualizer.AlgorithmVisualizer data c = Ok (v, r) ->
        (exists s, Visualizer.vd_type data = JStr s)
        /\ (forall props,
              Visualizer.vd_data data = JObj props -> "nodes" ∈ keys props ->
              r = Some Visualizer.LinkedListView)
        /\ (forall items,
              Visualizer.vd_data data = JArr items ->
              r = Some Visualizer.ArrayView)
        /\ (forall props,
              Visualizer.vd_data data = JObj props -> "nodes" ∉ keys props ->
              r = None))
  /\ (exists v,
        Visualizer.AlgorithmVisualizer
          {| Visualizer.vd_type := JStr "heap";
             Visualizer.vd_data := Samples.five_numbers |} 0
        = Ok (v, Some Visualizer.ArrayView))
  /\ (exists v,
        Visualizer.AlgorithmVisualizer
          {| Visualizer.vd_type := JStr "chain";
             Visualizer.vd_data :=
               JObj [("nodes", JArr []); ("connections", JArr [])] |} 0
        = Ok (v, Some Visualizer.LinkedListView)).
Proof.
  split; [|split; [|split; [|split; [|split]]]].
  - intros ns cs c. cbv zeta. split; reflexivity.
  - intros c. cbv zeta. split; reflexivity.
  - intros data c Hty.
    destruct (header_needs_a_string data c Hty) as [msg ->]. done.
  - intros data c v r Hrec Hok.
    destruct (classify_fallback data Hrec) as (Hlist & Harr & Hnone).
    assert (r = Visualizer.classify data) as ->.
    { unfold Visualizer.AlgorithmVisualizer in Hok.
      destruct (Visualizer.returned_jsx data c); [|done].
      cbn in Hok. by injection Hok as _ <-. }
    split; [|done].
    destruct (Visualizer.vd_type data) as [| | | |s| |] eqn:Ht;
      try (destruct (header_needs_a_string data c) as [msg Hmsg];
           [by rewrite Ht|congruence]).
    eauto.
  - eexists. vm_compute. reflexivity.
  - eexists. vm_compute. reflexivity.
Qed.

(** C4 (the code departs from it). A payload without type tag makes the
    component throw while it builds its header, before the drawing effect
    and its fallback run; the dispatch alone would have drawn the same
    payload as an array. *)
Theorem C4_absent_tag_throws_in_header :
  let data :=
    {| Visualizer.vd_type := JUndefined;
       Visualizer.vd_data := Samples.five_numbers |} in
  Visualizer.AlgorithmVisualizer data 0
  = Throw (TypeError "Cannot read properties of undefined (reading 'charAt')")
  /\ Visualizer.classify data = Some Visualizer.ArrayView.
Proof. split; reflexivity. Qed.

(** ** Clicking a node of the graph *)

(** C9, as stated, fails: during the pulse the clicked node is pinned, and
    afterwards its pin fields are [null] where they were [undefined]. *)
Lemma C9_click_sets_the_pin_fields :
  exists g,
    GraphRender.renderGraphVisualization (fun _ => 0%Q) (fun _ => 0%Q) 3
      (JObj Samples.dangling_graph) canvas_width canvas_height canvas_margin 0
    = Ok g
    /\ GraphRender.pinned <$> GraphRender.nodes g = [false; false]
    /\ GraphRender.pinned <$> GraphRender.nodes (GraphRender.click false 0 g)
       = [true; false]
    /\ GraphRender.fx <$> GraphRender.nodes g
       = [GraphRender.PinUndefined; GraphRender.PinUndefined]
    /\ GraphRender.fx
         <$> GraphRender.nodes (GraphRender.click_completed false 0 g)
       = [GraphRender.PinNull; GraphRender.PinUndefined].
Proof.
  eexists. split; [vm_compute; reflexivity|].
  repeat split; vm_compute; reflexivity.
Qed.

(** C9, amended. A click that was not part of a drag pins the clicked
    node at its own position for the duration of the pulse and clears both
    pin fields to [null] when the pulse ends; it leaves the coordinates of
    every node, every field of the other nodes and the simulation as they
    were, and the clicked circle ends on the transform it started from. A
    click at the end of a drag does nothing. *)
Theorem C9_click_pins_for_the_pulse_then_releases
    (g : GraphRender.Graph) (i : nat) :
  let during := GraphRender.click false i g in
  let after := GraphRender.click_completed false i g in
  GraphRender.click true i g = g
  /\ GraphRender.click_completed true i g = g
  /\ GraphRender.simulation during = GraphRender.simulation g
  /\ GraphRender.simulation after = GraphRender.simulation g
  /\ (forall j d, GraphRender.nodes g !! j = Some d ->
        exists d1 d2,
          GraphRender.nodes during !! j = Some d1
          /\ GraphRender.nodes after !! j = Some d2
          /\ GraphRender.x d1 = GraphRender.x d
          /\ GraphRender.y d1 = GraphRender.y d
          /\ GraphRender.x d2 = GraphRender.x d
          /\ GraphRender.y d2 = GraphRender.y d
          /\ (j <> i -> d1 = d /\ d2 = d)
          /\ (j = i ->
                GraphRender.fx d1 = GraphRender.PinAt (GraphRender.x d)
                /\ GraphRender.fy d1 = GraphRender.PinAt (GraphRender.y d)
                /\ GraphRender.fx d2 = GraphRender.PinNull
                /\ GraphRender.fy d2 = GraphRender.PinNull
                /\ GraphRender.pinned d2 = false))
  /\ (forall e, GraphRender.circles g !! i = Some e ->
        exists e1 e2,
          GraphRender.circles during !! i = Some e1
          /\ GraphRender.circles after !! i = Some e2
          /\ D3.attrs e1 = D3.attrs e
          /\ (D3.tr_attrs <$> D3.transitions e1)
             = [ {[ "transform" := D3.ATranslate 0 (-20) ]};
                 {[ "transform" := D3.ATranslate 0 0 ]} ]
          /\ D3.attrs e2 !! "transform" = Some (D3.ATranslate 0 0)
          /\ D3.transitions e2 = []).
Proof.
  cbv zeta. unfold GraphRender.click_completed, GraphRender.pulse_end,
    GraphRender.click, GraphRender.with_node, GraphRender.with_circle.
  cbn [GraphRender.nodes GraphRender.circles GraphRender.simulation].
  split; [done|]. split; [done|]. split; [done|]. split; [done|]. split.
  - intros j d Hd. destruct (decide (j = i)) as [->|Hne].
    + rewrite !list_lookup_alter_eq, Hd. cbn [fmap option_fmap option_map].
      eexists _, _. split; [reflexivity|]. split; [reflexivity|].
      cbn. repeat split; done.
    + rewrite !list_lookup_alter_ne by done. rewrite Hd.
      exists d, d. repeat split; done.
  - intros e He. rewrite !list_lookup_alter_eq, He.
    cbn [fmap option_fmap option_map].
    eexists _, _. split; [reflexivity|]. split; [reflexivity|].
    split; [done|]. split; [done|]. split; [|done].
    unfold D3.settled, GraphRender.pulse. cbn [D3.attrs D3.transitions D3.with_transitions
      fold_left D3.tr_attrs].
    apply lookup_union_Some_l, lookup_singleton_eq.
Qed.

(** C5 on [{A: ["B", "Z"], B: ["A"]}]: the edge to the undeclared [Z] is
    dropped without error. *)
Lemma C5_adjacency_edges_between_declared_nodes_witness :
  exists g,
    GraphRender.renderGraphVisualization (fun _ => 0%Q) (fun _ => 0%Q) 3
      (JObj Samples.dangling_graph) canvas_width canvas_height canvas_margin 0
    = Ok g
    /\ List.length (GraphRender.lines g) = List.length (GraphRender.edges g).
Proof.
  destruct (C5_adjacency_edges_between_declared_nodes
              (fun _ => 0%Q) (fun _ => 0%Q) 3 Samples.dangling_graph
              canvas_width canvas_height canvas_margin 0)
    as (g & Hg & _ & Hlen & _).
  - repeat constructor.
  - exists g. by split.
Defined.

(** ** The playback controller *)

Section PlaybackFacts.
Import Speech Playback PlaybackShapes.
Variable steps : list AlgorithmStep.
Local Notation "'L'" := (last steps).

Ltac world w := destruct w as [cs ip sp ir ivs nid ed sy].

Lemma rerender_settled n w : settled w -> rerender steps n w = w.
Proof. intros H. destruct n; [done|]. cbn. by rewrite decide_True. Qed.

Lemma rerender_pending n w :
  effect_deps w <> Some (deps w) ->
  rerender steps (S n) w = rerender steps n (commit steps w).
Proof. intros H. change (rerender steps (S n) w) with
    (if decide (effect_deps w = Some (deps w)) then w
     else rerender steps n (commit steps w)).
  by rewrite decide_False.
Qed.

Lemma clear_ref_frame w :
  currentStep (clear_ref w) = currentStep w
  /\ isPlaying (clear_ref w) = isPlaying w
  /\ playbackSpeed (clear_ref w) = playbackSpeed w
  /\ intervalRef (clear_ref w) = intervalRef w
  /\ next_id (clear_ref w) = next_id w
  /\ effect_deps (clear_ref w) = effect_deps w
  /\ synth (clear_ref w) = synth w.
Proof.
  world w. unfold clear_ref. cbn.
  destruct ir as [id|]; [destruct (id =? 0)%nat|]; done.
Qed.

Lemma effect_frame w :
  currentStep (effect steps w) = currentStep w
  /\ playbackSpeed (effect steps w) = playbackSpeed w
  /\ effect_deps (effect steps w) = effect_deps w
  /\ synth (effect steps w) = synth w.
Proof.
  world w. unfold effect. cbn.
  destruct (ip && (cs <? L)%Z); [done|].
  destruct (cs >=? L)%Z; done.
Qed.

Lemma commit_frame w :
  currentStep (commit steps w) = currentStep w
  /\ playbackSpeed (commit steps w) = playbackSpeed w
  /\ synth (commit steps w) = synth w.
Proof.
  unfold commit. destruct (effect_deps w) as [d|] eqn:Hd.
  - case_decide; [done|].
    destruct (effect_frame (ran (deps w) (cleanup w))) as (-> & -> & _ & ->).
    destruct (clear_ref_frame w) as (? & ? & ? & ? & ? & ? & ?).
    unfold cleanup. cbn. done.
  - destruct (effect_frame (ran (deps w) w)) as (-> & -> & _ & ->). done.
Qed.

Lemma rerender_frame n w :
  currentStep (rerender steps n w) = currentStep w
  /\ playbackSpeed (rerender steps n w) = playbackSpeed w
  /\ synth (rerender steps n w) = synth w.
Proof.
  revert w. induction n as [|n IH]; intros w; [done|].
  cbn. case_decide; [done|].
  destruct (IH (commit steps w)) as (-> & -> & ->). apply commit_frame.
Qed.

Lemma settle_frame w :
  currentStep (settle steps w) = currentStep w
  /\ playbackSpeed (settle steps w) = playbackSpeed w
  /\ synth (settle steps w) = synth w.
Proof. apply rerender_frame. Qed.

Ltac wsimpl :=
  unfold deps in *;
  cbn [currentStep isPlaying playbackSpeed intervalRef intervals next_id
       effect_deps synth onStepChange setIsPlaying setPlaybackSpeed
       with_synth clearInterval setInterval ran deps fst snd].

Lemma commit_pending w d :
  effect_deps w = Some d -> d <> deps w ->
  commit steps w = effect steps (ran (deps w) (cleanup w)).
Proof.
  unfold commit. intros -> H. by rewrite decide_False.
Qed.

Lemma effect_play w :
  isPlaying w = true -> (currentStep w < L)%Z ->
  effect steps w = setInterval (playbackSpeed w) w.
Proof.
  intros Hp Hlt. unfold effect. rewrite Hp.
  destruct (Z.ltb_spec (currentStep w) L); [done|lia].
Qed.

Lemma effect_stop w :
  (L <= currentStep w)%Z -> effect steps w = setIsPlaying false w.
Proof.
  intros Hge. unfold effect.
  destruct (Z.ltb_spec (currentStep w) L); [lia|].
  rewrite andb_false_r.
  destruct (Z.geb_spec (currentStep w) L); [done|lia].
Qed.

Lemma effect_rest w :
  isPlaying w = false -> (currentStep w < L)%Z -> effect steps w = w.
Proof.
  intros Hp Hlt. unfold effect. rewrite Hp. cbn [andb].
  destruct (Z.geb_spec (currentStep w) L); [lia|done].
Qed.

Lemma clear_ref_intervals_nil w :
  intervals w = [] -> intervals (clear_ref w) = [].
Proof.
  intros H. unfold clear_ref.
  destruct (intervalRef w) as [id|]; [|done].
  destruct (id =? 0)%nat; [done|]. wsimpl. by rewrite H.
Qed.

Lemma cleaned_frame w :
  currentStep (cleaned w) = currentStep w
  /\ isPlaying (cleaned w) = isPlaying w
  /\ playbackSpeed (cleaned w) = playbackSpeed w
  /\ intervalRef (cleaned w) = intervalRef w
  /\ intervals (cleaned w) = intervals (clear_ref w)
  /\ next_id (cleaned w) = next_id w
  /\ effect_deps (cleaned w)
     = Some (isPlaying w, currentStep w, playbackSpeed w)
  /\ synth (cleaned w) = synth w.
Proof.
  unfold cleaned, cleanup. wsimpl.
  destruct (clear_ref_frame w) as (? & ? & ? & ? & ? & ? & ?). done.
Qed.

Lemma settled_iff w :
  settled w
  <-> effect_deps w = Some (isPlaying w, currentStep w, playbackSpeed w).
Proof. done. Qed.

(** A pending render of a world that owns its intervals ends in one of
    the two settled shapes. *)
Lemma settle_pending_play w d :
  effect_deps w = Some d -> d <> deps w -> owned w ->
  isPlaying w = true -> (currentStep w < L)%Z ->
  running_at steps (currentStep w) (settle steps w)
  /\ next_id (settle steps w) = S (next_id w)
  /\ synth (settle steps w) = synth w.
Proof.
  intros Hd Hne [Hown Hnid] Hp Hlt.
  destruct (cleaned_frame w) as (Hcs & Hip & Hsp & Hir & Hiv & Hn & Hed & Hsy).
  assert (settle steps w = setInterval (playbackSpeed w) (cleaned w)) as ->.
  { unfold settle.
    rewrite rerender_pending by (rewrite Hd; congruence).
    rewrite (commit_pending _ _ Hd Hne). fold (cleaned w).
    rewrite effect_play by congruence. rewrite Hsp.
    apply rerender_settled. apply settled_iff. wsimpl.
    rewrite Hed, Hcs, Hip, Hsp. done. }
  unfold running_at. rewrite settled_iff. wsimpl.
  rewrite ?Hcs, ?Hip, ?Hsp, ?Hn, ?Hiv, ?Hown, ?Hsy, ?Hed.
  repeat split; try done; try lia.
  exists (next_id w). repeat split; try done; lia.
Qed.

Lemma settle_pending_rest w d :
  effect_deps w = Some d -> d <> deps w -> owned w ->
  isPlaying w = false -> (currentStep w < L)%Z ->
  idle_at (currentStep w) (settle steps w)
  /\ next_id (settle steps w) = next_id w
  /\ intervalRef (settle steps w) = intervalRef w
  /\ synth (settle steps w) = synth w.
Proof.
  intros Hd Hne [Hown Hnid] Hp Hlt.
  destruct (cleaned_frame w) as (Hcs & Hip & Hsp & Hir & Hiv & Hn & Hed & Hsy).
  assert (settle steps w = cleaned w) as ->.
  { unfold settle.
    rewrite rerender_pending by (rewrite Hd; congruence).
    rewrite (commit_pending _ _ Hd Hne). fold (cleaned w).
    rewrite effect_rest by congruence.
    apply rerender_settled. apply settled_iff.
    rewrite Hed, Hcs, Hip, Hsp. done. }
  unfold idle_at. rewrite settled_iff, Hcs, Hip, Hsp, Hn, Hiv, Hown, Hsy, Hed, Hir.
  repeat split; try done; try lia.
Qed.

Lemma settle_stop_core w d :
  effect_deps w = Some d -> d <> deps w ->
  (L <= currentStep w)%Z ->
  isPlaying (settle steps w) = false
  /\ settled (settle steps w)
  /\ currentStep (settle steps w) = currentStep w
  /\ next_id (settle steps w) = next_id w
  /\ intervalRef (settle steps w) = intervalRef w
  /\ synth (settle steps w) = synth w
  /\ (intervals (clear_ref w) = [] -> intervals (settle steps w) = []).
Proof.
  intros Hd Hne Hge.
  destruct (cleaned_frame w) as (Hcs & Hip & Hsp & Hir & Hiv & Hn & Hed & Hsy).
  set (w1 := setIsPlaying false (cleaned w)).
  assert (commit steps w = w1) as Hc1.
  { rewrite (commit_pending _ _ Hd Hne). fold (cleaned w).
    rewrite effect_stop by lia. done. }
  assert (currentStep w1 = currentStep w /\ playbackSpeed w1 = playbackSpeed w
          /\ isPlaying w1 = false
          /\ intervals w1 = intervals (clear_ref w)
          /\ next_id w1 = next_id w /\ intervalRef w1 = intervalRef w
          /\ synth w1 = synth w
          /\ effect_deps w1
             = Some (isPlaying w, currentStep w, playbackSpeed w))
    as (Hcs1 & Hsp1 & Hip1 & Hiv1 & Hn1 & Hir1 & Hsy1 & Hed1).
  { subst w1. wsimpl. rewrite Hiv. done. }
  clearbody w1.
  destruct (isPlaying w) eqn:Hp.
  - (* the body has just cleared [isPlaying]: one more render *)
    destruct (cleaned_frame w1)
      as (Hcs2 & Hip2 & Hsp2 & Hir2 & Hiv2 & Hn2 & Hed2 & Hsy2).
    assert (settle steps w = setIsPlaying false (cleaned w1)) as ->.
    { unfold settle.
      rewrite rerender_pending by (rewrite Hd; congruence).
      rewrite Hc1.
      rewrite rerender_pending
        by (unfold deps; rewrite Hed1, Hip1; congruence).
      rewrite (commit_pending w1 _ Hed1)
        by (unfold deps; rewrite Hip1; congruence).
      fold (cleaned w1). rewrite effect_stop by lia.
      apply rerender_settled. apply settled_iff. wsimpl.
      rewrite Hed2, Hcs2, Hsp2, Hip1. done. }
    rewrite settled_iff. wsimpl.
    rewrite Hcs2, Hsp2, Hn2, Hiv2, Hsy2, Hed2, Hir2, Hip1.
    rewrite Hcs1, Hn1, Hsy1, Hir1.
    repeat split; try done.
    intros Hown. apply clear_ref_intervals_nil. congruence.
  - assert (settle steps w = w1) as ->.
    { unfold settle.
      rewrite rerender_pending by (rewrite Hd; congruence).
      rewrite Hc1. apply rerender_settled. apply settled_iff.
      rewrite Hed1, Hcs1, Hsp1, Hip1. done. }
    rewrite settled_iff.
    rewrite Hcs1, Hsp1, Hn1, Hiv1, Hsy1, Hed1, Hir1, Hip1.
    repeat split; try done.
Qed.

Lemma settle_pending_stop w d :
  effect_deps w = Some d -> d <> deps w -> owned w ->
  (L <= currentStep w)%Z ->
  idle_at (currentStep w) (settle steps w)
  /\ next_id (settle steps w) = next_id w
  /\ intervalRef (settle steps w) = intervalRef w
  /\ synth (settle steps w) = synth w.
Proof.
  intros Hd Hne [Hown Hnid] Hge.
  destruct (settle_stop_core _ _ Hd Hne Hge)
    as (Hp & Hs & Hc & Hn & Hir & Hsy & Hiv).
  unfold idle_at. rewrite Hn. repeat split; try done. by apply Hiv.
Qed.

(** *** The narration of a world *)

Lemma guarded_weaken b cs : guarded false cs = true -> guarded b cs = true.
Proof. destruct cs as [|[|u] cs], b; cbn; done. Qed.

Lemma guarded_app b cs cs' :
  guarded b cs = true -> guarded false cs' = true ->
  guarded b (cs ++ cs') = true.
Proof.
  revert b. induction cs as [|[|u] cs IH]; intros b H H'; cbn in *.
  - by apply guarded_weaken.
  - by apply IH.
  - apply andb_prop in H as [-> H]. cbn. by apply IH.
Qed.

Lemma guarded_cancels b pre rest :
  Forall (fun c => c = Cancel) pre -> guarded false rest = true ->
  guarded b (pre ++ rest) = true.
Proof.
  intros Hpre Hrest. revert b.
  induction Hpre as [|c pre -> _ IH]; intros b; cbn.
  - by apply guarded_weaken.
  - apply IH.
Qed.

Lemma speak_calls text sy :
  exists u, calls (speak text sy) = calls sy ++ [Cancel; Speak u]
            /\ queue (speak text sy) = [u] /\ u_text u = text.
Proof. eexists. unfold speak, speak_rate, enqueue, cancel. cbn.
  rewrite <- app_assoc. done.
Qed.

Lemma stopSpeaking_calls sy :
  calls (stopSpeaking sy) = calls sy ++ [Cancel]
  /\ queue (stopSpeaking sy) = [].
Proof. done. Qed.

Lemma exclusive_speak text sy : exclusive sy -> exclusive (speak text sy).
Proof.
  intros [Hc _]. destruct (speak_calls text sy) as (u & Hcalls & Hq & _).
  split.
  - rewrite Hcalls. by apply guarded_app.
  - by rewrite Hq.
Qed.

Lemma exclusive_stop sy : exclusive sy -> exclusive (stopSpeaking sy).
Proof.
  intros [Hc _]. split; [|cbn; lia].
  cbn [stopSpeaking cancel calls]. by apply guarded_app.
Qed.

Lemma exclusive_narrate n w :
  exclusive (synth w) -> exclusive (synth (narrate steps n w)).
Proof.
  intros H. unfold narrate. destruct (step_at steps n); [|done].
  wsimpl. by apply exclusive_speak.
Qed.

Lemma exclusive_handleNext_of seen w :
  exclusive (synth w) -> exclusive (synth (handleNext_of steps seen w)).
Proof.
  intros H. unfold handleNext_of. destruct (seen <? L)%Z; [|done].
  by apply exclusive_narrate.
Qed.

Lemma exclusive_handlePrevious w :
  exclusive (synth w) -> exclusive (synth (handlePrevious steps w)).
Proof.
  intros H. unfold handlePrevious. destruct (currentStep w >? 0)%Z; [|done].
  by apply exclusive_narrate.
Qed.

Lemma synth_handlePause w :
  synth (handlePause w) = stopSpeaking (synth w).
Proof.
  unfold handlePause. wsimpl.
  destruct (clear_ref_frame (setIsPlaying false w)) as (_&_&_&_&_&_& ->).
  done.
Qed.

Lemma exclusive_handleReset w :
  exclusive (synth w) -> exclusive (synth (handleReset steps w)).
Proof.
  intros H. unfold handleReset. apply exclusive_narrate. wsimpl.
  rewrite synth_handlePause. by apply exclusive_stop.
Qed.

Lemma synth_settle w : synth (settle steps w) = synth w.
Proof. apply settle_frame. Qed.

Lemma exclusive_fire w ev :
  exclusive (synth w) -> exclusive (synth (fire steps w ev)).
Proof.
  intros H. destruct ev; cbn [fire].
  - unfold play. rewrite synth_settle. destruct (isPlaying w).
    + rewrite synth_handlePause. by apply exclusive_stop.
    + unfold handlePlay. by destruct (currentStep w >=? L)%Z.
  - unfold next. case_decide; [done|]. rewrite synth_settle.
    by apply exclusive_handleNext_of.
  - unfold previous. case_decide; [done|]. rewrite synth_settle.
    by apply exclusive_handlePrevious.
  - unfold reset. rewrite synth_settle. by apply exclusive_handleReset.
  - unfold select. case_decide; [|done]. by rewrite synth_settle.
  - unfold speed. destruct (isPlaying w); [done|]. by rewrite synth_settle.
  - unfold tick. destruct (intervals w) as [|t ?]; [done|].
    rewrite synth_settle. by apply exclusive_handleNext_of.
Qed.

Lemma exclusive_run evs w :
  exclusive (synth w) -> exclusive (synth (run steps evs w)).
Proof.
  revert w. induction evs as [|ev evs IH]; intros w H; [done|].
  cbn. apply IH. by apply exclusive_fire.
Qed.

Lemma synth_mounted voices :
  synth (mounted steps voices)
  = {| voices := voices; queue := []; calls := [] |}.
Proof. unfold mounted. by rewrite synth_settle. Qed.

Lemma issues_narrate_after n (h : World -> World) pre :
  (forall w, calls (synth (h w)) = calls (synth w) ++ pre) ->
  (forall w, queue (synth (h w)) = queue (synth w) \/ pre <> []) ->
  Forall (fun c => c = Cancel) pre ->
  issues (fun w => narrate steps n (h w)).
Proof.
  intros Hcalls _ Hpre w. unfold narrate.
  destruct (step_at steps n) as [s|].
  - wsimpl. destruct (speak_calls (description s) (synth (h w)))
      as (u & Hc & Hq & _).
    exists (pre ++ [Cancel; Speak u]). rewrite Hc, Hcalls, <- app_assoc.
    split; [done|]. split.
    + by apply guarded_cancels.
    + intros u' Hu'. rewrite Hq. apply elem_of_app in Hu' as [Hu'|Hu'].
      * rewrite Forall_forall in Hpre. by specialize (Hpre _ Hu').
      * apply elem_of_cons in Hu' as [?|Hu']; [done|].
        apply list_elem_of_singleton in Hu'. congruence.
  - exists pre. split; [apply Hcalls|]. split.
    + rewrite <- (app_nil_r pre). by apply guarded_cancels.
    + intros u' Hu'. rewrite Forall_forall in Hpre.
      by specialize (Hpre _ Hu').
Qed.

Lemma issues_id : issues (fun w => w).
Proof.
  intros w. exists []. rewrite app_nil_r. split; [done|]. split; [done|].
  intros u Hu. by apply elem_of_nil in Hu.
Qed.

Lemma issues_handleNext : issues (handleNext steps).
Proof.
  intros w. unfold handleNext, handleNext_of.
  destruct (currentStep w <? L)%Z; [|apply issues_id].
  apply (issues_narrate_after _ (onStepChange _) []); [| |done].
  - intros w'. by rewrite app_nil_r.
  - intros w'. by left.
Qed.

Lemma issues_handlePrevious : issues (handlePrevious steps).
Proof.
  intros w. unfold handlePrevious.
  destruct (currentStep w >? 0)%Z; [|apply issues_id].
  apply (issues_narrate_after _ (onStepChange _) []); [| |done].
  - intros w'. by rewrite app_nil_r.
  - intros w'. by left.
Qed.

Lemma issues_handleReset : issues (handleReset steps).
Proof.
  intros w. unfold handleReset.
  apply (issues_narrate_after _
           (fun w => onStepChange 0 (handlePause w)) [Cancel]).
  - intros w'. wsimpl. by rewrite synth_handlePause.
  - intros w'. by right.
  - by constructor.
Qed.

(** *** Events on the two settled shapes *)

Lemma narrate_frame n w : exists f, narrate steps n w = with_synth f w.
Proof.
  unfold narrate. destruct (step_at steps n); [eauto|].
  exists (fun sy => sy). by destruct w.
Qed.

Lemma clear_ref_Some w id :
  intervalRef w = Some id -> id <> 0%nat -> clear_ref w = clearInterval id w.
Proof.
  intros H Hid. unfold clear_ref. rewrite H.
  destruct (Nat.eqb_spec id 0); done.
Qed.

Lemma owned_of_idle w :
  intervals w = [] -> (0 < next_id w)%nat -> owned w.
Proof. intros H ?. split; [|done]. by apply clear_ref_intervals_nil. Qed.

Lemma mounted_eq voices :
  mounted steps voices
  = {| currentStep := 0; isPlaying := false; playbackSpeed := 1000;
       intervalRef := None; intervals := []; next_id := 1;
       effect_deps := Some (false, 0%Z, 1000%Z);
       synth := {| voices := voices; queue := []; calls := [] |} |}.
Proof.
  unfold mounted, settle. rewrite rerender_pending by done.
  assert (commit steps (initial voices)
          = {| currentStep := 0; isPlaying := false; playbackSpeed := 1000;
               intervalRef := None; intervals := []; next_id := 1;
               effect_deps := Some (false, 0%Z, 1000%Z);
               synth := {| voices := voices; queue := []; calls := [] |} |})
    as ->.
  { unfold commit, initial. cbn [effect_deps].
    unfold effect, ran, deps, setIsPlaying.
    cbn [isPlaying currentStep playbackSpeed intervalRef intervals next_id
         effect_deps synth andb].
    by destruct (0 >=? L)%Z. }
  by apply rerender_settled.
Qed.

Lemma mounted_idle voices :
  idle_at 0 (mounted steps voices)
  /\ next_id (mounted steps voices) = 1%nat
  /\ intervalRef (mounted steps voices) = None
  /\ playbackSpeed (mounted steps voices) = 1000%Z.
Proof.
  rewrite mounted_eq. unfold idle_at. rewrite settled_iff. wsimpl.
  repeat split; try done; lia.
Qed.

Lemma play_idle c w :
  idle_at c w ->
  let c' := if (c >=? L)%Z then 0%Z else c in
  ((c' < L)%Z ->
     running_at steps c' (play steps w)
     /\ next_id (play steps w) = S (next_id w))
  /\ ((L <= c')%Z ->
     idle_at c' (play steps w)
     /\ next_id (play steps w) = next_id w
     /\ intervalRef (play steps w) = intervalRef w).
Proof.
  intros (Hc & Hp & Hiv & Hs & Hn). cbv zeta. unfold settled, deps in Hs.
  unfold play. rewrite Hp.
  set (w' := handlePlay steps w).
  assert (currentStep w' = (if (c >=? L)%Z then 0%Z else c)
          /\ isPlaying w' = true /\ intervals w' = []
          /\ next_id w' = next_id w /\ intervalRef w' = intervalRef w
          /\ effect_deps w'
             = Some (false, c, playbackSpeed w))
    as (Hc' & Hp' & Hiv' & Hn' & Hir' & Hd').
  { subst w'. unfold handlePlay. rewrite Hc.
    destruct (c >=? L)%Z; wsimpl; rewrite ?Hs, ?Hp, ?Hc; done. }
  clearbody w'.
  assert ((false, c, playbackSpeed w) <> deps w') as Hne.
  { unfold deps. rewrite Hp'. congruence. }
  assert (owned w') as Hown by (apply owned_of_idle; [done|lia]).
  split; intros Hcmp; rewrite <- Hc' in Hcmp |- *.
  - destruct (settle_pending_play _ _ Hd' Hne Hown Hp' Hcmp) as (? & ? & _).
    split; [done|congruence].
  - destruct (settle_pending_stop _ _ Hd' Hne Hown Hcmp) as (? & ? & ? & _).
    split; [done|]. split; congruence.
Qed.

Lemma tick_idle c w : idle_at c w -> tick steps w = w.
Proof. intros (_ & _ & Hiv & _). unfold tick. by rewrite Hiv. Qed.

Lemma tick_running c w :
  running_at steps c w ->
  ((c + 1 < L)%Z -> running_at steps (c + 1) (tick steps w))
  /\ ((L <= c + 1)%Z -> idle_at (c + 1) (tick steps w)).
Proof.
  intros (Hc & Hp & Hlt & Hs & Hn & id & Hid & Hir & Hiv).
  unfold settled, deps in Hs.
  unfold tick. rewrite Hiv. cbn [iv_closure].
  set (w' := handleNext_of steps c w).
  assert (currentStep w' = (c + 1)%Z
          /\ isPlaying w' = true
          /\ intervals w' = intervals w
          /\ next_id w' = next_id w /\ intervalRef w' = Some id
          /\ effect_deps w' = Some (true, c, playbackSpeed w))
    as (Hc' & Hp' & Hiv' & Hn' & Hir' & Hd').
  { subst w'. unfold handleNext_of.
    destruct (Z.ltb_spec c L); [|lia].
    destruct (narrate_frame (c + 1) (onStepChange (c + 1) w)) as [f ->].
    wsimpl. rewrite ?Hs, ?Hp, ?Hc. done. }
  clearbody w'.
  assert ((true, c, playbackSpeed w) <> deps w') as Hne.
  { unfold deps. rewrite Hc'. intros [=]. lia. }
  assert (owned w') as Hown.
  { split; [|lia]. rewrite (clear_ref_Some _ _ Hir' Hid). wsimpl.
    rewrite Hiv', Hiv. cbn. by rewrite Nat.eqb_refl. }
  split; intros Hcmp; rewrite <- Hc' in Hcmp |- *.
  - by destruct (settle_pending_play _ _ Hd' Hne Hown Hp' Hcmp) as (? & _).
  - by destruct (settle_pending_stop _ _ Hd' Hne Hown Hcmp) as (? & _).
Qed.

Lemma next_idle c w :
  idle_at c w ->
  idle_at (if (c <? L)%Z then c + 1 else c)%Z (next steps w).
Proof.
  intros Hidle. pose proof Hidle as (Hc & Hp & Hiv & Hs & Hn).
  unfold settled, deps in Hs.
  unfold next. rewrite Hc. case_decide as Heq.
  { destruct (Z.ltb_spec c L); [lia|done]. }
  unfold handleNext, handleNext_of. rewrite Hc.
  destruct (Z.ltb_spec c L).
  - set (w' := narrate steps (c + 1) (onStepChange (c + 1) w)).
    assert (currentStep w' = (c + 1)%Z
            /\ isPlaying w' = false /\ intervals w' = []
            /\ next_id w' = next_id w
            /\ effect_deps w' = Some (false, c, playbackSpeed w))
      as (Hc' & Hp' & Hiv' & Hn' & Hd').
    { subst w'.
      destruct (narrate_frame (c + 1) (onStepChange (c + 1) w)) as [f ->].
      wsimpl. rewrite ?Hs, ?Hp, ?Hc. done. }
    clearbody w'.
    assert ((false, c, playbackSpeed w) <> deps w') as Hne.
    { unfold deps. rewrite Hc'. intros [=]. lia. }
    assert (owned w') as Hown by (apply owned_of_idle; [done|lia]).
    rewrite <- Hc'.
    destruct (Z.lt_ge_cases (currentStep w') L) as [Hcmp|Hcmp].
    + by destruct (settle_pending_rest _ _ Hd' Hne Hown Hp' Hcmp) as (? & _).
    + by destruct (settle_pending_stop _ _ Hd' Hne Hown Hcmp) as (? & _).
  - unfold settle. rewrite rerender_settled; [done|].
    by destruct Hidle as (_ & _ & _ & ? & _).
Qed.

End PlaybackFacts.

Section RenderFuel.
Import Speech Playback PlaybackShapes.
Variable steps : list AlgorithmStep.
Local Notation "'L'" := (last steps).

(** Three renders are enough: whatever the world, [settle] ends on a
    world whose effect has run on its current state. *)
Lemma settle_settled w : settled (settle steps w).
Proof.
  destruct (decide (settled w)) as [Hs|Hs].
  { unfold settle. by rewrite rerender_settled. }
  destruct (effect_deps w) as [d|] eqn:Hd.
  - assert (d <> deps w) as Hne by (unfold settled in Hs; congruence).
    destruct (Z.lt_ge_cases (currentStep w) L) as [Hlt|Hge].
    + unfold settle.
      rewrite rerender_pending by (rewrite Hd; congruence).
      rewrite (commit_pending steps _ _ Hd Hne). fold (cleaned w).
      destruct (cleaned_frame w)
        as (Hcs & Hip & Hsp & Hir & Hiv & Hn & Hed & Hsy).
      destruct (isPlaying w) eqn:Hp.
      * rewrite effect_play by congruence.
        rewrite rerender_settled; apply settled_iff;
          cbn [effect_deps isPlaying currentStep playbackSpeed setInterval];
          rewrite Hed, Hcs, Hip, Hsp; done.
      * rewrite effect_rest by congruence.
        rewrite rerender_settled; apply settled_iff;
          rewrite Hed, Hcs, Hip, Hsp; done.
    + by destruct (settle_stop_core steps _ _ Hd Hne Hge) as (_ & ? & _).
  - (* first mount: the body runs without a cleanup before it *)
    set (w0 := ran (deps w) w).
    assert (commit steps w = effect steps w0) as Hc
      by (unfold commit; by rewrite Hd).
    unfold settle. rewrite rerender_pending by (rewrite Hd; done).
    rewrite Hc.
    destruct (Z.lt_ge_cases (currentStep w) L) as [Hlt|Hge].
    + destruct (isPlaying w) eqn:Hp.
      * rewrite effect_play by (subst w0; cbn [isPlaying currentStep ran]; done).
        rewrite rerender_settled; apply settled_iff; subst w0;
          unfold deps;
          cbn [effect_deps isPlaying currentStep playbackSpeed setInterval ran];
          by rewrite Hp.
      * rewrite effect_rest by (subst w0; cbn [isPlaying currentStep ran]; done).
        rewrite rerender_settled; apply settled_iff; subst w0;
          unfold deps;
          cbn [effect_deps isPlaying currentStep playbackSpeed ran];
          by rewrite Hp.
    + rewrite effect_stop by (subst w0; cbn [currentStep ran]; lia).
      destruct (isPlaying w) eqn:Hp.
      * set (w1 := setIsPlaying false w0).
        assert (effect_deps w1 = Some (true, currentStep w, playbackSpeed w))
          as Hd1 by (subst w1 w0; unfold deps;
                     cbn [effect_deps setIsPlaying ran]; by rewrite Hp).
        assert ((true, currentStep w, playbackSpeed w) <> deps w1) as Hne1
          by (subst w1 w0; unfold deps;
              cbn [isPlaying setIsPlaying]; congruence).
        assert (L <= currentStep w1)%Z as Hge1
          by (subst w1 w0; cbn [currentStep setIsPlaying ran]; lia).
        rewrite rerender_pending by (rewrite Hd1; congruence).
        rewrite (commit_pending steps _ _ Hd1 Hne1). fold (cleaned w1).
        rewrite effect_stop
          by (rewrite (proj1 (cleaned_frame w1)); exact Hge1).
        destruct (cleaned_frame w1)
          as (Hcs & Hip & Hsp & _ & _ & _ & Hed & _).
        rewrite rerender_settled; apply settled_iff;
          cbn [effect_deps isPlaying currentStep playbackSpeed setIsPlaying];
          rewrite Hed, Hcs, Hsp; subst w1; done.
      * rewrite rerender_settled; apply settled_iff; subst w0;
          unfold deps;
          cbn [effect_deps isPlaying currentStep playbackSpeed
               setIsPlaying ran];
          by rewrite Hp.
Qed.
End RenderFuel.

Section PlaybackTraces.
Import Speech Playback PlaybackShapes.
Variable steps : list AlgorithmStep.
Local Notation "'L'" := (last steps).

Lemma ticks_from_play voices k :
  let w := Nat.iter k (tick steps) (play steps (mounted steps voices)) in
  ((Z.of_nat k < L)%Z -> running_at steps (Z.of_nat k) w)
  /\ ((L <= Z.of_nat k)%Z -> idle_at (Z.max 0 L) w).
Proof.
  cbv zeta. induction k as [|k [IHrun IHidle]].
  - destruct (mounted_idle steps voices) as (Hidle & _).
    destruct (play_idle steps _ _ Hidle) as [Hrun Hstop].
    cbv zeta in Hrun, Hstop. cbn [Nat.iter nat_rect].
    assert ((if (0 >=? L)%Z then 0%Z else 0%Z) = 0%Z) as Hz
      by by destruct (0 >=? L)%Z.
    rewrite Hz in Hrun, Hstop. change (Z.of_nat 0) with 0%Z. split.
    + intros H. by destruct (Hrun H).
    + intros H. destruct (Hstop H) as [Hi _].
      by replace (Z.max 0 L) with 0%Z by lia.
  - rewrite Nat2Z.inj_succ, Nat.iter_succ.
    destruct (Z.lt_ge_cases (Z.of_nat k) L) as [Hlt|Hge].
    + destruct (tick_running steps _ _ (IHrun Hlt)) as [Hrun Hstop].
      split.
      * intros H. apply Hrun. lia.
      * intros H. replace (Z.max 0 L) with (Z.of_nat k + 1)%Z by lia.
        apply Hstop. lia.
    + rewrite (tick_idle steps _ _ (IHidle Hge)). split; [lia|].
      intros _. by apply IHidle.
Qed.

Lemma presses_of_next voices k :
  idle_at (Z.min (Z.of_nat k) (Z.max 0 L))
          (Nat.iter k (next steps) (mounted steps voices)).
Proof.
  induction k as [|k IH].
  - destruct (mounted_idle steps voices) as (Hidle & _).
    cbn [Nat.iter nat_rect].
    by replace (Z.min (Z.of_nat 0) (Z.max 0 L)) with 0%Z by lia.
  - rewrite Nat.iter_succ. apply (next_idle steps) in IH.
    replace (Z.min (Z.of_nat (S k)) (Z.max 0 L))
      with (if (Z.min (Z.of_nat k) (Z.max 0 L) <? L)%Z
            then (Z.min (Z.of_nat k) (Z.max 0 L) + 1)%Z
            else Z.min (Z.of_nat k) (Z.max 0 L)); [done|].
    destruct (Z.ltb_spec (Z.min (Z.of_nat k) (Z.max 0 L)) L); lia.
Qed.

(** *** A single step: nothing ever starts an interval *)

Lemma never_started_fire w ev :
  L = 0%Z -> never_started w -> never_started (fire steps w ev).
Proof.
  intros HL (Hidle & Hn & Hir).
  pose proof Hidle as (Hc & Hp & Hiv & Hs & Hpos).
  unfold settled, deps in Hs.
  destruct ev; cbn [fire].
  - destruct (play_idle steps _ _ Hidle) as [_ Hstop].
    cbv zeta in Hstop.
    assert ((if (0 >=? L)%Z then 0%Z else 0%Z) = 0%Z) as Hz
      by by destruct (0 >=? L)%Z.
    rewrite Hz in Hstop.
    destruct (Hstop ltac:(lia)) as (? & ? & ?).
    split; [done|]. split; congruence.
  - unfold next. rewrite decide_True by (rewrite Hc, HL; done). by split.
  - unfold previous. rewrite decide_True by done. by split.
  - unfold reset.
    assert (let w' := handleReset steps w in
            currentStep w' = 0%Z /\ isPlaying w' = false
            /\ playbackSpeed w' = playbackSpeed w
            /\ intervals w' = [] /\ next_id w' = 1%nat
            /\ intervalRef w' = None
            /\ effect_deps w' = Some (false, 0%Z, playbackSpeed w))
      as (Hc' & Hp' & Hsp' & Hiv' & Hn' & Hir' & Hd').
    { cbv zeta. unfold handleReset, handlePause.
      destruct (narrate_frame steps 0
                  (onStepChange 0
                     (with_synth stopSpeaking
                        (clear_ref (setIsPlaying false w))))) as [f ->].
      unfold clear_ref.
      cbn [currentStep isPlaying playbackSpeed intervalRef intervals
           next_id effect_deps synth onStepChange setIsPlaying with_synth].
      rewrite Hir.
      cbn [currentStep isPlaying playbackSpeed intervalRef intervals
           next_id effect_deps synth onStepChange setIsPlaying with_synth].
      rewrite Hs, Hp, Hc. done. }
    cbv zeta in *. unfold settle.
    rewrite rerender_settled
      by (unfold settled, deps; rewrite Hd', Hp', Hc', Hsp'; done).
    unfold never_started, idle_at, settled, deps.
    rewrite Hc', Hp', Hiv', Hn', Hir', Hd', Hsp'. repeat split; try done; lia.
  - unfold select. case_decide as Hi; [|by split].
    assert (index = 0)%nat as -> by (unfold last in HL; lia).
    unfold settle. rewrite rerender_settled.
    + unfold never_started, idle_at, settled, deps.
      cbn [currentStep isPlaying playbackSpeed intervalRef intervals
           next_id effect_deps synth onStepChange].
      rewrite Hs, Hp, Hc. repeat split; try done; lia.
    + unfold settled, deps.
      cbn [currentStep isPlaying playbackSpeed intervalRef intervals
           next_id effect_deps synth onStepChange].
      rewrite Hs, Hp, Hc. done.
  - unfold speed. rewrite Hp.
    destruct (decide (ms = playbackSpeed w)) as [->|Hms].
    + unfold settle. rewrite rerender_settled.
      * unfold never_started, idle_at, settled, deps.
        cbn [currentStep isPlaying playbackSpeed intervalRef intervals
             next_id effect_deps synth setPlaybackSpeed].
        rewrite Hs, Hp, Hc. repeat split; try done; lia.
      * unfold settled, deps.
        cbn [currentStep isPlaying playbackSpeed intervalRef intervals
             next_id effect_deps synth setPlaybackSpeed].
        rewrite Hs, Hp, Hc. done.
    + set (w' := setPlaybackSpeed ms w).
      assert (effect_deps w' = Some (false, 0%Z, playbackSpeed w)) as Hd'.
      { subst w'. cbn [effect_deps setPlaybackSpeed]. rewrite Hs, Hp, Hc.
        done. }
      assert ((false, 0%Z, playbackSpeed w) <> deps w') as Hne.
      { subst w'. unfold deps. cbn [playbackSpeed setPlaybackSpeed].
        congruence. }
      assert (owned w') as Hown.
      { apply owned_of_idle; subst w'; cbn [intervals next_id setPlaybackSpeed];
          [done|lia]. }
      destruct (settle_pending_stop steps _ _ Hd' Hne Hown) as (? & ? & ? & _).
      { subst w'. cbn [currentStep setPlaybackSpeed]. lia. }
      split; [|split].
      * subst w'. cbn [currentStep setPlaybackSpeed] in *. by rewrite <- Hc.
      * subst w'. cbn [next_id setPlaybackSpeed] in *. congruence.
      * subst w'. cbn [intervalRef setPlaybackSpeed] in *. congruence.
  - by rewrite (tick_idle steps _ _ Hidle).
Qed.

Lemma never_started_run evs w :
  L = 0%Z -> never_started w -> never_started (run steps evs w).
Proof.
  intros HL. revert w. induction evs as [|ev evs IH]; intros w H; [done|].
  cbn. apply IH. by apply never_started_fire.
Qed.

End PlaybackTraces.

(** C2. From step 0, pressing next [k] times leaves the controller on
    step [min k (len - 1)]: every call of [handleNext] below the last
    index adds exactly one, and a call on the last index changes nothing.
    In auto-play the interval's [k]-th tick leaves the controller on the
    same step, still playing with its single interval while that step is
    below the last index, and stopped without any interval from the tick
    that reaches the last index on; a render that finds the controller
    playing on the last index stops it without moving the step. *)
Theorem C2_next_increments_until_last_then_stops
    (steps : list Playback.AlgorithmStep) (voices : list Speech.Voice) :
  (forall w,
     Playback.currentStep (Playback.handleNext steps w)
     = if (Playback.currentStep w <? Playback.last steps)%Z
       then (Playback.currentStep w + 1)%Z
       else Playback.currentStep w)
  /\ (forall w, (Playback.last steps <= Playback.currentStep w)%Z ->
        Playback.handleNext steps w = w)
  /\ (forall k,
        let w := Nat.iter k (Playback.next steps)
                   (Playback.mounted steps voices) in
        Playback.currentStep w
        = Z.min (Z.of_nat k) (Z.max 0 (Playback.last steps))
        /\ Playback.isPlaying w = false)
  /\ (forall k,
        let w := Nat.iter k (Playback.tick steps)
                   (Playback.play steps (Playback.mounted steps voices)) in
        Playback.currentStep w
        = Z.min (Z.of_nat k) (Z.max 0 (Playback.last steps))
        /\ Playback.isPlaying w
           = bool_decide (Z.of_nat k < Playback.last steps)%Z
        /\ List.length (Playback.intervals w)
           = if bool_decide (Z.of_nat k < Playback.last steps)%Z
             then 1%nat else 0%nat)
  /\ (forall w d,
        Playback.effect_deps w = Some d -> d <> Playback.deps w ->
        Playback.isPlaying w = true ->
        (Playback.last steps <= Playback.currentStep w)%Z ->
        Playback.isPlaying (Playback.settle steps w) = false
        /\ Playback.currentStep (Playback.settle steps w)
           = Playback.currentStep w).
Proof.
  split; [|split; [|split; [|split]]].
  - intros w. unfold Playback.handleNext, Playback.handleNext_of.
    destruct (Playback.currentStep w <? Playback.last steps)%Z; [|done].
    destruct (narrate_frame steps (Playback.currentStep w + 1)
                (Playback.onStepChange (Playback.currentStep w + 1) w))
      as [f ->].
    done.
  - intros w H. unfold Playback.handleNext, Playback.handleNext_of.
    destruct (Z.ltb_spec (Playback.currentStep w) (Playback.last steps));
      [lia|done].
  - intros k. cbv zeta.
    destruct (presses_of_next steps voices k) as (Hc & Hp & _). done.
  - intros k. cbv zeta.
    destruct (ticks_from_play steps voices k) as [Hrun Hidle].
    cbv zeta in Hrun, Hidle.
    case_bool_decide as Hk.
    + destruct (Hrun Hk) as (Hc & Hp & _ & _ & _ & id & _ & _ & Hiv).
      rewrite Hc, Hp, Hiv. split; [lia|done].
    + destruct (Hidle ltac:(lia)) as (Hc & Hp & Hiv & _).
      rewrite Hc, Hp, Hiv. split; [lia|done].
  - intros w d Hd Hne _ Hge.
    destruct (settle_stop_core steps _ _ Hd Hne Hge) as (? & _ & ? & _).
    done.
Qed.

(** C10. Calling play on the last index first moves the controller back
    to step 0. With a single step, of which index 0 is the last, the
    controller is not playing after any sequence of events (play among
    them), no interval is ever created and the step stays 0. *)
Theorem C10_play_on_last_restarts_and_single_step_never_ticks
    (steps : list Playback.AlgorithmStep) :
  (forall w, (Playback.last steps <= Playback.currentStep w)%Z ->
     Playback.currentStep (Playback.handlePlay steps w) = 0%Z
     /\ Playback.isPlaying (Playback.handlePlay steps w) = true)
  /\ (List.length steps = 1%nat ->
      forall voices evs,
        let w := Playback.run steps evs (Playback.mounted steps voices) in
        Playback.isPlaying w = false
        /\ Playback.currentStep w = 0%Z
        /\ Playback.intervals w = []
        /\ Playback.next_id w
           = Playback.next_id (Playback.initial voices)).
Proof.
  split.
  - intros w H. unfold Playback.handlePlay.
    destruct (Z.geb_spec (Playback.currentStep w) (Playback.last steps));
      [done|lia].
  - intros Hlen voices evs. cbv zeta.
    assert (Playback.last steps = 0%Z) as HL
      by (unfold Playback.last; lia).
    destruct (never_started_run steps evs (Playback.mounted steps voices) HL)
      as ((Hc & Hp & Hiv & _) & Hn & _).
    { destruct (mounted_idle steps voices) as (? & ? & ? & _). by split. }
    done.
Qed.

(** * Further properties of the code *)

(** ** The playback controller's invariant *)

Section InvariantFacts.
Import Speech Playback PlaybackShapes PlaybackInvariant.
Variable steps : list AlgorithmStep.
Local Notation "'L'" := (last steps).

Ltac wsimpl :=
  unfold deps in *;
  cbn [currentStep isPlaying playbackSpeed intervalRef intervals next_id
       effect_deps synth onStepChange setIsPlaying setPlaybackSpeed
       with_synth clearInterval setInterval ran deps fst snd].

(** Where a render ends, from a world whose effect ran before and that
    owns its intervals. *)
Lemma settle_shape w d :
  effect_deps w = Some d -> owned w ->
  (d = deps w ->
   idle_at (currentStep w) w \/ running_at steps (currentStep w) w) ->
  (idle_at (currentStep w) (settle steps w)
   \/ running_at steps (currentStep w) (settle steps w))
  /\ synth (settle steps w) = synth w
  /\ currentStep (settle steps w) = currentStep w
  /\ playbackSpeed (settle steps w) = playbackSpeed w.
Proof.
  intros Hd Hown Hsame.
  destruct (settle_frame steps w) as (Hc & Hsp & Hsy).
  split; [|done].
  destruct (decide (d = deps w)) as [Heq|Hne].
  { unfold settle. rewrite rerender_settled by (unfold settled; congruence).
    by apply Hsame. }
  destruct (Z.lt_ge_cases (currentStep w) L) as [Hlt|Hge].
  - destruct (isPlaying w) eqn:Hp.
    + right. by destruct (settle_pending_play steps _ _ Hd Hne Hown Hp Hlt).
    + left. by destruct (settle_pending_rest steps _ _ Hd Hne Hown Hp Hlt).
  - left. by destruct (settle_pending_stop steps _ _ Hd Hne Hown Hge).
Qed.

(** The two shapes, read as facts about the fields. *)
Lemma consistent_fields w :
  consistent steps w ->
  effect_deps w = Some (isPlaying w, currentStep w, playbackSpeed w)
  /\ (0 < next_id w)%nat
  /\ (0 <= currentStep w <= Z.max 0 L)%Z
  /\ ((isPlaying w = false /\ intervals w = [])
      \/ (isPlaying w = true /\ (currentStep w < L)%Z
          /\ exists id, id <> 0%nat /\ intervalRef w = Some id
               /\ intervals w = [{| iv_id := id; iv_delay := playbackSpeed w;
                                    iv_closure := currentStep w |}])).
Proof.
  intros [[Hi|Hr] Hb].
  - destruct Hi as (_ & Hp & Hiv & Hs & Hn). repeat split; try done; try lia.
    by left.
  - destruct Hr as (_ & Hp & Hlt & Hs & Hn & id & Hid & Hir & Hiv).
    repeat split; try done; try lia. right. eauto 10.
Qed.

Lemma owned_of_fields w :
  (0 < next_id w)%nat ->
  intervals w = []
  \/ (exists id d c, id <> 0%nat /\ intervalRef w = Some id
        /\ intervals w = [{| iv_id := id; iv_delay := d; iv_closure := c |}]) ->
  owned w.
Proof.
  intros Hn [Hiv|(id & d & c & Hid & Hir & Hiv)]; split; try done.
  - by apply clear_ref_intervals_nil.
  - rewrite (clear_ref_Some _ _ Hir Hid). wsimpl. rewrite Hiv. cbn.
    by rewrite Nat.eqb_refl.
Qed.

(** A handler that keeps the recorded dependencies and the id counter,
    either empties the intervals or leaves them and [intervalRef] alone,
    and moves the step within bounds, keeps the world consistent once the
    render has settled. *)
Lemma consistent_after w w' :
  consistent steps w ->
  effect_deps w' = effect_deps w -> next_id w' = next_id w ->
  (intervals w' = []
   \/ (intervals w' = intervals w /\ intervalRef w' = intervalRef w)) ->
  (deps w' = deps w -> intervals w' = intervals w) ->
  (0 <= currentStep w' <= Z.max 0 L)%Z ->
  consistent steps (settle steps w')
  /\ synth (settle steps w') = synth w'
  /\ currentStep (settle steps w') = currentStep w'
  /\ playbackSpeed (settle steps w') = playbackSpeed w'
  /\ (isPlaying (settle steps w') = true
      <-> isPlaying w' = true /\ (currentStep w' < L)%Z).
Proof.
  intros Hcons Hd Hn Hiv Hsame Hb.
  destruct (consistent_fields _ Hcons) as (Hdeps & Hpos & _ & Hshape).
  assert (owned w') as Hown.
  { apply owned_of_fields; [lia|].
    destruct Hiv as [Hiv|[Hiv Hir]]; [by left|]. rewrite Hiv, Hir.
    destruct Hshape as [[_ ?]|(_ & _ & id & ? & ? & ?)]; [by left|].
    right. eauto 10. }
  assert (deps w' = deps w ->
          idle_at (currentStep w') w' \/ running_at steps (currentStep w') w')
    as Hkeep.
  { intros Heq. specialize (Hsame Heq). unfold deps in Heq.
    injection Heq as Hp Hc Hsp.
    destruct Hshape as [[Hpl Hnil]|(Hpl & Hlt & id & Hid & Hir & Hivs)].
    - left. unfold idle_at, settled, deps.
      rewrite Hsame, Hn, Hd, Hdeps, Hp, Hc, Hsp. repeat split; done.
    - right. unfold running_at, settled, deps.
      rewrite Hsame, Hn, Hd, Hdeps, Hp, Hc, Hsp.
      destruct Hiv as [Hiv|[_ Hir']].
      { rewrite Hsame, Hivs in Hiv. done. }
      rewrite Hir'. repeat split; try done. exists id. repeat split; done. }
  destruct (settle_shape w' (isPlaying w, currentStep w, playbackSpeed w))
    as (Hs & Hsy & Hc & Hsp'); [congruence|done| |].
  { intros Heq. by apply Hkeep. }
  split; [|split; [done|split; [done|split; [done|]]]].
  - unfold consistent. rewrite Hc. by split.
  - (* playing after the render: asked to play, and not on the last step *)
    destruct Hs as [Hi|Hr].
    + destruct Hi as (_ & Hp & _). rewrite Hp. split; [done|].
      intros [Hp' Hlt]. exfalso.
      destruct (decide ((isPlaying w, currentStep w, playbackSpeed w)
                        = deps w')) as [Heq|Hne].
      * unfold settle in Hp.
        rewrite rerender_settled in Hp by (unfold settled; congruence).
        congruence.
      * assert (effect_deps w'
                = Some (isPlaying w, currentStep w, playbackSpeed w)) as Hd'
          by congruence.
        destruct (settle_pending_play steps _ _ Hd' Hne Hown Hp' Hlt)
          as ((_ & Hp'' & _) & _).
        congruence.
    + destruct Hr as (_ & Hp & Hlt & _). rewrite Hp. split; [|done].
      intros _.
      destruct (decide ((isPlaying w, currentStep w, playbackSpeed w)
                        = deps w')) as [Heq|Hne].
      * unfold settle in Hp.
        rewrite rerender_settled in Hp by (unfold settled; congruence).
        split; [done|lia].
      * assert (effect_deps w'
                = Some (isPlaying w, currentStep w, playbackSpeed w)) as Hd'
          by congruence.
        destruct (isPlaying w') eqn:Hp'; [split; [done|lia]|].
        exfalso.
        destruct (Z.lt_ge_cases (currentStep w') L) as [Hlt'|Hge'].
        -- destruct (settle_pending_rest steps _ _ Hd' Hne Hown Hp' Hlt')
             as ((_ & Hp'' & _) & _).
           congruence.
        -- lia.
Qed.

(** *** The handlers on a consistent world *)

Lemma handlePause_fields w :
  consistent steps w ->
  isPlaying (handlePause w) = false
  /\ currentStep (handlePause w) = currentStep w
  /\ playbackSpeed (handlePause w) = playbackSpeed w
  /\ intervals (handlePause w) = []
  /\ next_id (handlePause w) = next_id w
  /\ effect_deps (handlePause w) = effect_deps w
  /\ synth (handlePause w) = stopSpeaking (synth w).
Proof.
  intros Hcons.
  destruct (consistent_fields _ Hcons) as (_ & Hpos & _ & Hshape).
  unfold handlePause. wsimpl.
  destruct (clear_ref_frame (setIsPlaying false w))
    as (-> & -> & -> & _ & -> & -> & ->).
  wsimpl. repeat split; try done.
  apply (owned_of_fields (setIsPlaying false w)); wsimpl; [done|].
  destruct Hshape as [[_ ?]|(_ & _ & id & ? & ? & ?)]; [by left|].
  right. eauto 10.
Qed.

Lemma consistent_mounted voices : consistent steps (mounted steps voices).
Proof.
  destruct (mounted_idle steps voices) as (Hidle & _).
  assert (currentStep (mounted steps voices) = 0%Z) as Hc by apply Hidle.
  unfold consistent. rewrite Hc. split; [by left|lia].
Qed.

Lemma consistent_fire w ev :
  consistent steps w -> consistent steps (fire steps w ev).
Proof.
  intros Hcons.
  destruct (consistent_fields _ Hcons) as (Hdeps & Hpos & Hb & Hshape).
  destruct ev; cbn [fire].
  - (* play or pause *)
    unfold play. destruct (isPlaying w) eqn:Hp.
    + destruct (handlePause_fields _ Hcons)
        as (Hp' & Hc' & Hsp' & Hiv' & Hn' & Hd' & _).
      remember (handlePause w) as w' eqn:Hw'. clear Hw'.
      apply (consistent_after w); try done; [by left| |lia].
      unfold deps. rewrite Hp', Hp. congruence.
    + apply (consistent_after w).
      * done.
      * unfold handlePlay. by destruct (currentStep w >=? L)%Z.
      * unfold handlePlay. by destruct (currentStep w >=? L)%Z.
      * right. unfold handlePlay. by destruct (currentStep w >=? L)%Z.
      * unfold handlePlay, deps.
        destruct (currentStep w >=? L)%Z; wsimpl; rewrite Hp; congruence.
      * unfold handlePlay.
        destruct (currentStep w >=? L)%Z; wsimpl; lia.
  - (* next *)
    unfold next. case_decide; [done|].
    unfold handleNext, handleNext_of.
    destruct (Z.ltb_spec (currentStep w) L).
    + destruct (narrate_frame steps (currentStep w + 1)
                  (onStepChange (currentStep w + 1) w)) as [f ->].
      apply (consistent_after w); try done; wsimpl; [by right|lia].
    + apply (consistent_after w); try done. by right.
  - (* previous *)
    unfold previous. case_decide; [done|].
    unfold handlePrevious.
    destruct (Z.gtb_spec (currentStep w) 0).
    + destruct (narrate_frame steps (currentStep w - 1)
                  (onStepChange (currentStep w - 1) w)) as [f ->].
      apply (consistent_after w); try done; wsimpl; [by right|lia].
    + apply (consistent_after w); try done. by right.
  - (* reset *)
    unfold reset, handleReset.
    destruct (handlePause_fields _ Hcons)
      as (Hp' & Hc' & Hsp' & Hiv' & Hn' & Hd' & _).
    remember (handlePause w) as w' eqn:Hw'. clear Hw'.
    destruct (narrate_frame steps 0 (onStepChange 0 w')) as [f ->].
    apply (consistent_after w); try done; wsimpl; [by left| |lia].
    intros Heq. injection Heq as Hpw _ _.
    destruct Hshape as [[_ ?]|(? & _)]; congruence.
  - (* a step of the list *)
    unfold select. case_decide; [|done].
    apply (consistent_after w); try done; wsimpl; [by right|].
    unfold last. lia.
  - (* the speed slider *)
    unfold speed. destruct (isPlaying w) eqn:Hp; [done|].
    apply (consistent_after w); try done; wsimpl. by right.
  - (* a tick of the interval *)
    unfold tick. destruct (intervals w) as [|t rest] eqn:Hiv; [done|].
    destruct Hshape as [[_ ?]|(Hp & Hlt & id & Hid & Hir & Hivs)];
      [congruence|].
    injection Hivs as -> ->. cbn [iv_closure].
    unfold handleNext_of.
    destruct (Z.ltb_spec (currentStep w) L); [|lia].
    destruct (narrate_frame steps (currentStep w + 1)
                (onStepChange (currentStep w + 1) w)) as [f ->].
    apply (consistent_after w); try done; wsimpl; [by right|lia].
Qed.

Lemma consistent_run evs w :
  consistent steps w -> consistent steps (run steps evs w).
Proof.
  revert w. induction evs as [|ev evs IH]; intros w H; [done|].
  cbn. apply IH. by apply consistent_fire.
Qed.

Lemma consistent_reached voices evs :
  consistent steps (run steps evs (mounted steps voices)).
Proof. apply consistent_run, consistent_mounted. Qed.

(** *** Moving the step with narration *)

Lemma step_at_Some n :
  (0 <= n <= L)%Z -> exists s, step_at steps n = Some s.
Proof.
  intros Hn. unfold step_at. destruct (Z.ltb_spec n 0); [lia|].
  apply lookup_lt_is_Some_2. unfold last in Hn. lia.
Qed.

Lemma synth_narrate n w :
  synth (narrate steps n w)
  = match step_at steps n with
    | Some s => speak (description s) (synth w)
    | None => synth w
    end.
Proof. unfold narrate. by destruct (step_at steps n). Qed.

Lemma consistent_moved w n :
  consistent steps w -> (0 <= n <= Z.max 0 L)%Z ->
  let w' := settle steps (narrate steps n (onStepChange n w)) in
  consistent steps w' /\ currentStep w' = n
  /\ playbackSpeed w' = playbackSpeed w
  /\ synth w' = synth (narrate steps n w)
  /\ (isPlaying w' = true <-> isPlaying w = true /\ (n < L)%Z).
Proof.
  intros Hcons Hn. cbv zeta.
  replace (synth (narrate steps n w))
    with (synth (narrate steps n (onStepChange n w)))
    by (by rewrite !synth_narrate).
  destruct (narrate_frame steps n (onStepChange n w)) as [f ->].
  destruct (consistent_after w (with_synth f (onStepChange n w)))
    as (H1 & H2 & H3 & H4 & H5);
    [done|done|done|by right|done|done|].
  revert H2 H3 H4 H5. wsimpl. intros H2 H3 H4 H5. done.
Qed.

Lemma next_moves w :
  consistent steps w -> (currentStep w < L)%Z ->
  next steps w
  = settle steps (narrate steps (currentStep w + 1)
                    (onStepChange (currentStep w + 1) w)).
Proof.
  intros _ Hlt. unfold next. rewrite decide_False by lia.
  unfold handleNext, handleNext_of.
  by destruct (Z.ltb_spec (currentStep w) L); [|lia].
Qed.

Lemma next_stays w :
  consistent steps w -> (L <= currentStep w)%Z -> next steps w = w.
Proof.
  intros Hcons Hge. unfold next. case_decide; [done|].
  unfold handleNext, handleNext_of.
  destruct (Z.ltb_spec (currentStep w) L); [lia|].
  unfold settle. apply rerender_settled.
  by destruct (consistent_fields _ Hcons) as (? & _).
Qed.

Lemma previous_moves w :
  (0 < currentStep w)%Z ->
  previous steps w
  = settle steps (narrate steps (currentStep w - 1)
                    (onStepChange (currentStep w - 1) w)).
Proof.
  intros Hgt. unfold previous. rewrite decide_False by lia.
  unfold handlePrevious.
  by destruct (Z.gtb_spec (currentStep w) 0); [|lia].
Qed.

Lemma previous_stays w :
  consistent steps w -> (currentStep w <= 0)%Z -> previous steps w = w.
Proof.
  intros Hcons Hle.
  destruct (consistent_fields _ Hcons) as (_ & _ & Hb & _).
  unfold previous. rewrite decide_True by lia. done.
Qed.

Lemma tick_moves w :
  consistent steps w -> isPlaying w = true ->
  (currentStep w < L)%Z
  /\ tick steps w
     = settle steps (narrate steps (currentStep w + 1)
                       (onStepChange (currentStep w + 1) w)).
Proof.
  intros Hcons Hp.
  destruct (consistent_fields _ Hcons) as (_ & _ & _ & Hshape).
  destruct Hshape as [[? _]|(_ & Hlt & id & _ & _ & Hiv)]; [congruence|].
  split; [done|].
  unfold tick. rewrite Hiv. cbn [iv_closure]. unfold handleNext_of.
  by destruct (Z.ltb_spec (currentStep w) L); [|lia].
Qed.

Lemma tick_stays w :
  consistent steps w -> isPlaying w = false -> tick steps w = w.
Proof.
  intros Hcons Hp.
  destruct (consistent_fields _ Hcons) as (_ & _ & _ & Hshape).
  destruct Hshape as [[_ Hiv]|(? & _)]; [|congruence].
  unfold tick. by rewrite Hiv.
Qed.

(** *** The other events *)

Lemma pause_facts w :
  consistent steps w -> isPlaying w = true ->
  let w' := play steps w in
  consistent steps w' /\ isPlaying w' = false
  /\ currentStep w' = currentStep w
  /\ playbackSpeed w' = playbackSpeed w
  /\ synth w' = stopSpeaking (synth w).
Proof.
  intros Hcons Hp. cbv zeta. unfold play. rewrite Hp.
  destruct (consistent_fields _ Hcons) as (_ & _ & Hb & _).
  destruct (handlePause_fields _ Hcons)
    as (Hp' & Hc' & Hsp' & Hiv' & Hn' & Hd' & Hsy').
  remember (handlePause w) as w' eqn:Hw'. clear Hw'.
  destruct (consistent_after w w') as (H1 & H2 & H3 & H4 & H5); try done.
  { by left. }
  { unfold deps. rewrite Hp', Hp. congruence. }
  { lia. }
  split; [done|split; [|repeat split; congruence]].
  destruct (isPlaying (settle steps w')); [|done].
  destruct H5 as [H5 _]. destruct (H5 eq_refl). congruence.
Qed.

Lemma play_facts w :
  consistent steps w -> isPlaying w = false ->
  let w' := play steps w in
  consistent steps w'
  /\ currentStep w' = (if (currentStep w >=? L)%Z then 0%Z else currentStep w)
  /\ playbackSpeed w' = playbackSpeed w
  /\ synth w' = synth w
  /\ (isPlaying w' = true <-> (0 < L)%Z).
Proof.
  intros Hcons Hp. cbv zeta. unfold play. rewrite Hp.
  destruct (consistent_fields _ Hcons) as (_ & _ & Hb & _).
  assert (let w' := handlePlay steps w in
          isPlaying w' = true
          /\ currentStep w'
             = (if (currentStep w >=? L)%Z then 0%Z else currentStep w)
          /\ playbackSpeed w' = playbackSpeed w
          /\ intervalRef w' = intervalRef w /\ intervals w' = intervals w
          /\ next_id w' = next_id w /\ effect_deps w' = effect_deps w
          /\ synth w' = synth w)
    as (Hp' & Hc' & Hsp' & Hir' & Hiv' & Hn' & Hd' & Hsy').
  { cbv zeta. unfold handlePlay. by destruct (currentStep w >=? L)%Z. }
  remember (handlePlay steps w) as w' eqn:Hw'. clear Hw'.
  destruct (consistent_after w w') as (H1 & H2 & H3 & H4 & H5); try done.
  { by right. }
  { rewrite Hc'. destruct (Z.geb_spec (currentStep w) L); lia. }
  split; [done|]. do 3 (split; [congruence|]). split.
  - intros H. apply H5 in H as [_ H]. rewrite Hc' in H.
    destruct (Z.geb_spec (currentStep w) L); lia.
  - intros H. apply H5. split; [done|]. rewrite Hc'.
    destruct (Z.geb_spec (currentStep w) L); lia.
Qed.

Lemma reset_facts w :
  consistent steps w ->
  let w' := reset steps w in
  consistent steps w' /\ isPlaying w' = false /\ currentStep w' = 0%Z
  /\ playbackSpeed w' = playbackSpeed w
  /\ synth w' = match step_at steps 0 with
                | Some s => speak (description s) (stopSpeaking (synth w))
                | None => stopSpeaking (synth w)
                end.
Proof.
  intros Hcons. cbv zeta. unfold reset, handleReset.
  destruct (consistent_fields _ Hcons) as (_ & _ & Hb & Hshape).
  destruct (handlePause_fields _ Hcons)
    as (Hp' & Hc' & Hsp' & Hiv' & Hn' & Hd' & Hsy').
  remember (handlePause w) as w' eqn:Hw'. clear Hw'.
  assert (synth (narrate steps 0 (onStepChange 0 w'))
          = match step_at steps 0 with
            | Some s => speak (description s) (stopSpeaking (synth w))
            | None => stopSpeaking (synth w)
            end) as Hsy.
  { rewrite synth_narrate. cbn [synth onStepChange]. by rewrite Hsy'. }
  revert Hsy.
  destruct (narrate_frame steps 0 (onStepChange 0 w')) as [f ->].
  intros Hsy.
  destruct (consistent_after w (with_synth f (onStepChange 0 w')))
    as (H1 & H2 & H3 & H4 & H5); try done.
  { by left. }
  { unfold deps. cbn [isPlaying intervals with_synth onStepChange].
    intros Heq. injection Heq as Hpw _ _.
    destruct Hshape as [[_ ?]|(? & _)]; congruence. }
  { cbn [currentStep with_synth onStepChange]. lia. }
  revert H3 H4 H5. cbn [currentStep playbackSpeed isPlaying with_synth
                        onStepChange].
  intros H3 H4 H5.
  split; [done|split; [|repeat split; congruence]].
  destruct (isPlaying (settle steps (with_synth f (onStepChange 0 w'))));
    [|done].
  destruct H5 as [H5 _]. destruct (H5 eq_refl). congruence.
Qed.

Lemma select_facts w index :
  consistent steps w -> (index < List.length steps)%nat ->
  let w' := select steps index w in
  consistent steps w' /\ currentStep w' = Z.of_nat index
  /\ playbackSpeed w' = playbackSpeed w
  /\ synth w' = synth w
  /\ (isPlaying w' = true <-> isPlaying w = true /\ (Z.of_nat index < L)%Z).
Proof.
  intros Hcons Hi. cbv zeta. unfold select. rewrite decide_True by done.
  destruct (consistent_after w (onStepChange (Z.of_nat index) w))
    as (H1 & H2 & H3 & H4 & H5); try done.
  { by right. }
  { cbn [currentStep onStepChange]. unfold last. lia. }
Qed.

Lemma speed_facts w ms :
  consistent steps w -> isPlaying w = false ->
  let w' := speed steps ms w in
  consistent steps w' /\ currentStep w' = currentStep w
  /\ playbackSpeed w' = ms
  /\ synth w' = synth w
  /\ isPlaying w' = false.
Proof.
  intros Hcons Hp. cbv zeta. unfold speed. rewrite Hp.
  destruct (consistent_fields _ Hcons) as (_ & _ & Hb & _).
  destruct (consistent_after w (setPlaybackSpeed ms w))
    as (H1 & H2 & H3 & H4 & H5); try done.
  { by right. }
  do 4 (split; [done|]).
  destruct (isPlaying (settle steps (setPlaybackSpeed ms w))); [|done].
  destruct H5 as [H5 _]. destruct (H5 eq_refl) as [H _].
  cbn [isPlaying setPlaybackSpeed] in H. congruence.
Qed.

Lemma unmount_facts w :
  consistent steps w ->
  intervals (unmount w) = []
  /\ synth (unmount w) = stopSpeaking (synth w)
  /\ currentStep (unmount w) = currentStep w.
Proof.
  intros Hcons.
  destruct (consistent_fields _ Hcons) as (_ & Hpos & _ & Hshape).
  assert (owned w) as [Hown _].
  { apply owned_of_fields; [done|].
    destruct Hshape as [[_ ?]|(_ & _ & id & ? & ? & ?)]; [by left|].
    right. eauto 10. }
  unfold unmount, cleanup. cbn [intervals synth currentStep with_synth].
  destruct (clear_ref_frame (clear_ref w)) as (-> & _ & _ & _ & _ & _ & ->).
  destruct (clear_ref_frame w) as (-> & _ & _ & _ & _ & _ & ->).
  split; [|done]. by apply clear_ref_intervals_nil.
Qed.

(** *** The voices are never touched *)

Lemma voices_narrate n w :
  voices (synth (narrate steps n w)) = voices (synth w).
Proof. rewrite synth_narrate. by destruct (step_at steps n). Qed.

Lemma voices_fire w ev :
  voices (synth (fire steps w ev)) = voices (synth w).
Proof.
  destruct ev; cbn [fire].
  - unfold play. rewrite synth_settle. destruct (isPlaying w).
    + by rewrite synth_handlePause.
    + unfold handlePlay. by destruct (currentStep w >=? L)%Z.
  - unfold next. case_decide; [done|]. rewrite synth_settle.
    unfold handleNext, handleNext_of.
    destruct (currentStep w <? L)%Z; [|done]. by rewrite voices_narrate.
  - unfold previous. case_decide; [done|]. rewrite synth_settle.
    unfold handlePrevious.
    destruct (currentStep w >? 0)%Z; [|done]. by rewrite voices_narrate.
  - unfold reset. rewrite synth_settle. unfold handleReset.
    rewrite voices_narrate. cbn [synth onStepChange].
    by rewrite synth_handlePause.
  - unfold select. case_decide; [|done]. by rewrite synth_settle.
  - unfold speed. destruct (isPlaying w); [done|]. by rewrite synth_settle.
  - unfold tick. destruct (intervals w) as [|t ?]; [done|].
    rewrite synth_settle. unfold handleNext_of.
    destruct (iv_closure t <? L)%Z; [|done]. by rewrite voices_narrate.
Qed.

Lemma voices_reached voices evs :
  Speech.voices (synth (run steps evs (mounted steps voices))) = voices.
Proof.
  assert (Speech.voices (synth (mounted steps voices)) = voices) as H0
    by (by rewrite synth_mounted).
  revert H0. generalize (mounted steps voices). intros w.
  revert w. induction evs as [|ev evs IH]; intros w H0; [done|].
  cbn. apply IH. by rewrite voices_fire.
Qed.

End InvariantFacts.

(** ** Narration on a step change *)

Section NarrationClaim.
Import Speech Playback PlaybackShapes PlaybackInvariant.

(** What [speak] leaves behind, whatever was queued. *)
Lemma speak_replaces text sy :
  let u := {| u_text := text; u_rate := 1; u_pitch := 1; u_volume := 1;
              u_voice := preferredVoice (voices sy) |} in
  calls (speak text sy) = calls sy ++ [Cancel; Speak u]
  /\ queue (speak text sy) = [u].
Proof.
  cbv zeta. unfold speak, speak_rate, enqueue, cancel. cbn.
  by rewrite <- app_assoc.
Qed.

(** A narrated move in a state reached from mount, in terms of the calls
    the synthesiser receives. *)
Lemma narrated_move steps (sy sy0 : Synth) (pre : list Call) n :
  (0 <= n <= last steps)%Z ->
  calls sy0 = calls sy ++ pre ->
  exists s u,
    step_at steps n = Some s
    /\ u_text u = description s
    /\ calls (speak (description s) sy0)
       = calls sy ++ pre ++ [Cancel; Speak u]
    /\ queue (speak (description s) sy0) = [u].
Proof.
  intros Hn Hpre. destruct (step_at_Some steps n Hn) as [s Hs].
  destruct (speak_replaces (description s) sy0) as [Hc Hq].
  cbv zeta in Hc, Hq. eexists s, _.
  split; [done|]. split; [|split; [|exact Hq]]; [done|].
  by rewrite Hc, Hpre, <- app_assoc.
Qed.

(** C8. Narration is exclusive. [speak] always cancels first: whatever
    was queued or being spoken is gone and the new utterance is the only
    one left. Next and previous, when they commit a step change within
    the list, make exactly this call for the description of the step
    arrived at, and reset makes it for the first step after a further
    cancel; next on the last index and previous on index 0 change nothing
    and say nothing. In every state reached from mount, whenever next,
    previous, reset or a tick of the interval changes the step, the calls
    it adds end with a cancel directly followed by the [speak] of the new
    step's description, which is then the only utterance queued. After
    any sequence of events every [speak] made so far came directly after
    a [cancel], and at most one utterance is queued or being spoken. *)
Theorem C8_narration_cancels_before_speaking (steps : list AlgorithmStep) :
  (forall text sy,
     let u := {| u_text := text; u_rate := 1; u_pitch := 1; u_volume := 1;
                 u_voice := preferredVoice (voices sy) |} in
     calls (speak text sy) = calls sy ++ [Cancel; Speak u]
     /\ queue (speak text sy) = [u])
  /\ (forall w, (0 <= currentStep w < last steps)%Z ->
        exists s,
          step_at steps (currentStep w + 1) = Some s
          /\ currentStep (handleNext steps w) = (currentStep w + 1)%Z
          /\ synth (handleNext steps w) = speak (description s) (synth w))
  /\ (forall w, (last steps <= currentStep w)%Z -> handleNext steps w = w)
  /\ (forall w, (0 < currentStep w <= last steps)%Z ->
        exists s,
          step_at steps (currentStep w - 1) = Some s
          /\ currentStep (handlePrevious steps w) = (currentStep w - 1)%Z
          /\ synth (handlePrevious steps w) = speak (description s) (synth w))
  /\ (forall w, (currentStep w <= 0)%Z -> handlePrevious steps w = w)
  /\ (forall w s, step_at steps 0 = Some s ->
        currentStep (handleReset steps w) = 0%Z
        /\ synth (handleReset steps w)
           = speak (description s) (stopSpeaking (synth w)))
  /\ (forall h w,
        h ∈ [handleNext steps; handlePrevious steps; handleReset steps] ->
        exists issued,
          calls (synth (h w)) = calls (synth w) ++ issued
          /\ cancel_before_speak issued = true
          /\ forall u, Speak u ∈ issued -> queue (synth (h w)) = [u])
  /\ (forall voices evs ev,
        ev ∈ [Next; Previous; Reset; Tick] ->
        let w := run steps evs (mounted steps voices) in
        let w' := fire steps w ev in
        currentStep w' <> currentStep w ->
        exists s u pre,
          step_at steps (currentStep w') = Some s
          /\ u_text u = description s
          /\ calls (synth w') = calls (synth w) ++ pre ++ [Cancel; Speak u]
          /\ Forall (fun c => c = Cancel) pre
          /\ queue (synth w') = [u])
  /\ (forall voices evs,
        let sy := synth (run steps evs (mounted steps voices)) in
        cancel_before_speak (calls sy) = true
        /\ (List.length (queue sy) <= 1)%nat).
Proof.
  split; [exact speak_replaces|].
  split.
  { intros w Hc.
    destruct (step_at_Some steps (currentStep w + 1)) as [s Hs]; [lia|].
    exists s. split; [done|].
    unfold handleNext, handleNext_of.
    destruct (Z.ltb_spec (currentStep w) (last steps)); [|lia].
    unfold narrate. rewrite Hs. by cbn. }
  split.
  { intros w Hc. unfold handleNext, handleNext_of.
    by destruct (Z.ltb_spec (currentStep w) (last steps)); [lia|]. }
  split.
  { intros w Hc.
    destruct (step_at_Some steps (currentStep w - 1)) as [s Hs]; [lia|].
    exists s. split; [done|].
    unfold handlePrevious.
    destruct (Z.gtb_spec (currentStep w) 0); [|lia].
    unfold narrate. rewrite Hs. by cbn. }
  split.
  { intros w Hc. unfold handlePrevious.
    by destruct (Z.gtb_spec (currentStep w) 0); [lia|]. }
  split.
  { intros w s Hs. unfold handleReset, narrate. rewrite Hs.
    cbn [currentStep synth with_synth onStepChange].
    by rewrite synth_handlePause. }
  split.
  { intros h w Hh.
    repeat (apply elem_of_cons in Hh as [-> | Hh]);
      [ apply issues_handleNext | apply issues_handlePrevious
      | apply issues_handleReset | by apply elem_of_nil in Hh ]. }
  split.
  { intros voices evs ev Hev. cbv zeta.
    pose proof (consistent_reached steps voices evs) as Hcons.
    set (w := run steps evs (mounted steps voices)) in *. clearbody w.
    destruct (consistent_fields steps _ Hcons) as (_ & _ & Hb & _).
    assert (forall n,
              (0 <= n <= last steps)%Z ->
              let w' := settle steps (narrate steps n (onStepChange n w)) in
              exists s u pre,
                step_at steps (currentStep w') = Some s
                /\ u_text u = description s
                /\ calls (synth w') = calls (synth w) ++ pre ++ [Cancel; Speak u]
                /\ Forall (fun c => c = Cancel) pre
                /\ queue (synth w') = [u]) as Hmove.
    { intros n Hn. cbv zeta.
      destruct (consistent_moved steps w n Hcons) as (_ & Hc & _ & Hsy & _);
        [lia|]. cbv zeta in *.
      destruct (narrated_move steps (synth w) (synth w) [] n Hn)
        as (s & u & Hs & Ht & Hcalls & Hq); [by rewrite app_nil_r|].
      exists s, u, []. rewrite Hc, Hsy, synth_narrate, Hs.
      by repeat split. }
    repeat (apply elem_of_cons in Hev as [-> | Hev]); cbn [fire].
    - destruct (Z.lt_ge_cases (currentStep w) (last steps)) as [Hlt|Hge].
      + intros _. rewrite (next_moves steps _ Hcons Hlt).
        apply Hmove. lia.
      + rewrite (next_stays steps _ Hcons Hge). done.
    - destruct (Z.lt_ge_cases 0 (currentStep w)) as [Hgt|Hle].
      + intros _. rewrite (previous_moves steps _ Hgt). apply Hmove. lia.
      + rewrite (previous_stays steps _ Hcons Hle). done.
    - intros Hne.
      destruct (reset_facts steps w Hcons) as (_ & _ & Hc & _ & Hsy).
      cbv zeta in *. rewrite Hc in Hne |- *.
      destruct (narrated_move steps (synth w) (stopSpeaking (synth w))
                  [Cancel] 0) as (s & u & Hs & Ht & Hcalls & Hq);
        [lia|done|].
      exists s, u, [Cancel]. rewrite Hsy, Hs.
      split; [done|]. split; [done|]. split; [done|].
      split; [by repeat constructor|done].
    - destruct (isPlaying w) eqn:Hp.
      + intros _. destruct (tick_moves steps _ Hcons Hp) as [Hlt ->].
        apply Hmove. lia.
      + rewrite (tick_stays steps _ Hcons Hp). done.
    - by apply elem_of_nil in Hev. }
  intros voices evs. cbv zeta. apply exclusive_run.
  rewrite synth_mounted. split; [done|cbn; lia].
Qed.

End NarrationClaim.

(** ** The playback controller after any sequence of events *)

Section PlaybackProperties.
Import Speech Playback PlaybackShapes PlaybackInvariant PlaybackSamples.

(** X1. After any sequence of events from mount the controller is
    either not playing, with no live interval, or playing below the last
    index with exactly one live interval: the one [intervalRef] names,
    whose delay is the current [playbackSpeed] and whose [handleNext] has
    closed over the step now displayed. *)
Theorem X1_one_fresh_interval_exactly_while_playing
    (steps : list AlgorithmStep) (voices : list Voice) (evs : list Event) :
  let w := run steps evs (mounted steps voices) in
  (isPlaying w = false /\ intervals w = [])
  \/ (isPlaying w = true /\ (currentStep w < last steps)%Z
      /\ exists id, intervalRef w = Some id
           /\ intervals w = [{| iv_id := id; iv_delay := playbackSpeed w;
                                iv_closure := currentStep w |}]).
Proof.
  cbv zeta.
  destruct (consistent_fields steps _ (consistent_reached steps voices evs))
    as (_ & _ & _ & [H|(Hp & Hlt & id & _ & Hir & Hiv)]); [by left|].
  right. eauto 10.
Qed.

(** X2. With at least one step, the index stays within the list after
    any sequence of events from mount, so the step display always has a
    step to show. *)
Theorem X2_displayed_step_always_exists
    (steps : list AlgorithmStep) (voices : list Voice) (evs : list Event) :
  steps <> [] ->
  let w := run steps evs (mounted steps voices) in
  (0 <= currentStep w < Z.of_nat (List.length steps))%Z
  /\ exists s, step_at steps (currentStep w) = Some s.
Proof.
  intros Hne. cbv zeta.
  destruct (consistent_fields steps _ (consistent_reached steps voices evs))
    as (_ & _ & Hb & _).
  assert (0 <= last steps)%Z as HL.
  { unfold last. destruct steps; [done|]. cbn [List.length]. lia. }
  split; [unfold last in *; lia|].
  apply step_at_Some. lia.
Qed.

Lemma X2_displayed_step_always_exists_witness :
  three_steps <> []
  /\ (0 <= currentStep (run three_steps [Play; Tick; Tick; Tick; Previous]
                          (mounted three_steps []))
      < Z.of_nat (List.length three_steps))%Z.
Proof.
  split; [discriminate|].
  apply (X2_displayed_step_always_exists three_steps []
           [Play; Tick; Tick; Tick; Previous]).
  discriminate.
Defined.

(** X3. Pausing in any state reached while playing stops the playback,
    removes the interval, empties the speech queue with one [cancel], so
    that nothing is being spoken, and leaves the step and the speed as
    they were. *)
Theorem X3_pause_stops_interval_and_speech
    (steps : list AlgorithmStep) (voices : list Voice) (evs : list Event) :
  let w := run steps evs (mounted steps voices) in
  isPlaying w = true ->
  isPlaying (play steps w) = false
  /\ intervals (play steps w) = []
  /\ currentStep (play steps w) = currentStep w
  /\ playbackSpeed (play steps w) = playbackSpeed w
  /\ queue (synth (play steps w)) = []
  /\ isSpeaking (synth (play steps w)) = false
  /\ calls (synth (play steps w)) = calls (synth w) ++ [Cancel].
Proof.
  cbv zeta. intros Hp.
  pose proof (consistent_reached steps voices evs) as Hcons.
  destruct (pause_facts steps _ Hcons Hp) as (Hc' & Hp' & Hcs & Hsp & Hsy).
  cbv zeta in *.
  destruct (consistent_fields steps _ Hc')
    as (_ & _ & _ & [[_ Hiv]|(? & _)]); [|congruence].
  rewrite Hsy. done.
Qed.

Lemma X3_pause_stops_interval_and_speech_witness :
  isPlaying (run three_steps [Play; Tick] (mounted three_steps [])) = true
  /\ intervals (play three_steps
                  (run three_steps [Play; Tick] (mounted three_steps [])))
     = [].
Proof.
  split; [reflexivity|].
  apply (X3_pause_stops_interval_and_speech three_steps [] [Play; Tick]).
  reflexivity.
Defined.

(** X4. The reset button, in any state reached from mount, leaves the
    controller on step 0, not playing and without interval; the only
    utterance queued afterwards is the description of the first step
    (none when there are no steps), at rate, pitch and volume 1 and with
    the preferred voice. *)
Theorem X4_reset_returns_to_first_step
    (steps : list AlgorithmStep) (voices : list Voice) (evs : list Event) :
  let w := reset steps (run steps evs (mounted steps voices)) in
  currentStep w = 0%Z /\ isPlaying w = false /\ intervals w = []
  /\ queue (synth w)
     = match steps with
       | [] => []
       | s :: _ => [{| u_text := description s; u_rate := 1; u_pitch := 1;
                       u_volume := 1; u_voice := preferredVoice voices |}]
       end.
Proof.
  cbv zeta.
  pose proof (consistent_reached steps voices evs) as Hcons.
  pose proof (voices_reached steps voices evs) as Hv.
  destruct (reset_facts steps _ Hcons) as (Hc' & Hp' & Hcs & Hsp & Hsy).
  cbv zeta in *.
  destruct (consistent_fields steps _ Hc')
    as (_ & _ & _ & [[_ Hiv]|(? & _)]); [|congruence].
  do 3 (split; [done|]). rewrite Hsy.
  remember (synth (run steps evs (mounted steps voices))) as sy eqn:Hsy0.
  clear - Hv. destruct sy as [vs q cs]. cbn in Hv. subst vs.
  by destruct steps as [|s rest].
Qed.

(** X5. When the component goes away in any state reached from mount,
    no interval is left alive, nothing is left in the speech queue and
    nothing is being spoken; the step is not touched. *)
Theorem X5_unmount_leaves_nothing_running
    (steps : list AlgorithmStep) (voices : list Voice) (evs : list Event) :
  let w := run steps evs (mounted steps voices) in
  intervals (unmount w) = []
  /\ queue (synth (unmount w)) = []
  /\ isSpeaking (synth (unmount w)) = false
  /\ currentStep (unmount w) = currentStep w.
Proof.
  cbv zeta.
  destruct (unmount_facts steps _ (consistent_reached steps voices evs))
    as (Hiv & Hsy & Hc).
  rewrite Hsy. done.
Qed.

(** X6. Next and previous undo one another on the step index: below the
    last index, previous after next is back on the step it started from,
    and above index 0 so is next after previous; the utterance left in the
    queue is then the description of that step. *)
Theorem X6_next_and_previous_are_inverse
    (steps : list AlgorithmStep) (voices : list Voice) (evs : list Event) :
  let w := run steps evs (mounted steps voices) in
  ((currentStep w < last steps)%Z ->
     currentStep (previous steps (next steps w)) = currentStep w
     /\ exists s u, step_at steps (currentStep w) = Some s
          /\ queue (synth (previous steps (next steps w))) = [u]
          /\ u_text u = description s)
  /\ ((0 < currentStep w)%Z ->
     currentStep (next steps (previous steps w)) = currentStep w
     /\ exists s u, step_at steps (currentStep w) = Some s
          /\ queue (synth (next steps (previous steps w))) = [u]
          /\ u_text u = description s).
Proof.
  cbv zeta.
  pose proof (consistent_reached steps voices evs) as Hcons.
  set (w := run steps evs (mounted steps voices)) in *. clearbody w.
  destruct (consistent_fields steps _ Hcons) as (_ & _ & Hb & _).
  split; intros Hc.
  - rewrite (next_moves steps _ Hcons Hc).
    destruct (consistent_moved steps w (currentStep w + 1) Hcons)
      as (Hcons1 & Hc1 & _); [lia|]. cbv zeta in *.
    set (w1 := settle steps _) in *. clearbody w1.
    rewrite (previous_moves steps w1) by lia.
    destruct (consistent_moved steps w1 (currentStep w1 - 1) Hcons1)
      as (_ & Hc2 & _ & Hsy2 & _); [lia|]. cbv zeta in *.
    rewrite Hc2, Hsy2, synth_narrate, Hc1.
    replace (currentStep w + 1 - 1)%Z with (currentStep w) by lia.
    split; [done|].
    destruct (step_at_Some steps (currentStep w)) as [s Hs]; [lia|].
    rewrite Hs.
    destruct (speak_calls (description s) (synth w1)) as (u & _ & Hq & Ht).
    eauto 10.
  - rewrite (previous_moves steps _ Hc).
    destruct (consistent_moved steps w (currentStep w - 1) Hcons)
      as (Hcons1 & Hc1 & _); [lia|]. cbv zeta in *.
    set (w1 := settle steps _) in *. clearbody w1.
    rewrite (next_moves steps w1 Hcons1) by lia.
    destruct (consistent_moved steps w1 (currentStep w1 + 1) Hcons1)
      as (_ & Hc2 & _ & Hsy2 & _); [lia|]. cbv zeta in *.
    rewrite Hc2, Hsy2, synth_narrate, Hc1.
    replace (currentStep w - 1 + 1)%Z with (currentStep w) by lia.
    split; [done|].
    destruct (step_at_Some steps (currentStep w)) as [s Hs]; [lia|].
    rewrite Hs.
    destruct (speak_calls (description s) (synth w1)) as (u & _ & Hq & Ht).
    eauto 10.
Qed.

Lemma X6_next_and_previous_are_inverse_witness :
  currentStep (previous three_steps
                 (next three_steps
                    (run three_steps [Next] (mounted three_steps []))))
  = currentStep (run three_steps [Next] (mounted three_steps [])).
Proof.
  apply (X6_next_and_previous_are_inverse three_steps [] [Next]).
  vm_compute. reflexivity.
Defined.

(** X7. In any state reached from mount, the next button, the previous
    button and a tick of the interval either change nothing at all or
    move the step by exactly one, and then the synthesiser is told to
    speak exactly the description of the step arrived at, which exists. *)
Theorem X7_moves_narrate_the_step_arrived_at
    (steps : list AlgorithmStep) (voices : list Voice) (evs : list Event)
    (ev : Event) :
  ev ∈ [Next; Previous; Tick] ->
  let w := run steps evs (mounted steps voices) in
  let w' := fire steps w ev in
  w' = w
  \/ ((currentStep w' = currentStep w + 1
       \/ currentStep w' = currentStep w - 1)%Z
      /\ exists s, step_at steps (currentStep w') = Some s
           /\ synth w' = speak (description s) (synth w)).
Proof.
  intros Hev. cbv zeta.
  pose proof (consistent_reached steps voices evs) as Hcons.
  set (w := run steps evs (mounted steps voices)) in *. clearbody w.
  destruct (consistent_fields steps _ Hcons) as (_ & _ & Hb & _).
  assert (forall n,
            (0 <= n <= last steps)%Z ->
            let w' := settle steps (narrate steps n (onStepChange n w)) in
            currentStep w' = n
            /\ exists s, step_at steps (currentStep w') = Some s
                 /\ synth w' = speak (description s) (synth w)) as Hmove.
  { intros n Hn. cbv zeta.
    destruct (consistent_moved steps w n Hcons) as (_ & Hc & _ & Hsy & _);
      [lia|]. cbv zeta in *.
    split; [done|].
    destruct (step_at_Some steps n Hn) as [s Hs].
    exists s. rewrite Hc, Hsy, synth_narrate, Hs. done. }
  repeat (apply elem_of_cons in Hev as [-> | Hev]); cbn [fire].
  - destruct (Z.lt_ge_cases (currentStep w) (last steps)) as [Hlt|Hge].
    + right. rewrite (next_moves steps _ Hcons Hlt).
      destruct (Hmove (currentStep w + 1)%Z) as [Hc Hs]; [lia|].
      cbv zeta in *. split; [by left|done].
    + left. by apply next_stays.
  - destruct (Z.lt_ge_cases 0 (currentStep w)) as [Hgt|Hle].
    + right. rewrite (previous_moves steps _ Hgt).
      destruct (Hmove (currentStep w - 1)%Z) as [Hc Hs]; [lia|].
      cbv zeta in *. split; [by right|done].
    + left. by apply previous_stays.
  - destruct (isPlaying w) eqn:Hp.
    + right. destruct (tick_moves steps _ Hcons Hp) as [Hlt ->].
      destruct (Hmove (currentStep w + 1)%Z) as [Hc Hs]; [lia|].
      cbv zeta in *. split; [by left|done].
    + left. by apply tick_stays.
  - by apply elem_of_nil in Hev.
Qed.

Lemma X7_moves_narrate_the_step_arrived_at_witness :
  Tick ∈ [Next; Previous; Tick]
  /\ (fire three_steps
        (run three_steps [Play] (mounted three_steps [])) Tick
      = run three_steps [Play] (mounted three_steps [])
      \/ ((currentStep
             (fire three_steps
                (run three_steps [Play] (mounted three_steps [])) Tick)
           = currentStep (run three_steps [Play] (mounted three_steps []))
             + 1
           \/ currentStep
                (fire three_steps
                   (run three_steps [Play] (mounted three_steps [])) Tick)
              = currentStep (run three_steps [Play] (mounted three_steps []))
                - 1)%Z
          /\ exists s,
               step_at three_steps
                 (currentStep
                    (fire three_steps
                       (run three_steps [Play] (mounted three_steps []))
                       Tick)) = Some s
               /\ synth
                    (fire three_steps
                       (run three_steps [Play] (mounted three_steps []))
                       Tick)
                  = speak (description s)
                      (synth
                         (run three_steps [Play]
                            (mounted three_steps []))))).
Proof.
  assert (Tick ∈ [Next; Previous; Tick]) as H by (do 2 right; left).
  split; [exact H|].
  exact (X7_moves_narrate_the_step_arrived_at three_steps [] [Play] Tick H).
Defined.

(** X8. Choosing a step from the list, moving the speed slider and
    starting playback never address the synthesiser, whatever the state;
    pausing only cancels. *)
Theorem X8_select_speed_and_play_never_speak
    (steps : list AlgorithmStep) (w : World) (index : nat) (ms : Z) :
  synth (select steps index w) = synth w
  /\ synth (speed steps ms w) = synth w
  /\ synth (play steps w)
     = if isPlaying w then stopSpeaking (synth w) else synth w.
Proof.
  split; [|split].
  - unfold select. case_decide; [|done]. by rewrite synth_settle.
  - unfold speed. destruct (isPlaying w); [done|]. by rewrite synth_settle.
  - unfold play. rewrite synth_settle. destruct (isPlaying w).
    + by rewrite synth_handlePause.
    + unfold handlePlay. by destruct (currentStep w >=? last steps)%Z.
Qed.

(** X9. With at least two steps, setting the speed while stopped and
    then pressing play always starts playback: from the step shown, or
    from step 0 when that was the last one, with one interval whose delay
    is the speed just chosen. *)
Theorem X9_play_uses_the_speed_chosen_while_stopped
    (steps : list AlgorithmStep) (voices : list Voice) (evs : list Event)
    (ms : Z) :
  let w := run steps evs (mounted steps voices) in
  isPlaying w = false -> (1 < List.length steps)%nat ->
  let w' := play steps (speed steps ms w) in
  isPlaying w' = true
  /\ currentStep w'
     = (if (currentStep w >=? last steps)%Z then 0%Z else currentStep w)
  /\ exists id,
       intervals w' = [{| iv_id := id; iv_delay := ms;
                          iv_closure := currentStep w' |}].
Proof.
  cbv zeta. intros Hp Hlen.
  pose proof (consistent_reached steps voices evs) as Hcons.
  set (w := run steps evs (mounted steps voices)) in *. clearbody w.
  destruct (speed_facts steps w ms Hcons Hp)
    as (Hcons1 & Hc1 & Hsp1 & _ & Hp1). cbv zeta in *.
  set (w1 := speed steps ms w) in *. clearbody w1.
  destruct (play_facts steps w1 Hcons1 Hp1)
    as (Hcons2 & Hc2 & Hsp2 & _ & Hp2). cbv zeta in *.
  assert (isPlaying (play steps w1) = true) as Hpl
    by (apply Hp2; unfold last; lia).
  split; [done|]. split; [by rewrite Hc2, Hc1|].
  destruct (consistent_fields steps _ Hcons2)
    as (_ & _ & _ & [[? _]|(_ & _ & id & _ & _ & Hiv)]); [congruence|].
  exists id. rewrite Hiv. by rewrite Hsp2, Hsp1.
Qed.

Lemma X9_play_uses_the_speed_chosen_while_stopped_witness :
  isPlaying (run three_steps [Next; Next] (mounted three_steps [])) = false
  /\ (1 < List.length three_steps)%nat
  /\ isPlaying (play three_steps
                  (speed three_steps 400
                     (run three_steps [Next; Next]
                        (mounted three_steps [])))) = true.
Proof.
  split; [reflexivity|]. split; [cbn; lia|].
  apply (X9_play_uses_the_speed_chosen_while_stopped three_steps []
           [Next; Next] 400); [reflexivity|cbn; lia].
Defined.

(** X10. Choosing step [index] of the list, in any state reached from
    mount, shows that step; a playback in progress goes on from there,
    unless the step chosen is the last one, which stops it. *)
Theorem X10_select_jumps_and_stops_only_on_last
    (steps : list AlgorithmStep) (voices : list Voice) (evs : list Event)
    (index : nat) :
  (index < List.length steps)%nat ->
  let w := run steps evs (mounted steps voices) in
  let w' := select steps index w in
  currentStep w' = Z.of_nat index
  /\ isPlaying w' = isPlaying w && (Z.of_nat index <? last steps)%Z
  /\ playbackSpeed w' = playbackSpeed w.
Proof.
  intros Hi. cbv zeta.
  pose proof (consistent_reached steps voices evs) as Hcons.
  set (w := run steps evs (mounted steps voices)) in *. clearbody w.
  destruct (select_facts steps w index Hcons Hi)
    as (_ & Hc & Hsp & _ & Hp). cbv zeta in *.
  split; [done|]. split; [|done].
  destruct (isPlaying (select steps index w)) eqn:Hp'.
  - destruct Hp as [Hp _]. destruct (Hp eq_refl) as [-> Hlt].
    by destruct (Z.ltb_spec (Z.of_nat index) (last steps)); [|lia].
  - destruct (isPlaying w); [|done].
    destruct (Z.ltb_spec (Z.of_nat index) (last steps)); [|done].
    destruct Hp as [_ Hp]. discriminate Hp. by split.
Qed.

Lemma X10_select_jumps_and_stops_only_on_last_witness :
  (2 < List.length three_steps)%nat
  /\ currentStep (select three_steps 2
                    (run three_steps [Play] (mounted three_steps [])))
     = 2%Z.
Proof.
  split; [cbn; lia|].
  apply (X10_select_jumps_and_stops_only_on_last three_steps [] [Play] 2).
  cbn; lia.
Defined.

(** X11. In any state reached from mount in which the controller is
    playing, a tick of the interval advances the step by exactly one, and
    the playback goes on exactly when the new step is not the last. *)
Theorem X11_every_tick_advances_by_one
    (steps : list AlgorithmStep) (voices : list Voice) (evs : list Event) :
  let w := run steps evs (mounted steps voices) in
  isPlaying w = true ->
  currentStep (tick steps w) = (currentStep w + 1)%Z
  /\ isPlaying (tick steps w)
     = bool_decide (currentStep w + 1 < last steps)%Z
  /\ playbackSpeed (tick steps w) = playbackSpeed w.
Proof.
  cbv zeta. intros Hp.
  pose proof (consistent_reached steps voices evs) as Hcons.
  set (w := run steps evs (mounted steps voices)) in *. clearbody w.
  destruct (consistent_fields steps _ Hcons) as (_ & _ & Hb & _).
  destruct (tick_moves steps _ Hcons Hp) as [Hlt ->].
  destruct (consistent_moved steps w (currentStep w + 1) Hcons)
    as (_ & Hc & Hsp & _ & Hpl); [lia|]. cbv zeta in *.
  split; [done|]. split; [|done].
  case_bool_decide as Hk.
  - apply Hpl. by split.
  - destruct (isPlaying (settle steps _)); [|done].
    destruct Hpl as [Hpl _]. destruct (Hpl eq_refl). lia.
Qed.

Lemma X11_every_tick_advances_by_one_witness :
  isPlaying (run three_steps [Play] (mounted three_steps [])) = true
  /\ currentStep (tick three_steps
                    (run three_steps [Play] (mounted three_steps [])))
     = (currentStep (run three_steps [Play] (mounted three_steps [])) + 1)%Z.
Proof.
  split; [reflexivity|].
  apply (X11_every_tick_advances_by_one three_steps [] [Play]).
  reflexivity.
Defined.

End PlaybackProperties.

(** ** The voice that [speak] picks *)

Section SpeechProperties.
Import Speech.

(** X12. The voice given to an utterance: none exactly when the browser
    offers no voice; otherwise one of the offered voices, an English one
    whenever any is offered, and an English Google voice whenever one of
    those is offered. *)
Theorem X12_preferred_voice_is_the_best_offered (vs : list Voice) :
  match preferredVoice vs with
  | None => vs = []
  | Some v =>
      v ∈ vs
      /\ ((exists e, e ∈ vs /\ String.prefix "en" (lang e) = true) ->
          String.prefix "en" (lang v) = true)
      /\ ((exists e, e ∈ vs /\ String.prefix "en" (lang e) = true
                     /\ includes "Google" (name e) = true) ->
          String.prefix "en" (lang v) = true
          /\ includes "Google" (name v) = true)
  end.
Proof.
  unfold preferredVoice.
  destruct (List.find _ vs) as [v|] eqn:Hg.
  { apply List.find_some in Hg as [Hin Hv].
    apply andb_prop in Hv as [He Hgo].
    split; [by apply list_elem_of_In|]. by split. }
  pose proof (List.find_none _ _ Hg) as Hnone. clear Hg.
  destruct (List.find _ vs) as [v|] eqn:He.
  { apply List.find_some in He as [Hin Hv].
    split; [by apply list_elem_of_In|]. split; [done|].
    intros (e & Hine & Hen & Hgo). apply list_elem_of_In in Hine.
    specialize (Hnone e Hine). cbn in Hnone.
    rewrite Hen, Hgo in Hnone. done. }
  pose proof (List.find_none _ _ He) as Hnone'. clear He.
  destruct vs as [|v rest]; [done|]. cbn [List.head].
  split; [by left|]. split.
  - intros (e & Hine & Hen). apply list_elem_of_In in Hine.
    specialize (Hnone' e Hine). cbn in Hnone'. congruence.
  - intros (e & Hine & Hen & _). apply list_elem_of_In in Hine.
    specialize (Hnone' e Hine). cbn in Hnone'. congruence.
Qed.

End SpeechProperties.

(** ** What the component returns *)

Section VisualizerProperties.
Import Visualizer.

(** X13. The component returns its JSX, instead of throwing while it
    renders, exactly when the type tag is a string, the payload is
    neither [undefined] nor [null], its [length] (an object's own
    property of that name) is something React accepts as a child, and
    the element at the current step is falsy (then [N/A] is shown) or
    something React accepts as a child. *)
Theorem X13_component_renders_exactly_when
    (data : VisualizationData) (currentStep : Z) :
  throws (AlgorithmVisualizer data currentStep) = false
  <-> (exists s, vd_type data = JStr s)
      /\ vd_data data <> JUndefined /\ vd_data data <> JNull
      /\ (forall props, vd_data data = JObj props ->
            valid_child (get "length" props) = true)
      /\ (truthy (data_at (vd_data data) currentStep) = true ->
          valid_child (data_at (vd_data data) currentStep) = true).
Proof.
  destruct data as [ty d]. cbn [vd_type vd_data].
  assert (d = JUndefined \/ d = JNull
          \/ (d <> JUndefined /\ d <> JNull
              /\ exists n, data_length d = Ok n
                   /\ (valid_child n = true
                       <-> forall props, d = JObj props ->
                             valid_child (get "length" props) = true)))
    as Hd.
  { destruct d as [| |b|q|s|items|props]; eauto;
      right; right; (split; [done|]); (split; [done|]);
      eexists; (split; [reflexivity|]).
    - split; [done|]. intros _. reflexivity.
    - split; [done|]. intros _. reflexivity.
    - split; [done|]. intros _. reflexivity.
    - split; [done|]. intros _. reflexivity.
    - split.
      + intros H props' [= <-]. exact H.
      + intros H. by apply H. }
  unfold AlgorithmVisualizer, returned_jsx, current_element, child.
  cbn [vd_type vd_data]. cbv zeta.
  set (v := data_at d currentStep). clearbody v.
  destruct ty;
    try (split; [discriminate|intros ((s & Hs) & _); discriminate Hs]).
  unfold mbind, Result_bind, JS.bind. cbn [header_title].
  destruct Hd as [->|[->|(Hu & Hn & n & -> & Hlen)]].
  - split; [discriminate|]. by intros (_ & ? & _).
  - split; [discriminate|]. by intros (_ & _ & ? & _).
  - destruct (valid_child n) eqn:Hvn.
    + destruct (truthy v) eqn:Ht.
      * destruct (valid_child v) eqn:Hv; cbn [throws].
        -- split; [|done]. intros _.
           split; [eauto|]. do 2 (split; [done|]).
           split; [by apply Hlen|done].
        -- split; [discriminate|]. intros (_ & _ & _ & _ & H).
           by specialize (H eq_refl).
      * change (valid_child (JStr "N/A")) with true. cbn [throws].
        split; [|done]. intros _.
        split; [eauto|]. do 2 (split; [done|]).
        split; [by apply Hlen|discriminate].
    + cbn [throws]. split; [discriminate|].
      intros (_ & _ & _ & H & _). apply Hlen in H. congruence.
Qed.

(** X14. An array of numbers under any string tag always renders: both
    counts are the array's length, and the current element is the number
    at the current step, or [N/A] when the step is outside the array and
    also when the number there is zero. *)
Theorem X14_numeric_array_footer
    (tag : string) (qs : list Q) (currentStep : Z) :
  let data := {| vd_type := JStr tag; vd_data := JArr (JNum <$> qs) |} in
  exists v r,
    AlgorithmVisualizer data currentStep = Ok (v, r)
    /\ ft_steps_total (vw_footer v) = JNum (Qnat (List.length qs))
    /\ ft_elements (vw_footer v) = JNum (Qnat (List.length qs))
    /\ ft_type (vw_footer v) = JStr tag
    /\ ft_current (vw_footer v)
       = match (if (currentStep <? 0)%Z then None
                else qs !! Z.to_nat currentStep) with
         | Some q => if Qeq_bool q 0 then JStr "N/A" else JNum q
         | None => JStr "N/A"
         end.
Proof.
  cbv zeta.
  unfold AlgorithmVisualizer, returned_jsx, current_element, child.
  cbn [vd_type vd_data header_title data_length data_at valid_child].
  unfold mbind, Result_bind, JS.bind. rewrite length_fmap.
  assert (exists shown,
            (let v := if (currentStep <? 0)%Z then JUndefined
                      else default JUndefined
                             ((JNum <$> qs) !! Z.to_nat currentStep) in
             if truthy v then v else JStr "N/A") = shown
            /\ valid_child shown = true
            /\ shown = match (if (currentStep <? 0)%Z then None
                              else qs !! Z.to_nat currentStep) with
                       | Some q => if Qeq_bool q 0 then JStr "N/A" else JNum q
                       | None => JStr "N/A"
                       end) as (shown & Hs & Hv & Hq).
  { eexists. split; [reflexivity|]. cbv zeta.
    destruct (currentStep <? 0)%Z; [done|].
    rewrite list_lookup_fmap.
    destruct (qs !! Z.to_nat currentStep) as [q|]; [|done].
    cbn. by destruct (Qeq_bool q 0). }
  cbv zeta in Hs. rewrite Hs, Hv.
  eexists _, _. split; [reflexivity|]. cbn.
  repeat split; done.
Qed.

End VisualizerProperties.

(** ** The array view: geometry, labels and hovering *)

Section ArrayGeometry.
Import D3 ArrayRender.

(** The bars in normal form, with the attributes the properties read. *)
Lemma bars_of_normal elements ih s speed :
  exists G : Element -> nat -> Elem,
    bars_of elements ih s speed = build elements G
    /\ forall d i,
        let border := if (Z.of_nat i =? s)%Z then ANum 4 else ANum 2 in
        attrs (G d i) !! "x" = Some (ANum (x d))
        /\ attrs (G d i) !! "width" = Some (ANum (width d))
        /\ attrs (G d i) !! "y" = Some (ANum ih)
        /\ attrs (G d i) !! "height" = Some (ANum 0)
        /\ attrs (G d i) !! "stroke-width" = Some border
        /\ attrs (settled (G d i)) !! "x" = Some (ANum (x d))
        /\ attrs (settled (G d i)) !! "width" = Some (ANum (width d))
        /\ attrs (settled (G d i)) !! "y" = Some (ANum (y d))
        /\ attrs (settled (G d i)) !! "height" = Some (ANum (height d))
        /\ attrs (settled (G d i)) !! "stroke-width" = Some border.
Proof.
  unfold bars_of. d3_normalise.
  eexists. split; [reflexivity|].
  intros d i. vm_compute. repeat split; reflexivity.
Qed.

Lemma elements_of_lookup array iw ih i v :
  array !! i = Some v ->
  exists d,
    elements_of array iw ih !! i = Some d
    /\ value d = v /\ index d = i
    /\ y d = scaleLinear 0 (num_or (D3.max array) 1) ih 0 v
    /\ height d = (ih - scaleLinear 0 (num_or (D3.max array) 1) ih 0 v)%Q.
Proof.
  intros H. unfold elements_of. cbv zeta.
  rewrite list_lookup_imap, H. cbn. eauto 10.
Qed.

(** The two rows of labels in normal form. *)
Lemma valueLabels_of_normal elements ih speed :
  exists G : Element -> nat -> Elem,
    valueLabels_of elements ih speed = build elements G
    /\ forall d i,
        text (G d i) = Some (ANum (value d))
        /\ attrs (G d i) !! "x" = Some (ANum (x d + width d / 2)%Q)
        /\ attrs (G d i) !! "text-anchor" = Some (AStr "middle").
Proof.
  unfold valueLabels_of. d3_normalise.
  eexists. split; [reflexivity|].
  intros d i. vm_compute. repeat split; reflexivity.
Qed.

Lemma indexLabels_of_normal elements ih speed :
  exists G : Element -> nat -> Elem,
    indexLabels_of elements ih speed = build elements G
    /\ forall d i,
        text (G d i) = Some (ANum (Qnat (index d)))
        /\ attrs (G d i) !! "x" = Some (ANum (x d + width d / 2)%Q)
        /\ attrs (G d i) !! "text-anchor" = Some (AStr "middle").
Proof.
  unfold indexLabels_of. d3_normalise.
  eexists. split; [reflexivity|].
  intros d i. vm_compute. repeat split; reflexivity.
Qed.

(** Each label class selects exactly its chain of the scene. *)
Lemma valueLabels_of_scene array w h m s speed :
  select_class "value-label" (renderArrayVisualization array w h m s speed)
  = elems (valueLabels_of (elements_of array (w - left m - right m)%Q
                                             (h - top m - bottom m)%Q)
                          (h - top m - bottom m)%Q speed).
Proof.
  unfold renderArrayVisualization, bars_of, valueLabels_of, indexLabels_of.
  cbv zeta. d3_normalise. d3_select. reflexivity.
Qed.

Lemma indexLabels_of_scene array w h m s speed :
  select_class "index-label" (renderArrayVisualization array w h m s speed)
  = elems (indexLabels_of (elements_of array (w - left m - right m)%Q
                                             (h - top m - bottom m)%Q)
                          (h - top m - bottom m)%Q speed).
Proof.
  unfold renderArrayVisualization, bars_of, valueLabels_of, indexLabels_of.
  cbv zeta. d3_normalise. d3_select. reflexivity.
Qed.

Lemma elements_of_band array iw ih i v :
  array !! i = Some v ->
  exists d,
    elements_of array iw ih !! i = Some d
    /\ x d = num_or (band (scaleBand (List.length array) 0 iw (1 # 10)) i) 0
    /\ width d = bandwidth (scaleBand (List.length array) 0 iw (1 # 10)).
Proof.
  intros H. unfold elements_of. cbv zeta.
  rewrite list_lookup_imap, H. cbn. eauto.
Qed.

Lemma num_or_zero v : (num_or (Some v) 0 == v)%Q.
Proof.
  unfold num_or. destruct (Qeq_bool v 0) eqn:H; [|done].
  apply Qeq_bool_iff in H. by rewrite H.
Qed.

(** The band scale of [n] bars over [[0, iw]] with padding [1/10]: the
    [i]-th band starts at [step * (i + 1/10)], is [step * 9/10] wide, and
    [step * (n + 1/10)] is the whole width. *)
Lemma band_geometry (n i : nat) (iw : Q) :
  (i < n)%nat ->
  exists step,
    (step * (Qnat n + (1 # 10)) == iw)%Q
    /\ (num_or (band (scaleBand n 0 iw (1 # 10)) i) 0
        == step * (Qnat i + (1 # 10)))%Q
    /\ (bandwidth (scaleBand n 0 iw (1 # 10)) == step * (9 # 10))%Q.
Proof.
  intros Hi. unfold band, scaleBand. cbn [band_n band_start band_step
                                            bandwidth].
  destruct (Nat.ltb_spec i n) as [_|]; [|lia].
  fold (Qnat n) (Qnat i).
  assert (1 <= Qnat n)%Q as Hn.
  { unfold Qnat. change 1%Q with (inject_Z 1). rewrite <- Zle_Qle. lia. }
  assert (Qmax 1 (Qnat n - (1 # 10) + (1 # 10) * 2)
          = (Qnat n - (1 # 10) + (1 # 10) * 2)%Q) as ->.
  { unfold Qmax.
    destruct (Qle_bool 1 (Qnat n - (1 # 10) + (1 # 10) * 2)) eqn:Hle; [done|].
    assert (1 <= Qnat n - (1 # 10) + (1 # 10) * 2)%Q as H by lra.
    apply Qle_bool_iff in H. congruence. }
  exists ((iw - 0) / (Qnat n - (1 # 10) + (1 # 10) * 2))%Q.
  split; [field; lra|]. split; [rewrite num_or_zero; field; lra|].
  field. lra.
Qed.

Lemma Qnat_S i : (Qnat (S i) == Qnat i + 1)%Q.
Proof.
  unfold Qnat. change 1%Q with (inject_Z 1).
  by rewrite <- inject_Z_plus, Nat2Z.inj_succ.
Qed.

Lemma Qnat_le i n : (i <= n)%nat -> (Qnat i <= Qnat n)%Q.
Proof. intros H. unfold Qnat. rewrite <- Zle_Qle. lia. Qed.

Lemma Qnat_nonneg i : (0 <= Qnat i)%Q.
Proof.
  unfold Qnat. change 0%Q with (inject_Z 0). rewrite <- Zle_Qle. lia.
Qed.

End ArrayGeometry.

Section ArrayProperties.
Import D3 ArrayRender.

(** X16. Under every bar stand its two labels: the [i]-th value label
    shows the [i]-th value and the [i]-th index label shows [i], both
    centred on the middle of the [i]-th bar; there are as many labels of
    each kind as values. *)
Theorem X16_labels_match_their_bars
    (array : list Q) (w h : Q) (m : Margin) (s speed : Z) (i : nat) (v : Q) :
  array !! i = Some v ->
  let scene := renderArrayVisualization array w h m s speed in
  List.length (select_class "value-label" scene) = List.length array
  /\ List.length (select_class "index-label" scene) = List.length array
  /\ exists bar vl il bx bw,
       bars scene !! i = Some bar
       /\ select_class "value-label" scene !! i = Some vl
       /\ select_class "index-label" scene !! i = Some il
       /\ text vl = Some (ANum v)
       /\ text il = Some (ANum (Qnat i))
       /\ attrs bar !! "x" = Some (ANum bx)
       /\ attrs bar !! "width" = Some (ANum bw)
       /\ attrs vl !! "x" = Some (ANum (bx + bw / 2)%Q)
       /\ attrs il !! "x" = Some (ANum (bx + bw / 2)%Q)
       /\ attrs vl !! "text-anchor" = Some (AStr "middle")
       /\ attrs il !! "text-anchor" = Some (AStr "middle").
Proof.
  intros Hv. cbv zeta.
  rewrite bars_of_scene, valueLabels_of_scene, indexLabels_of_scene.
  set (iw := (w - left m - right m)%Q).
  set (ih := (h - top m - bottom m)%Q).
  destruct (bars_of_normal (elements_of array iw ih) ih s speed)
    as (B & -> & HB).
  destruct (valueLabels_of_normal (elements_of array iw ih) ih speed)
    as (V & -> & HV).
  destruct (indexLabels_of_normal (elements_of array iw ih) ih speed)
    as (I & -> & HI).
  destruct (elements_of_lookup array iw ih i v Hv)
    as (d & Hd & Hval & Hidx & _).
  rewrite !elems_build, !length_imap, elements_of_length.
  do 2 (split; [done|]).
  exists (B d i), (V d i), (I d i), (x d), (width d).
  rewrite !list_lookup_imap, Hd. cbn [fmap option_fmap option_map].
  destruct (HB d i) as (Hbx & Hbw & _).
  destruct (HV d i) as (Hvt & Hvx & Hva).
  destruct (HI d i) as (Hit & Hix & Hia).
  rewrite Hval in Hvt. rewrite Hidx in Hit.
  repeat split; done.
Qed.

Lemma X16_labels_match_their_bars_witness :
  [4%Q; 2%Q; 3%Q] !! 1%nat = Some 2%Q
  /\ List.length
       (select_class "value-label"
          (renderArrayVisualization [4%Q; 2%Q; 3%Q] canvas_width
             canvas_height canvas_margin 1 1000))
     = List.length [4%Q; 2%Q; 3%Q].
Proof.
  split; [reflexivity|].
  apply (X16_labels_match_their_bars [4%Q; 2%Q; 3%Q] canvas_width
           canvas_height canvas_margin 1 1000 1 2%Q).
  reflexivity.
Defined.

(** X17. Hovering is undone by leaving: on every bar, as appended and
    once its transition has run, [mouseout] after [mouseover] restores
    the border width the bar had, and all that remains of the visit is an
    explicit opacity of 1. *)
Theorem X17_mouseout_undoes_mouseover
    (array : list Q) (iw ih : Q) (s speed : Z) (i : nat) (v : Q) :
  array !! i = Some v ->
  exists d e,
    bars_of (elements_of array iw ih) ih s speed !! i = Some (d, e)
    /\ value d = v /\ index d = i
    /\ attrs (mouseout s d (mouseover e)) = <["opacity" := ANum 1]> (attrs e)
    /\ attrs (mouseout s d (mouseover (settled e)))
       = <["opacity" := ANum 1]> (attrs (settled e)).
Proof.
  intros Hv.
  destruct (bars_of_normal (elements_of array iw ih) ih s speed)
    as (G & HG & Hattrs).
  destruct (elements_of_lookup array iw ih i v Hv)
    as (d & Hd & Hval & Hidx & _).
  exists d, (G d i).
  split. { by rewrite HG, build_lookup, Hd. }
  do 2 (split; [done|]).
  destruct (Hattrs d i) as (_ & _ & _ & _ & Hsw & _ & _ & _ & _ & Hsw').
  cbv zeta in Hsw, Hsw'.
  assert (forall a : gmap string AttrVal,
            a !! "stroke-width"
            = Some (if (Z.of_nat i =? s)%Z then ANum 4 else ANum 2) ->
            <["stroke-width" :=
                ANum (if (Z.of_nat (index d) =? s)%Z then 4 else 2)]>
              (<["opacity" := ANum 1]>
                 (<["stroke-width" := ANum 3]>
                    (<["opacity" := ANum (8 # 10)]> a)))
            = <["opacity" := ANum 1]> a) as Hround.
  { intros a Ha. rewrite Hidx. apply map_eq. intros k.
    destruct (decide (k = "stroke-width")) as [->|Hk1].
    - rewrite lookup_insert_eq, lookup_insert_ne by done. rewrite Ha.
      by destruct (Z.of_nat i =? s)%Z.
    - rewrite lookup_insert_ne by done.
      destruct (decide (k = "opacity")) as [->|Hk2].
      + by rewrite !lookup_insert_eq.
      + by rewrite !lookup_insert_ne by done. }
  split; [by apply Hround|by apply Hround].
Qed.

Lemma X17_mouseout_undoes_mouseover_witness :
  [4%Q; 2%Q; 3%Q] !! 1%nat = Some 2%Q
  /\ exists d e,
       bars_of (elements_of [4%Q; 2%Q; 3%Q] 540 340) 340 1 1000 !! 1%nat
       = Some (d, e)
       /\ value d = 2%Q /\ index d = 1%nat
       /\ attrs (mouseout 1 d (mouseover e))
          = <["opacity" := ANum 1]> (attrs e)
       /\ attrs (mouseout 1 d (mouseover (settled e)))
          = <["opacity" := ANum 1]> (attrs (settled e)).
Proof.
  split; [reflexivity|].
  apply (X17_mouseout_undoes_mouseover [4%Q; 2%Q; 3%Q] 540 340 1 1000 1 2%Q).
  reflexivity.
Defined.

(** X28. On a canvas of non-negative inner width the bars fit side by
    side: every bar lies within the inner width, all bars have the same
    non-negative width, and a bar ends before the next one begins. *)
Theorem X28_bars_fit_side_by_side
    (array : list Q) (w h : Q) (m : Margin) (s speed : Z) (i : nat) (v : Q) :
  array !! i = Some v ->
  let iw := (w - left m - right m)%Q in
  let shown := bars (renderArrayVisualization array w h m s speed) in
  (0 <= iw)%Q ->
  exists e bx bw,
    shown !! i = Some e
    /\ attrs e !! "x" = Some (ANum bx)
    /\ attrs e !! "width" = Some (ANum bw)
    /\ (0 <= bx)%Q /\ (0 <= bw)%Q /\ (bx + bw <= iw)%Q
    /\ forall e' bx' bw',
         shown !! S i = Some e' ->
         attrs e' !! "x" = Some (ANum bx') ->
         attrs e' !! "width" = Some (ANum bw') ->
         (bx + bw <= bx')%Q /\ (bw' == bw)%Q.
Proof.
  intros Hv. cbv zeta. intros Hw. rewrite bars_of_scene.
  set (iw := (w - left m - right m)%Q) in *.
  set (ih := (h - top m - bottom m)%Q).
  destruct (bars_of_normal (elements_of array iw ih) ih s speed)
    as (G & -> & HG).
  destruct (elements_of_band array iw ih i v Hv) as (d & Hd & Hx & Hwd).
  pose proof (lookup_lt_Some _ _ _ Hv) as Hi.
  destruct (band_geometry (List.length array) i iw Hi)
    as (step & Hstep & Hbx & Hbw).
  rewrite <- Hx in Hbx. rewrite <- Hwd in Hbw.
  pose proof (Qnat_nonneg i) as Hi0.
  pose proof (Qnat_le (S i) (List.length array) Hi) as Hin.
  rewrite Qnat_S in Hin.
  assert (0 <= step)%Q as Hs0.
  { pose proof (Qnat_nonneg (List.length array)) as Hn0.
    destruct (Qlt_le_dec step 0) as [Hneg|]; [|done]. exfalso. nra. }
  exists (G d i), (x d), (width d).
  rewrite elems_build, list_lookup_imap, Hd.
  destruct (HG d i) as (Hax & Haw & _).
  do 3 (split; [done|]).
  split; [rewrite Hbx; nra|]. split; [rewrite Hbw; nra|].
  split; [rewrite Hbx, Hbw; nra|].
  intros e' bx' bw' He' Hx' Hw'.
  rewrite list_lookup_imap in He'.
  destruct (elements_of array iw ih !! S i) as [d'|] eqn:Hd'; [|done].
  cbn in He'. injection He' as <-.
  destruct (HG d' (S i)) as (Hax' & Haw' & _).
  rewrite Hax' in Hx'. rewrite Haw' in Hw'.
  injection Hx' as <-. injection Hw' as <-.
  assert (exists v', array !! S i = Some v') as [v' Hv'].
  { apply lookup_lt_is_Some_2.
    apply lookup_lt_Some in Hd'. by rewrite elements_of_length in Hd'. }
  destruct (elements_of_band array iw ih (S i) v' Hv')
    as (d'' & Hd'' & Hx'' & Hwd'').
  rewrite Hd' in Hd''. injection Hd'' as <-.
  pose proof (lookup_lt_Some _ _ _ Hv') as Hi'.
  destruct (band_geometry (List.length array) (S i) iw Hi')
    as (step' & Hstep' & Hbx' & Hbw').
  rewrite <- Hx'' in Hbx'. rewrite <- Hwd'' in Hbw'.
  assert (step' == step)%Q as Hsame.
  { pose proof (Qnat_nonneg (List.length array)) as Hn0.
    assert (step' * (Qnat (List.length array) + (1 # 10))
            == step * (Qnat (List.length array) + (1 # 10)))%Q as Heq
      by (by rewrite Hstep, Hstep').
    apply Qmult_inj_r in Heq; [done|]. lra. }
  rewrite Hsame, Qnat_S in Hbx'. rewrite Hsame in Hbw'.
  split; [rewrite Hbx, Hbw, Hbx'; nra|]. by rewrite Hbw, Hbw'.
Qed.

Lemma X28_bars_fit_side_by_side_witness :
  [4%Q; 2%Q; 3%Q] !! 0%nat = Some 4%Q
  /\ (0 <= canvas_width - left canvas_margin - right canvas_margin)%Q
  /\ exists e bx bw,
       bars (renderArrayVisualization [4%Q; 2%Q; 3%Q] canvas_width
               canvas_height canvas_margin 1 1000) !! 0%nat = Some e
       /\ attrs e !! "x" = Some (ANum bx)
       /\ attrs e !! "width" = Some (ANum bw)
       /\ (0 <= bx)%Q /\ (0 <= bw)%Q
       /\ (bx + bw <= canvas_width - left canvas_margin
                      - right canvas_margin)%Q.
Proof.
  split; [reflexivity|]. split; [vm_compute; discriminate|].
  destruct (X28_bars_fit_side_by_side [4%Q; 2%Q; 3%Q] canvas_width
              canvas_height canvas_margin 1 1000 0 4%Q)
    as (e & bx & bw & He & Hx & Hw & H0 & H1 & H2 & _).
  - reflexivity.
  - vm_compute. discriminate.
  - exists e, bx, bw. by repeat split.
Defined.

End ArrayProperties.

(** ** The linked-list view: boxes, arrows and markers *)

Section ListArrows.
Import D3 ListRender ListShapes.

Ltac none_of_class := d3_normalise; d3_select; reflexivity.

Variable F0 : unit -> nat -> Elem.
Local Abbreviation g := (build [tt] F0).

Ltac each_pointer H :=
  unfold pointer_classes in H;
  repeat (apply elem_of_cons in H as [-> | H]);
  [ .. | by apply elem_of_nil in H ].

Lemma pointer_marker c name colour :
  c ∈ pointer_classes -> select_class c (marker g name colour) = [].
Proof. intros H. unfold marker. each_pointer H; none_of_class. Qed.

Lemma pointer_node_elems c ps s :
  c ∈ pointer_classes -> select_class c (node_elems g ps s) = [].
Proof. intros H. unfold node_elems. each_pointer H; none_of_class. Qed.

Lemma pointer_array_cell c y s index node :
  c ∈ pointer_classes -> select_class c (array_cell g y s index node) = [].
Proof. intros H. unfold array_cell. each_pointer H; none_of_class. Qed.

Lemma pointer_connection_line c ih y index node :
  c ∈ pointer_classes ->
  select_class c (connection_line g ih y index node) = [].
Proof. intros H. unfold connection_line. each_pointer H; none_of_class. Qed.

Lemma pointer_circular_indicator c iw :
  c ∈ pointer_classes -> select_class c (circular_indicator g iw) = [].
Proof. intros H. unfold circular_indicator. each_pointer H; none_of_class. Qed.

Lemma find_node_declared ns iw ih name :
  match find_node (nodePositions_of ns iw ih) name with
  | Some p => declared ns name = true /\ p_id p = name
  | None => declared ns name = false
  end.
Proof.
  unfold find_node, nodePositions_of, declared. cbv zeta.
  generalize (iw / (Qnat (List.length ns) + 1))%Q. intros sp.
  assert (forall k,
    match List.find (fun n => String.eqb (p_id n) name)
            (imap (fun index node =>
                     {| p_id := id node; p_value := value node;
                        p_x := ((Qnat (k + index) + 1) * sp)%Q;
                        p_y := (ih / 2)%Q |}) ns) with
    | Some p => existsb (fun n => String.eqb (id n) name) ns = true
                /\ p_id p = name
    | None => existsb (fun n => String.eqb (id n) name) ns = false
    end) as H.
  { induction ns as [|n ns IH]; intros k; [done|].
    cbn. destruct (String.eqb_spec (id n) name) as [->|Hne]; [done|].
    cbn. specialize (IH (S k)).
    erewrite imap_ext; [exact IH|].
    intros i x _. cbn. by rewrite Nat.add_succ_r. }
  apply (H 0%nat).
Qed.

(** One arrow per connection of which both ends are found. *)
Lemma arrow_elems_arrows ps conn :
  List.length (select_class "linkedlist-arrow" (arrow_elems g ps conn))
  = match find_node ps (from conn), find_node ps (to conn) with
    | Some _, Some _ => 1%nat
    | _, _ => 0%nat
    end.
Proof.
  unfold arrow_elems.
  destruct (find_node ps (from conn)), (find_node ps (to conn));
    [|reflexivity..].
  rewrite select_class_app, pointer_marker by (by left).
  d3_normalise. d3_select. reflexivity.
Qed.

Lemma arrow_elems_other c ps conn :
  c ∈ ["head-pointer"; "tail-pointer"] ->
  select_class c (arrow_elems g ps conn) = [].
Proof.
  intros H. unfold arrow_elems.
  destruct (find_node ps (from conn)), (find_node ps (to conn)); try done.
  rewrite select_class_app, pointer_marker
    by (apply elem_of_cons; right; exact H).
  repeat (apply elem_of_cons in H as [-> | H]);
    [ none_of_class | none_of_class | by apply elem_of_nil in H ].
Qed.

(** The head label, above the node it names. *)
Lemma head_elems_label :
  exists H : Positioned -> Elem,
    (forall ps hd,
        select_class "head-pointer" (head_elems g ps hd)
        = if truthy_str hd then
            match find_node ps (default "" hd) with
            | Some n => [H n]
            | None => []
            end
          else [])
    /\ forall n,
        text (H n) = Some (AStr "HEAD")
        /\ attrs (H n) !! "x" = Some (ANum (p_x n))
        /\ attrs (H n) !! "y" = Some (ANum (p_y n - 40)%Q).
Proof.
  unfold head_elems. d3_normalise.
  eexists (fun n => _). split.
  - intros ps hd. destruct (truthy_str hd); [|done].
    destruct (find_node ps (default "" hd)) as [n|]; [|done].
    rewrite !select_class_app, pointer_marker by (repeat constructor).
    d3_select. cbn [imap app]. reflexivity.
  - intros n. vm_compute. repeat split; reflexivity.
Qed.

Lemma head_elems_other c ps hd :
  c ∈ ["linkedlist-arrow"; "tail-pointer"] ->
  select_class c (head_elems g ps hd) = [].
Proof.
  intros H. unfold head_elems.
  destruct (truthy_str hd); [|done].
  destruct (find_node ps (default "" hd)); [|done].
  rewrite !select_class_app.
  rewrite pointer_marker.
  2:{ repeat (apply elem_of_cons in H as [-> | H]);
        [ repeat constructor | repeat constructor
        | by apply elem_of_nil in H ]. }
  repeat (apply elem_of_cons in H as [-> | H]);
    [ none_of_class | none_of_class | by apply elem_of_nil in H ].
Qed.

(** The tail label, below the node it names. *)
Lemma tail_elems_label :
  exists T : Positioned -> Elem,
    (forall ps tl,
        select_class "tail-pointer" (tail_elems g ps tl)
        = if truthy_str tl then
            match find_node ps (default "" tl) with
            | Some n => [T n]
            | None => []
            end
          else [])
    /\ forall n,
        text (T n) = Some (AStr "TAIL")
        /\ attrs (T n) !! "x" = Some (ANum (p_x n))
        /\ attrs (T n) !! "y" = Some (ANum (p_y n + 50)%Q).
Proof.
  unfold tail_elems. d3_normalise.
  eexists (fun n => _). split.
  - intros ps tl. destruct (truthy_str tl); [|done].
    destruct (find_node ps (default "" tl)) as [n|]; [|done].
    d3_select. cbn [imap app]. reflexivity.
  - intros n. vm_compute. repeat split; reflexivity.
Qed.

Lemma tail_elems_other c ps tl :
  c ∈ ["linkedlist-arrow"; "head-pointer"] ->
  select_class c (tail_elems g ps tl) = [].
Proof.
  intros H. unfold tail_elems.
  destruct (truthy_str tl); [|done].
  destruct (find_node ps (default "" tl)); [|done].
  repeat (apply elem_of_cons in H as [-> | H]);
    [ none_of_class | none_of_class | by apply elem_of_nil in H ].
Qed.

End ListArrows.

Section ListPointerScene.
Import D3 ListRender ListShapes.

Lemma length_select_concat_fmap {A} c (f : A -> list Elem) (p : A -> bool)
    (l : list A) :
  (forall a, List.length (select_class c (f a))
             = if p a then 1%nat else 0%nat) ->
  List.length (select_class c (concat (f <$> l)))
  = List.length (List.filter p l).
Proof.
  intros H. induction l as [|a l IH]; [done|].
  cbn [fmap list_fmap concat List.filter].
  rewrite select_class_app, length_app, H, IH.
  by destruct (p a).
Qed.

Ltac pointer_scene :=
  unfold renderLinkedListVisualization;
  cbn [nodes connections head tail meta_algorithm];
  cbv zeta;
  rewrite group_build, attr_c_build;
  rewrite !select_class_app;
  rewrite ?pointer_node_elems by (repeat constructor);
  rewrite ?(select_class_concat_none _ (imap (connection_line _ _ _) _))
    by (apply Forall_imap_intro; intros ? ?;
        apply pointer_connection_line; repeat constructor);
  rewrite ?(select_class_concat_none _ (imap (array_cell _ _ _) _))
    by (apply Forall_imap_intro; intros ? ?;
        apply pointer_array_cell; repeat constructor);
  match goal with
  | |- context [select_class ?c (if ?b then circular_indicator ?g ?iw else [])] =>
      replace (select_class c (if b then circular_indicator g iw else []))
        with (@nil Elem)
        by (destruct b; [|done]; symmetry;
            apply pointer_circular_indicator; repeat constructor)
  end.

Lemma arrows_of_scene ns conns hd tl meta w h m s :
  List.length
    (select_class "linkedlist-arrow"
       (renderLinkedListVisualization
          (Some {| nodes := Some ns; connections := conns; head := hd;
                   tail := tl; meta_algorithm := meta |}) w h m s))
  = List.length (drawn ns (default [] conns)).
Proof.
  pointer_scene.
  rewrite head_elems_other, tail_elems_other by (repeat constructor).
  rewrite !length_app.
  rewrite (length_select_concat_fmap _ _
             (fun c => declared ns (from c) && declared ns (to c))).
  - d3_normalise. d3_select. cbn [List.length]. unfold drawn. lia.
  - intros conn. rewrite arrow_elems_arrows.
    pose proof (find_node_declared ns (w - left m - right m)%Q
                  (h - top m - bottom m)%Q (from conn)) as Hf.
    pose proof (find_node_declared ns (w - left m - right m)%Q
                  (h - top m - bottom m)%Q (to conn)) as Ht.
    destruct (find_node _ (from conn)), (find_node _ (to conn)).
    + by rewrite (proj1 Hf), (proj1 Ht).
    + by rewrite Ht, andb_false_r.
    + by rewrite Hf.
    + by rewrite Hf.
Qed.

Lemma head_labels_of_scene ns conns hd tl meta w h m s :
  exists H : Positioned -> Elem,
    select_class "head-pointer"
      (renderLinkedListVisualization
         (Some {| nodes := Some ns; connections := conns; head := hd;
                  tail := tl; meta_algorithm := meta |}) w h m s)
    = (if truthy_str hd then
         match find_node (nodePositions_of ns (w - left m - right m)%Q
                            (h - top m - bottom m)%Q) (default "" hd) with
         | Some n => [H n]
         | None => []
         end
       else [])
    /\ forall n,
        text (H n) = Some (AStr "HEAD")
        /\ attrs (H n) !! "x" = Some (ANum (p_x n))
        /\ attrs (H n) !! "y" = Some (ANum (p_y n - 40)%Q).
Proof.
  pointer_scene.
  match goal with
  | |- context [head_elems (build [tt] ?F) _ _] =>
      destruct (head_elems_label F) as (H & HH & Hattrs)
  end.
  exists H. split; [|done].
  rewrite HH, tail_elems_other by (repeat constructor).
  rewrite (select_class_concat_none _ (_ <$> _))
    by (apply Forall_fmap, Forall_true; intros ?;
        apply arrow_elems_other; repeat constructor).
  d3_normalise. d3_select. reflexivity.
Qed.

Lemma tail_labels_of_scene ns conns hd tl meta w h m s :
  exists T : Positioned -> Elem,
    select_class "tail-pointer"
      (renderLinkedListVisualization
         (Some {| nodes := Some ns; connections := conns; head := hd;
                  tail := tl; meta_algorithm := meta |}) w h m s)
    = (if truthy_str tl then
         match find_node (nodePositions_of ns (w - left m - right m)%Q
                            (h - top m - bottom m)%Q) (default "" tl) with
         | Some n => [T n]
         | None => []
         end
       else [])
    /\ forall n,
        text (T n) = Some (AStr "TAIL")
        /\ attrs (T n) !! "x" = Some (ANum (p_x n))
        /\ attrs (T n) !! "y" = Some (ANum (p_y n + 50)%Q).
Proof.
  pointer_scene.
  match goal with
  | |- context [tail_elems (build [tt] ?F) _ _] =>
      destruct (tail_elems_label F) as (T & HT & Hattrs)
  end.
  exists T. split; [|done].
  rewrite HT, head_elems_other by (repeat constructor).
  rewrite (select_class_concat_none _ (_ <$> _))
    by (apply Forall_fmap, Forall_true; intros ?;
        apply arrow_elems_other; repeat constructor).
  d3_normalise. d3_select. reflexivity.
Qed.

End ListPointerScene.

Section ListProperties.
Import D3 ListRender ListShapes.

(** X18. For every linked-list payload that declares its nodes, the
    scene holds one node box per node, and at every step the box of node
    [i] is filled with the current colour when [i] is the step, with the
    processed colour when [i] is below it and with the pending colour
    when [i] is above it. *)
Theorem X18_list_nodes_coloured_by_position
    (ns : list ListNode) (conns : option (list Connection))
    (hd tl meta : option string) (w h : Q) (m : Margin) (s : Z) :
  let shown :=
    node_boxes
      (renderLinkedListVisualization
         (Some {| nodes := Some ns; connections := conns; head := hd;
                  tail := tl; meta_algorithm := meta |}) w h m s) in
  List.length shown = List.length ns
  /\ forall i, (i < List.length ns)%nat ->
       exists e, shown !! i = Some e
         /\ attrs e !! "fill"
            = Some (AStr (if decide (Z.of_nat i = s) then "#f59e0b"
                          else if decide (Z.of_nat i < s)%Z then "#10b981"
                          else "#3b82f6")).
Proof.
  cbv zeta.
  destruct (node_boxes_of_scene ns conns hd tl meta w h m s)
    as (B & -> & HB).
  assert (List.length (nodePositions_of ns (w - left m - right m)%Q
                         (h - top m - bottom m)%Q) = List.length ns) as Hlen
    by apply length_imap.
  split; [by rewrite length_imap|].
  intros i Hi.
  destruct (lookup_lt_is_Some_2
              (nodePositions_of ns (w - left m - right m)%Q
                 (h - top m - bottom m)%Q) i) as [n Hn]; [lia|].
  exists (B i n). split; [by rewrite list_lookup_imap, Hn|].
  rewrite HB.
  destruct (Z.eqb_spec (Z.of_nat i) s), (Z.ltb_spec (Z.of_nat i) s);
    repeat case_decide; try done; lia.
Qed.

(** X19. The cells of the array strip under the list, one per node, all
    carry the same fill at every step: the current colour at step 0 and
    the processed colour at every later step, whatever the position of
    the cell. *)
Theorem X19_strip_cells_all_share_one_fill
    (ns : list ListNode) (conns : option (list Connection))
    (hd tl meta : option string) (w h : Q) (m : Margin) (s : Z) :
  let cells :=
    array_boxes
      (renderLinkedListVisualization
         (Some {| nodes := Some ns; connections := conns; head := hd;
                  tail := tl; meta_algorithm := meta |}) w h m s) in
  List.length cells = List.length ns
  /\ forall e, e ∈ cells ->
       attrs e !! "fill"
       = Some (AStr (if decide (s = 0%Z) then "#f59e0b"
                     else if decide (0 < s)%Z then "#10b981"
                     else "#3b82f6")).
Proof.
  cbv zeta.
  destruct (array_boxes_of_scene ns conns hd tl meta w h m s)
    as (B & -> & HB).
  split; [rewrite length_imap; apply length_imap|].
  intros e He. apply list_elem_of_lookup in He as [i He].
  rewrite list_lookup_imap in He.
  destruct (nodePositions_of _ _ _ !! i) as [n|]; [|done].
  cbn in He. injection He as <-. rewrite HB.
  destruct (Z.eqb_spec 0 s), (Z.ltb_spec 0 s);
    repeat case_decide; try done; lia.
Qed.

(** X20. An arrow is drawn for exactly the connections of which both
    ends are ids of declared nodes; a connection with an unknown end is
    passed over without a trace. *)
Theorem X20_arrows_only_between_declared_nodes
    (ns : list ListNode) (conns : option (list Connection))
    (hd tl meta : option string) (w h : Q) (m : Margin) (s : Z) :
  List.length
    (select_class "linkedlist-arrow"
       (renderLinkedListVisualization
          (Some {| nodes := Some ns; connections := conns; head := hd;
                   tail := tl; meta_algorithm := meta |}) w h m s))
  = List.length
      (List.filter
         (fun c => declared ns (from c) && declared ns (to c))
         (default [] conns)).
Proof. apply arrows_of_scene. Qed.

(** X21. The HEAD label is drawn exactly when [head] is a non-empty
    string that names a declared node, and then once, 40 above the first
    node of that id; the TAIL label likewise, 50 below. *)
Theorem X21_head_and_tail_labels_mark_declared_nodes
    (ns : list ListNode) (conns : option (list Connection))
    (hd tl meta : option string) (w h : Q) (m : Margin) (s : Z) :
  let scene :=
    renderLinkedListVisualization
      (Some {| nodes := Some ns; connections := conns; head := hd;
               tail := tl; meta_algorithm := meta |}) w h m s in
  let ps := nodePositions_of ns (w - left m - right m)%Q
                             (h - top m - bottom m)%Q in
  (List.length (select_class "head-pointer" scene)
   = if truthy_str hd && declared ns (default "" hd) then 1%nat else 0%nat)
  /\ (forall e, e ∈ select_class "head-pointer" scene ->
        text e = Some (AStr "HEAD")
        /\ exists n, find_node ps (default "" hd) = Some n
             /\ p_id n = default "" hd
             /\ attrs e !! "x" = Some (ANum (p_x n))
             /\ attrs e !! "y" = Some (ANum (p_y n - 40)%Q))
  /\ (List.length (select_class "tail-pointer" scene)
      = if truthy_str tl && declared ns (default "" tl) then 1%nat
        else 0%nat)
  /\ (forall e, e ∈ select_class "tail-pointer" scene ->
        text e = Some (AStr "TAIL")
        /\ exists n, find_node ps (default "" tl) = Some n
             /\ p_id n = default "" tl
             /\ attrs e !! "x" = Some (ANum (p_x n))
             /\ attrs e !! "y" = Some (ANum (p_y n + 50)%Q)).
Proof.
  cbv zeta.
  destruct (head_labels_of_scene ns conns hd tl meta w h m s)
    as (H & -> & HH).
  destruct (tail_labels_of_scene ns conns hd tl meta w h m s)
    as (T & -> & HT).
  pose proof (find_node_declared ns (w - left m - right m)%Q
                (h - top m - bottom m)%Q (default "" hd)) as Hhd.
  pose proof (find_node_declared ns (w - left m - right m)%Q
                (h - top m - bottom m)%Q (default "" tl)) as Htl.
  split; [|split; [|split]].
  - destruct (truthy_str hd); [|done].
    destruct (find_node _ (default "" hd)).
    + by rewrite (proj1 Hhd).
    + by rewrite Hhd.
  - intros e He. destruct (truthy_str hd); [|by apply elem_of_nil in He].
    destruct (find_node _ (default "" hd)) as [n|];
      [|by apply elem_of_nil in He].
    apply list_elem_of_singleton in He as ->.
    destruct (HH n) as (? & ? & ?). split; [done|].
    exists n. by destruct Hhd.
  - destruct (truthy_str tl); [|done].
    destruct (find_node _ (default "" tl)).
    + by rewrite (proj1 Htl).
    + by rewrite Htl.
  - intros e He. destruct (truthy_str tl); [|by apply elem_of_nil in He].
    destruct (find_node _ (default "" tl)) as [n|];
      [|by apply elem_of_nil in He].
    apply list_elem_of_singleton in He as ->.
    destruct (HT n) as (? & ? & ?). split; [done|].
    exists n. by destruct Htl.
Qed.

End ListProperties.

(** ** The graph view: both payload forms, colours and dragging *)

Section GraphForms.
Import D3 GraphRender.

Lemma sequential_edges_lookup names i a b :
  names !! i = Some a -> names !! S i = Some b ->
  sequential_edges (JStr <$> names) !! i
  = Some {| source := JStr a; target := JStr b |}.
Proof.
  revert i. induction names as [|x [|y rest] IH]; intros i Ha Hb;
    [done|by destruct i|].
  destruct i as [|i].
  - cbn in Ha, Hb. injection Ha as ->. injection Hb as ->. done.
  - cbn [fmap list_fmap sequential_edges].
    change (sequential_edges (JStr <$> y :: rest) !! i
            = Some {| source := JStr a; target := JStr b |}).
    by apply IH.
Qed.

Lemma sequential_edges_length (items : list JsValue) :
  List.length (sequential_edges items) = (List.length items - 1)%nat.
Proof.
  induction items as [|x [|y rest] IH]; [done..|].
  cbn [sequential_edges List.length] in *. lia.
Qed.

Lemma sequential_edges_declared names :
  Forall (fun e => exists a b, e = {| source := JStr a; target := JStr b |}
                               /\ a ∈ names /\ b ∈ names)
         (sequential_edges (JStr <$> names)).
Proof.
  induction names as [|x [|y rest] IH]; [constructor..|].
  cbn [fmap list_fmap sequential_edges]. constructor.
  - exists x, y. split; [done|]. split; [by left|right; by left].
  - eapply Forall_impl; [exact IH|].
    intros e (a & b & -> & Ha & Hb). exists a, b.
    split; [done|]. split; by right.
Qed.

Lemma initialize_links_length ids es ls :
  initialize_links ids es = Ok ls -> List.length ls = List.length es.
Proof.
  revert ls. induction es as [|e es IH]; intros ls; cbn.
  - by intros [= <-].
  - destruct (resolve ids (source e)) as [s|]; [|done]. cbn.
    destruct (resolve ids (target e)) as [t|]; [|done]. cbn.
    destruct (index_of s); [|done]. cbn.
    destruct (index_of t); [|done]. cbn.
    destruct (initialize_links ids es) as [more|]; [|done]. cbn.
    intros [= <-]. cbn. f_equal. by apply IH.
Qed.

(** What a call that returns has drawn, in terms of the parsed ids and
    edges. *)
Lemma render_counts cos sin PI graphData w h m s g :
  renderGraphVisualization cos sin PI graphData w h m s = Ok g ->
  exists ids es,
    parse graphData = Ok (ids, es)
    /\ id <$> nodes g = ids
    /\ (ids <> [] -> edges g = es)
    /\ List.length (circles g) = List.length ids
    /\ List.length (labels g) = List.length ids
    /\ List.length (lines g) = List.length (edges g)
    /\ List.length (links g) = List.length (edges g).
Proof.
  unfold renderGraphVisualization.
  destruct (parse graphData) as [[ids es]|] eqn:Hparse; [|done].
  cbn [mbind Result_bind JS.bind fst snd].
  destruct (Nat.eqb_spec (List.length ids) 0) as [Hlen|Hlen].
  - intros [= <-]. apply nil_length_inv in Hlen as ->.
    exists [], es. by repeat split.
  - destruct (initialize_links ids es) as [ls|] eqn:Hls; [|done].
    cbn [mbind Result_bind JS.bind].
    intros [= <-]. exists ids, es.
    cbn [nodes edges links lines circles labels].
    split; [done|]. split; [apply place_ids|]. split; [done|].
    d3_normalise. rewrite !length_imap.
    unfold place. rewrite length_imap.
    split; [done|]. split; [done|]. split; [done|].
    by apply (initialize_links_length ids).
Qed.

Lemma collect_throws (f : string -> Result (list Edge)) (e : JsError)
    (names : list string) k :
  k ∈ names -> f k = Throw e ->
  (forall n, n ∈ names -> f n = Throw e \/ exists es, f n = Ok es) ->
  collect (f <$> names) = Throw e.
Proof.
  induction names as [|n names IH]; intros Hk Hf Hall.
  - by apply elem_of_nil in Hk.
  - cbn. destruct (Hall n) as [Hn|[es Hn]]; [by left| |]; rewrite Hn; [done|].
    cbn. apply elem_of_cons in Hk as [->|Hk]; [congruence|].
    rewrite IH; [done|done|done|].
    intros n' Hn'. apply Hall. by right.
Qed.

Lemma includes_number names q : includes names (JNum q) = false.
Proof. unfold includes. by induction names. Qed.

Lemma filter_includes_numbers names qs :
  List.filter (includes names) (JNum <$> qs) = [].
Proof.
  induction qs as [|q qs IH]; [done|].
  cbn [fmap list_fmap List.filter]. by rewrite includes_number.
Qed.

End GraphForms.

Section GraphProperties.
Import D3 GraphRender.

(** X22. The sequential form never fails on strings: a list of names is
    drawn with one circle and one label per name, in order, and one line
    per pair of neighbours in the list, from each name to the next; every
    line has its link in the simulation. *)
Theorem X22_sequential_form_chains_the_names
    (cos sin : Q -> Q) (PI : Q) (names : list string)
    (w h : Q) (m : Margin) (s : Z) :
  exists g,
    renderGraphVisualization cos sin PI (JArr (JStr <$> names)) w h m s = Ok g
    /\ id <$> nodes g = JStr <$> names
    /\ List.length (circles g) = List.length names
    /\ List.length (labels g) = List.length names
    /\ List.length (edges g) = (List.length names - 1)%nat
    /\ List.length (lines g) = (List.length names - 1)%nat
    /\ List.length (links g) = (List.length names - 1)%nat
    /\ forall i a b,
         names !! i = Some a -> names !! S i = Some b ->
         edges g !! i = Some {| source := JStr a; target := JStr b |}.
Proof.
  destruct (renderGraphVisualization cos sin PI (JArr (JStr <$> names))
              w h m s) as [g|e] eqn:Hg.
  - exists g. split; [done|].
    destruct (render_counts _ _ _ _ _ _ _ _ _ Hg)
      as (ids & es & Hparse & Hids & Hes & Hc & Hl & Hli & Hlk).
    cbn in Hparse. injection Hparse as <- <-.
    rewrite Hc, Hl, Hli, Hlk, !length_fmap.
    destruct names as [|x rest].
    + vm_compute in Hg. injection Hg as <-. by repeat split.
    + rewrite Hes by done.
      rewrite sequential_edges_length, length_fmap.
      repeat split; try done.
      intros i a b. apply sequential_edges_lookup.
  - exfalso. revert Hg. unfold renderGraphVisualization.
    cbn [parse mbind Result_bind JS.bind fst snd].
    destruct (List.length (JStr <$> names) =? 0)%nat; [done|].
    destruct (initialize_links_declared names _
                (sequential_edges_declared names)) as (ls & -> & _).
    done.
Qed.

(** X23. Whatever the payload, the circles of a drawn graph are all
    blue at step 0 and all gray at every other step, with the plain white
    border of width 3: the node objects are created with their id only,
    so the visited and current colours are never used. *)
Theorem X23_graph_nodes_only_know_step_zero
    (cos sin : Q -> Q) (PI : Q) (graphData : JsValue)
    (w h : Q) (m : Margin) (s : Z) (g : Graph) :
  renderGraphVisualization cos sin PI graphData w h m s = Ok g ->
  forall e, e ∈ circles g ->
    attrs e !! "fill"
    = Some (AStr (if decide (s = 0%Z) then "#3b82f6" else "#6b7280"))
    /\ attrs e !! "stroke" = Some (AStr "#fff")
    /\ attrs e !! "stroke-width" = Some (ANum 3).
Proof.
  unfold renderGraphVisualization.
  destruct (parse graphData) as [[ids es]|]; [|done].
  cbn [mbind Result_bind JS.bind fst snd].
  destruct (List.length ids =? 0)%nat.
  { intros [= <-] e He. by apply elem_of_nil in He. }
  destruct (initialize_links ids es) as [ls|]; [|done].
  cbn [mbind Result_bind JS.bind].
  intros [= <-] e He. cbn [circles] in He. revert He.
  d3_normalise. intros He.
  apply list_elem_of_lookup in He as [i He].
  rewrite list_lookup_imap in He. unfold place in He.
  rewrite list_lookup_imap in He.
  destruct (ids !! i) as [d|]; [|done].
  cbn [fmap option_fmap option_map] in He. injection He as <-.
  case_decide as Hs.
  - subst s. vm_compute. repeat split; reflexivity.
  - destruct (Z.eqb_spec s 0) as [->|_]; [done|].
    destruct s; [done|..]; vm_compute; repeat split; reflexivity.
Qed.

Lemma X23_graph_nodes_only_know_step_zero_witness :
  exists g,
    renderGraphVisualization (fun _ => 0%Q) (fun _ => 0%Q) 3
      (JArr [JStr "A"; JStr "B"]) canvas_width canvas_height canvas_margin 2
    = Ok g
    /\ forall e, e ∈ circles g ->
         attrs e !! "fill" = Some (AStr "#6b7280")
         /\ attrs e !! "stroke" = Some (AStr "#fff")
         /\ attrs e !! "stroke-width" = Some (ANum 3).
Proof.
  eexists. split; [vm_compute; reflexivity|].
  apply (X23_graph_nodes_only_know_step_zero (fun _ => 0%Q) (fun _ => 0%Q) 3
           (JArr [JStr "A"; JStr "B"]) canvas_width canvas_height
           canvas_margin 2).
  vm_compute. reflexivity.
Defined.

(** X24. In the adjacency form a node whose value is truthy without
    being an array (a string, a number, an object) makes the renderer
    throw the [TypeError] of calling [forEach] on it, before anything is
    drawn. *)
Theorem X24_adjacency_value_must_be_an_array
    (cos sin : Q -> Q) (PI : Q) (props : list (string * JsValue))
    (w h : Q) (m : Margin) (s : Z) (k : string) (v : JsValue) :
  assoc k props = Some v -> truthy v = true -> isArray v = false ->
  renderGraphVisualization cos sin PI (JObj props) w h m s
  = Throw (TypeError "neighbors.forEach is not a function").
Proof.
  intros Hk Ht Ha. unfold renderGraphVisualization, parse.
  rewrite (collect_throws _
             (TypeError "neighbors.forEach is not a function") _ k);
    [done| | |].
  - apply assoc_Some_elem in Hk. unfold keys.
    apply list_elem_of_fmap. by exists (k, v).
  - unfold edges_from, get. rewrite Hk, Ht. by destruct v.
  - intros n _. unfold edges_from.
    destruct (if truthy (get n props) then get n props else JArr []);
      eauto.
Qed.

Lemma X24_adjacency_value_must_be_an_array_witness :
  assoc "A" [("A", JStr "B"); ("B", JArr [JStr "A"])] = Some (JStr "B")
  /\ renderGraphVisualization (fun _ => 0%Q) (fun _ => 0%Q) 3
       (JObj [("A", JStr "B"); ("B", JArr [JStr "A"])])
       canvas_width canvas_height canvas_margin 0
     = Throw (TypeError "neighbors.forEach is not a function").
Proof.
  split; [reflexivity|].
  apply (X24_adjacency_value_must_be_an_array (fun _ => 0%Q) (fun _ => 0%Q)
           3 [("A", JStr "B"); ("B", JArr [JStr "A"])] canvas_width
           canvas_height canvas_margin 0 "A" (JStr "B")); reflexivity.
Defined.

(** X25. Neighbours given as numbers, as in the example the source
    gives for the adjacency form, are never names of nodes: such a
    payload is drawn with one circle per key and no line at all. *)
Theorem X25_numeric_neighbours_draw_no_edge
    (cos sin : Q -> Q) (PI : Q) (props : list (string * JsValue))
    (w h : Q) (m : Margin) (s : Z) :
  Forall (fun kv => exists qs, kv.2 = JArr (JNum <$> qs)) props ->
  exists g,
    renderGraphVisualization cos sin PI (JObj props) w h m s = Ok g
    /\ id <$> nodes g = JStr <$> keys props
    /\ List.length (circles g) = List.length props
    /\ edges g = [] /\ lines g = [] /\ links g = [].
Proof.
  intros Hnum.
  assert (Forall (fun kv => isArray kv.2 = true) props) as Harr.
  { eapply Forall_impl; [exact Hnum|]. by intros kv (qs & ->). }
  assert (concat (kept props <$> keys props) = []) as Hnone.
  { apply nil_length_inv. rewrite length_concat.
    assert (Forall (fun l : list Edge => l = []) (kept props <$> keys props))
      as Hall.
    { apply Forall_fmap, Forall_forall. intros name _. cbn.
      unfold kept.
      destruct (assoc name props) as [v|] eqn:Hv; [|done].
      apply assoc_Some_elem in Hv.
      rewrite Forall_forall in Hnum. destruct (Hnum _ Hv) as (qs & Hqs).
      cbn in Hqs. subst v.
      by rewrite filter_includes_numbers. }
    induction Hall as [|l ls -> _ IH]; [done|]. by cbn. }
  unfold renderGraphVisualization.
  rewrite (parse_adjacency _ Harr), Hnone.
  cbn [mbind Result_bind JS.bind fst snd initialize_links].
  destruct (Nat.eqb_spec (List.length (JStr <$> keys props)) 0)
    as [Hlen|Hlen].
  - rewrite length_fmap in Hlen. unfold keys in Hlen.
    rewrite length_map in Hlen.
    apply nil_length_inv in Hlen as ->. eexists. split; [reflexivity|].
    by repeat split.
  - eexists. split; [reflexivity|].
    cbn [nodes edges links lines circles].
    split; [apply place_ids|].
    split.
    { d3_normalise. rewrite length_imap. unfold place.
      rewrite length_imap, length_fmap. unfold keys. by rewrite length_map. }
    by repeat split.
Qed.

Lemma X25_numeric_neighbours_draw_no_edge_witness :
  exists g,
    renderGraphVisualization (fun _ => 0%Q) (fun _ => 0%Q) 3
      (JObj [("nodeA", JArr (JNum <$> [0%Q; 1%Q]));
             ("nodeB", JArr (JNum <$> [1%Q; 2%Q]))])
      canvas_width canvas_height canvas_margin 0 = Ok g
    /\ List.length (circles g) = 2%nat
    /\ edges g = [] /\ lines g = [].
Proof.
  destruct (X25_numeric_neighbours_draw_no_edge (fun _ => 0%Q)
              (fun _ => 0%Q) 3
              [("nodeA", JArr (JNum <$> [0%Q; 1%Q]));
               ("nodeB", JArr (JNum <$> [1%Q; 2%Q]))]
              canvas_width canvas_height canvas_margin 0)
    as (g & Hg & _ & Hc & He & Hl & _).
  - repeat constructor; eexists; reflexivity.
  - exists g. by repeat split.
Defined.

End GraphProperties.

(** ** Dragging a node of the graph *)

Section DragFacts.
Import D3 GraphRender GraphGesture.

Lemma held_start g i d :
  nodes g !! i = Some d -> held i g (x d, y d) (drag_start false i g).
Proof.
  intros Hd. unfold held, drag_start, with_node, with_simulation.
  cbn [nodes simulation alphaTarget restart]. split; [done|].
  intros j dj Hj. destruct (decide (j = i)) as [->|Hne].
  - rewrite list_lookup_alter_eq, Hj. cbn. eexists. split; [done|].
    assert (dj = d) as -> by congruence. done.
  - rewrite list_lookup_alter_ne by done. eauto.
Qed.

Lemma held_occur g i p g1 o :
  held i g p g1 -> held i g (pointer [o] p) (occur i g1 o).
Proof.
  intros [Ht Hnodes]. destruct o as [ex ey|free]; cbn [occur pointer fold_left].
  - unfold held, drag, with_node. cbn [nodes simulation]. split; [done|].
    intros j d Hj. destruct (Hnodes j d Hj) as (d1 & Hd1 & Hid & Hpins).
    destruct (decide (j = i)) as [->|Hne].
    + rewrite list_lookup_alter_eq, Hd1. cbn. eauto.
    + rewrite list_lookup_alter_ne by done. eauto.
  - unfold tick. destruct (running (simulation g1)); [|by split].
    unfold held. cbn [nodes simulation cool alphaTarget]. split; [done|].
    intros j d Hj. destruct (Hnodes j d Hj) as (d1 & Hd1 & Hid & Hpins).
    rewrite list_lookup_imap, Hd1. cbn. eauto.
Qed.

Lemma held_fold g i os : forall p g1,
  held i g p g1 -> held i g (pointer os p) (fold_left (occur i) os g1).
Proof.
  induction os as [|o os IH]; intros p g1 H; [done|].
  cbn [fold_left]. change (pointer (o :: os) p) with (pointer os (pointer [o] p)).
  apply IH. by apply held_occur.
Qed.

End DragFacts.

Section DragProperties.
Import D3 GraphRender GraphGesture.

(** X26. A drag gesture on a node, from its start to its end while no
    other gesture is active, with the pointer moving and the simulation
    ticking in any order in between.  The start restarts the simulation.
    At every moment of the gesture the target of the simulation is 0.3
    and the node is pinned where the pointer was last (where the node
    was, before the pointer has moved), so that a tick of the running
    simulation puts it there.  The end clears both pins of the node to
    [null] and sets the target to 0.  No other node's pins or id are
    touched. *)
Theorem X26_drag_pins_then_releases
    (g : Graph) (i : nat) (d : GraphNode) (os : list Occurrence) :
  nodes g !! i = Some d ->
  let during := dragging i os g in
  let after := drag_end false i during in
  let p := pointer os (x d, y d) in
  running (simulation (drag_start false i g)) = true
  /\ (exists d1, nodes during !! i = Some d1
        /\ fx d1 = PinAt p.1 /\ fy d1 = PinAt p.2
        /\ pinned d1 = true /\ id d1 = id d)
  /\ (forall free, running (simulation during) = true ->
        exists d', nodes (tick free during) !! i = Some d'
          /\ x d' = p.1 /\ y d' = p.2
          /\ fx d' = PinAt p.1 /\ fy d' = PinAt p.2)
  /\ alphaTarget (simulation during) = (3 # 10)%Q
  /\ (exists d2, nodes after !! i = Some d2
        /\ fx d2 = PinNull /\ fy d2 = PinNull
        /\ pinned d2 = false /\ id d2 = id d)
  /\ alphaTarget (simulation after) = 0%Q
  /\ (forall j dj, j <> i -> nodes g !! j = Some dj ->
        exists dj', nodes after !! j = Some dj'
          /\ id dj' = id dj /\ fx dj' = fx dj /\ fy dj' = fy dj).
Proof.
  intros Hd. cbv zeta. unfold dragging.
  pose proof (held_fold g i os _ _ (held_start g i d Hd)) as [Ht Hnodes].
  set (during := fold_left (occur i) os (drag_start false i g)) in *.
  clearbody during.
  set (p := pointer os (x d, y d)) in *. clearbody p.
  destruct (Hnodes i d Hd) as (d1 & Hd1 & Hid & Hpins).
  rewrite decide_True in Hpins by done. destruct Hpins as [Hfx Hfy].
  split; [done|]. split.
  { exists d1. unfold pinned. rewrite Hfx, Hfy. by repeat split. }
  split.
  { intros free Hrun. unfold tick. rewrite Hrun. cbn [nodes].
    rewrite list_lookup_imap, Hd1. cbn [fmap option_fmap option_map].
    eexists. split; [reflexivity|].
    unfold tick_node. cbn [x y fx fy]. rewrite Hfx, Hfy. by repeat split. }
  split; [done|]. split.
  { unfold drag_end, with_node, with_simulation. cbn [nodes].
    rewrite list_lookup_alter_eq, Hd1. cbn. eexists. split; [done|].
    by repeat split. }
  split; [done|].
  intros j dj Hne Hj. destruct (Hnodes j dj Hj) as (dj' & Hdj' & Hidj & Hpj).
  rewrite decide_False in Hpj by done.
  unfold drag_end, with_node, with_simulation. cbn [nodes].
  rewrite list_lookup_alter_ne by done. exists dj'. by destruct Hpj.
Qed.

Lemma X26_drag_pins_then_releases_witness :
  exists d,
    nodes pair_at_rest !! 0%nat = Some d
    /\ exists d1,
         nodes (dragging 0
                  [Pointer 120 60; Tick (fun _ => (0%Q, 0%Q)); Pointer 130 70]
                  pair_at_rest) !! 0%nat = Some d1
         /\ fx d1 = PinAt 130 /\ fy d1 = PinAt 70
         /\ pinned d1 = true /\ id d1 = id d.
Proof.
  eexists. split; [reflexivity|].
  apply (X26_drag_pins_then_releases pair_at_rest 0 _
           [Pointer 120 60; Tick (fun _ => (0%Q, 0%Q)); Pointer 130 70]).
  reflexivity.
Defined.

End DragProperties.

(** ** The tree view *)

Section TreeFacts.
Import D3 TreeRender.





End TreeFacts.

Section TreeProperties.
Import D3 TreeRender.


End TreeProperties.
